(** * The lock and content-store layer of the vendored virtualenv

    A shallow embedding of
    - [virtualenv/util/lock.py]              (counted file locks, the lock registry, path locks),
    - [virtualenv/app_data/via_disk_folder.py] (the JSON store and the disk-folder app data),
    - [virtualenv/app_data/via_tempdir.py]   (the temporary app data),
    together with the properties the specification states about them.

    The Python code mutates three pieces of shared state: the disk, the
    module-level registry [_lock_store] with the lock objects it refers to,
    and the advisory locks the operating system keeps per lock file.  They
    are gathered in one record [World]; every method is a computation in a
    small state-and-exception monad over it. *)

From Stdlib Require Import ZArith NArith QArith Ascii String List.
From stdpp Require Import gmap strings list fin_maps sorting.

Local Open Scope Z_scope.

(** ** Paths, text and the disk *)

(** A [pathlib.Path] is the list of its components, root first; a path and
    its [str()] are identified, and [resolve()] is the identity (paths are
    absolute and free of symbolic links). *)
Abbreviation Path := (list string).

(** A Python [str] is a sequence of Unicode code points. *)
Abbreviation pystr := (list N).

Definition str (s : string) : pystr :=
  map N_of_ascii (list_ascii_of_string s).

(** [self.path / other], for [other] a single component: a string that
    [pathlib] does not split, drop or take for another folder. *)
Definition truediv (p : Path) (other : string) : Path := p ++ [other].

(** [os.path.dirname] and [Path.parent]. *)
Definition dirname (p : Path) : Path := removelast p.

(** [Path.name]: the last component ([""] for the root). *)
Definition name (p : Path) : string := List.last p EmptyString.

(** The exception classes the code raises or catches. *)
Inductive exn :=
  | Timeout
  | FileNotFoundError
  | FileExistsError
  | IsADirectoryError
  | NotADirectoryError
  | PermissionError
  | JSONDecodeError
  | UnicodeDecodeError
  | TypeError
  | NotImplementedError
  | ValueError
  | RecursionError
  | AssertionError.

(** [filelock.Timeout] derives from [TimeoutError], an [OSError]. *)
Definition is_OSError (e : exn) : bool :=
  match e with
  | Timeout | FileNotFoundError | FileExistsError | IsADirectoryError
  | NotADirectoryError | PermissionError => true
  | _ => false
  end.

Definition is_ValueError (e : exn) : bool :=
  match e with
  | JSONDecodeError | UnicodeDecodeError | ValueError => true
  | _ => false
  end.

Definition is_Timeout (e : exn) : bool :=
  match e with Timeout => true | _ => false end.

Definition is_Exception (e : exn) : bool := true.

#[export] Instance exn_eq_dec : EqDecision exn.
Proof. solve_decision. Defined.

(** What a file holds: text, or bytes that the locale's encoding does not
    decode (for which [read_text] raises [UnicodeDecodeError]). *)
Inductive filedata :=
  | Text (t : pystr)
  | Undecodable.

(** A directory entry: a directory or a regular file; [accessible] is false
    for a file this process may neither read nor write. *)
Inductive node :=
  | Dir
  | File (accessible : bool) (data : filedata).

Abbreviation Disk := (gmap Path node).

Definition exists_ (p : Path) (d : Disk) : bool :=
  match p with
  | [] => true
  | _ => bool_decide (is_Some (d !! p))
  end.

Definition isdir (p : Path) (d : Disk) : bool :=
  match p with
  | [] => true
  | _ => match d !! p with Some Dir => true | _ => false end
  end.

Inductive mk_status :=
  | MkCreated
  | MkExisted
  | MkBlocked (e : exn).

(** Walk down [todo] below [above], creating the directories that are
    missing, until the leaf is reached or a regular file is in the way. *)
Fixpoint mkdir_walk (above : Path) (todo : list string) (d : Disk) : Disk * mk_status :=
  match todo with
  | [] => (d, MkExisted)
  | c :: rest =>
      let p := above ++ [c] in
      match d !! p, rest with
      | None, [] => (<[p := Dir]> d, MkCreated)
      | None, _ => mkdir_walk p rest (<[p := Dir]> d)
      | Some Dir, [] => (d, MkExisted)
      | Some Dir, _ => mkdir_walk p rest d
      | Some (File _ _), [] => (d, MkBlocked FileExistsError)
      | Some (File _ _), _ => (d, MkBlocked NotADirectoryError)
      end
  end.

(** [os.makedirs(p)]: raises when [p] exists already or cannot be made. *)
Definition makedirs (p : Path) (d : Disk) : Disk * option exn :=
  match mkdir_walk [] p d with
  | (d', MkCreated) => (d', None)
  | (d', MkExisted) => (d', Some FileExistsError)
  | (d', MkBlocked e) => (d', Some e)
  end.

(** [Path.mkdir(parents=True, exist_ok=True)]. *)
Definition mkdir_parents_exist_ok (p : Path) (d : Disk) : Disk * option exn :=
  match mkdir_walk [] p d with
  | (d', MkBlocked e) => (d', Some e)
  | (d', _) => (d', None)
  end.

(** [Path.read_text()]. *)
Definition read_text (p : Path) (d : Disk) : pystr + exn :=
  match d !! p with
  | None => inr FileNotFoundError
  | Some Dir => inr IsADirectoryError
  | Some (File false _) => inr PermissionError
  | Some (File true Undecodable) => inr UnicodeDecodeError
  | Some (File true (Text t)) => inl t
  end.

(** [Path.write_text(t)]: creates or truncates the file. *)
Definition write_text (p : Path) (t : pystr) (d : Disk) : Disk * option exn :=
  if negb (isdir (dirname p) d) then
    (d, Some (if exists_ (dirname p) d then NotADirectoryError else FileNotFoundError))
  else
    match d !! p with
    | Some Dir => (d, Some IsADirectoryError)
    | Some (File false _) => (d, Some PermissionError)
    | _ => (<[p := File true (Text t)]> d, None)
    end.

(** [Path.unlink()]. *)
Definition unlink (p : Path) (d : Disk) : Disk * option exn :=
  match d !! p with
  | None => (d, Some FileNotFoundError)
  | Some Dir => (d, Some IsADirectoryError)
  | Some (File _ _) => (delete p d, None)
  end.

(** [Path.iterdir()], as the list it is traversed in (the order is the
    operating system's). *)
Definition iterdir (folder : Path) (d : Disk) : list Path :=
  filter (λ p, p ≠ [] ∧ dirname p = folder) (map fst (map_to_list d)).

(** [Path.suffix] and [Path.stem] look for the last dot of the name; a dot
    in first or last position does not start a suffix. *)
Fixpoint rfind_dot (cs : list ascii) : option nat :=
  match cs with
  | [] => None
  | c :: cs' =>
      match rfind_dot cs' with
      | Some i => Some (S i)
      | None => if Ascii.eqb c "."%char then Some O else None
      end
  end.

Definition split_suffix (nm : string) : string * string :=
  let cs := list_ascii_of_string nm in
  match rfind_dot cs with
  | Some i =>
      if ((0 <? i)%nat && (i <? length cs - 1)%nat)%bool
      then (string_of_list_ascii (take i cs), string_of_list_ascii (drop i cs))
      else (nm, EmptyString)
  | None => (nm, EmptyString)
  end.

Definition stem (p : Path) : string := fst (split_suffix (name p)).
Definition suffix (p : Path) : string := snd (split_suffix (name p)).

(** [shutil.rmtree]: everything at or below [p] goes. *)
Definition rmtree (p : Path) (d : Disk) : Disk :=
  filter (λ kv, negb (bool_decide (p `prefix_of` kv.1)) = true) d.

(** ** The world and the monad of Python computations *)

(** A [_CountedFileLock] object.  [thread_safe], the [RLock] that makes
    [acquire] and [release] atomic, is not a field: every method below is
    one atomic step. *)
Record CountedFileLock := mkCountedFileLock {
  lock_file : Path;
  count : Z;
}.

(** Who holds the operating system's lock on a lock file: one of this
    process's lock objects (by identity), or some other process. *)
Inductive owner :=
  | Handle (h : nat)
  | Elsewhere.

#[export] Instance owner_eq_dec : EqDecision owner.
Proof. solve_decision. Defined.

Record World := mkWorld {
  disk : Disk;
  (** every [_CountedFileLock] constructed so far; an object's identity is
      its index *)
  objects : list CountedFileLock;
  (** the module-level dict [_lock_store] *)
  _lock_store : gmap Path nat;
  (** the advisory locks held at the operating system's level *)
  os_locks : gmap Path owner;
  (** the calls made so far to the archive extraction routine *)
  extracted : list (Path * Path);
}.

Definition set_disk (f : Disk → Disk) (w : World) : World :=
  mkWorld (f (disk w)) (objects w) (_lock_store w) (os_locks w) (extracted w).
Definition set_objects (f : list CountedFileLock → list CountedFileLock) (w : World) : World :=
  mkWorld (disk w) (f (objects w)) (_lock_store w) (os_locks w) (extracted w).
Definition set_lock_store (f : gmap Path nat → gmap Path nat) (w : World) : World :=
  mkWorld (disk w) (objects w) (f (_lock_store w)) (os_locks w) (extracted w).
Definition set_os_locks (f : gmap Path owner → gmap Path owner) (w : World) : World :=
  mkWorld (disk w) (objects w) (_lock_store w) (f (os_locks w)) (extracted w).
Definition set_extracted (f : list (Path * Path) → list (Path * Path)) (w : World) : World :=
  mkWorld (disk w) (objects w) (_lock_store w) (os_locks w) (f (extracted w)).

(** A fresh process on a given disk. *)
Definition boot (d : Disk) : World := mkWorld d [] ∅ ∅ [].

(** A call returns a value, raises, or never comes back because it waits
    for a lock that is held elsewhere. *)
Inductive outcome (A : Type) :=
  | Return (a : A) (w : World)
  | Raise (e : exn) (w : World)
  | Blocks.
Arguments Return {A} a w.
Arguments Raise {A} e w.
Arguments Blocks {A}.

Definition M (A : Type) : Type := World → outcome A.

#[export] Instance M_ret : MRet M := λ A a w, Return a w.
#[export] Instance M_bind : MBind M := λ A B k c w,
  match c w with
  | Return a w' => k a w'
  | Raise e w' => Raise e w'
  | Blocks => Blocks
  end.

Definition raise {A} (e : exn) : M A := λ w, Raise e w.
Definition get : M World := λ w, Return w w.
Definition modify (f : World → World) : M unit := λ w, Return tt (f w).

(** [try: c  except <catches> as e: handler e]. *)
Definition try_except {A} (c : M A) (catches : exn → bool) (handler : exn → M A) : M A :=
  λ w, match c w with
       | Raise e w' => if catches e then handler e w' else Raise e w'
       | o => o
       end.

(** [try: c  finally: cleanup]. *)
Definition try_finally {A} (c : M A) (cleanup : M unit) : M A :=
  λ w, match c w with
       | Return a w' =>
           match cleanup w' with
           | Return _ w'' => Return a w''
           | Raise e w'' => Raise e w''
           | Blocks => Blocks
           end
       | Raise e w' =>
           match cleanup w' with
           | Return _ w'' => Raise e w''
           | Raise e' w'' => Raise e' w''
           | Blocks => Blocks
           end
       | Blocks => Blocks
       end.

(** Lift a disk operation that may raise. *)
Definition on_disk (op : Disk → Disk * option exn) : M unit :=
  λ w, match op (disk w) with
       | (d, None) => Return tt (set_disk (λ _, d) w)
       | (d, Some e) => Raise e (set_disk (λ _, d) w)
       end.

(** The world a call leaves behind, when it comes back at all. *)
Definition world_of {A} (o : outcome A) : option World :=
  match o with
  | Return _ w => Some w
  | Raise _ w => Some w
  | Blocks => None
  end.

(** ** util/lock.py *)

(** Modelled from the spec: the base class [FileLock] of the vendored
    [filelock] package.  [acquire] attempts the exclusive lock of the
    operating system on the lock file; when the lock is held elsewhere a
    numeric [timeout] makes it raise [Timeout] and no timeout makes it
    wait.  Taking the lock leaves the lock file on the disk. *)
Definition FileLock_acquire (h : nat) (p : Path) (timeout : option Q) : M unit :=
  λ w, match os_locks w !! p with
       | None =>
           Return tt (set_os_locks <[p := Handle h]>
                     (set_disk (λ d, match d !! p with
                                     | None => <[p := File true (Text [])]> d
                                     | Some _ => d
                                     end) w))
       | Some o =>
           if bool_decide (o = Handle h) then Return tt w
           else match timeout with
                | Some _ => Raise Timeout w
                | None => Blocks
                end
       end.

(** Modelled from the spec: [FileLock.release] gives the lock of the
    operating system back.  The primitive keeps no count of its own here,
    so [force] changes nothing at this level. *)
Definition FileLock_release (h : nat) (p : Path) (force : bool) : M unit :=
  λ w, match os_locks w !! p with
       | Some o => if bool_decide (o = Handle h)
                   then Return tt (set_os_locks (delete p) w)
                   else Return tt w
       | None => Return tt w
       end.

Definition set_count (h : nat) (c : Z) : M unit :=
  modify (set_objects (λ os, match os !! h with
                             | Some l => <[h := mkCountedFileLock (lock_file l) c]> os
                             | None => os
                             end)).

(** [_CountedFileLock.__init__]. *)
Definition new_CountedFileLock (lock_file : Path) : M nat :=
  let parent := dirname lock_file in
  w ← get;
  (if negb (isdir parent (disk w))
   then try_except (on_disk (makedirs parent)) is_OSError (λ _, mret tt)
   else mret tt);;
  w ← get;
  modify (set_objects (λ os, os ++ [mkCountedFileLock lock_file 0]));;
  mret (length (objects w)).

(** [_CountedFileLock.acquire]. *)
Definition acquire (self : nat) (timeout : option Q) : M unit :=
  w ← get;
  match objects w !! self with
  | None => mret tt
  | Some l =>
      (if count l =? 0 then FileLock_acquire self (lock_file l) timeout else mret tt);;
      set_count self (count l + 1)
  end.

(** [_CountedFileLock.release]. *)
Definition release (self : nat) (force : bool) : M unit :=
  w ← get;
  match objects w !! self with
  | None => mret tt
  | Some l =>
      (if count l =? 1 then FileLock_release self (lock_file l) force else mret tt);;
      set_count self (Z.max (count l - 1) 0)
  end.

(** [ReentrantFileLock]: the folder, and the lock taken by [__enter__]. *)
Record ReentrantFileLock := mkReentrantFileLock {
  path : Path;
  _lock : option nat;
}.

(** [PathLockBase.__init__], through [ReentrantFileLock.__init__]. *)
Definition new_ReentrantFileLock (folder : Path) : ReentrantFileLock :=
  mkReentrantFileLock folder None.

(** [ReentrantFileLock._create_lock], a critical section of [_store_lock]. *)
Definition _create_lock (self : ReentrantFileLock) (name : string) : M nat :=
  let lock_file := truediv (path self) (name +:+ ".lock") in
  w ← get;
  match _lock_store w !! lock_file with
  | None =>
      h ← new_CountedFileLock lock_file;
      modify (set_lock_store <[lock_file := h]>);;
      mret h
  | Some h => mret h
  end.

(** [ReentrantFileLock._del_lock], a critical section of [_store_lock] and
    of the lock's [thread_safe]. *)
Definition _del_lock (lock : option nat) : M unit :=
  match lock with
  | None => mret tt
  | Some h =>
      w ← get;
      match objects w !! h with
      | None => mret tt
      | Some l =>
          if count l =? 0
          then modify (set_lock_store (delete (lock_file l)))
          else mret tt
      end
  end.

(** [ReentrantFileLock._lock_file]. *)
Definition _lock_file (self : ReentrantFileLock) (lock : nat) (no_block : bool) : M unit :=
  try_except (on_disk (makedirs (path self))) is_OSError (λ _, mret tt);;
  try_except (acquire lock (Some (1 # 10000)%Q)) is_Timeout
    (λ e, if no_block then raise e
          else release lock false;; acquire lock None).

(** [ReentrantFileLock._release]. *)
Definition _release (lock : nat) : M unit := release lock false.

(** [ReentrantFileLock.__enter__]; the updated [self] is returned. *)
Definition ReentrantFileLock_enter (self : ReentrantFileLock) : M ReentrantFileLock :=
  h ← _create_lock self "";
  let self := mkReentrantFileLock (path self) (Some h) in
  _lock_file self h false;;
  mret self.

(** [ReentrantFileLock.__exit__]. *)
Definition ReentrantFileLock_exit (self : ReentrantFileLock) : M ReentrantFileLock :=
  match _lock self with
  | Some h => _release h
  | None => raise TypeError
  end;;
  _del_lock (_lock self);;
  mret (mkReentrantFileLock (path self) None).

(** [with self: body]. *)
Definition ReentrantFileLock_with {A} (self : ReentrantFileLock) (body : M A) : M A :=
  self ← ReentrantFileLock_enter self;
  try_finally body (ReentrantFileLock_exit self;; mret tt).

(** [with self.lock_for_key(name, no_block): body]. *)
Definition ReentrantFileLock_lock_for_key {A} (self : ReentrantFileLock)
    (name : string) (no_block : bool) (body : M A) : M A :=
  lock ← _create_lock self name;
  try_finally
    (try_finally (_lock_file self lock no_block;; body) (_release lock))
    (_del_lock (Some lock)).

(** [with self.non_reentrant_lock_for_key(name): body].  Entering a
    [FileLock] calls its [acquire()], leaving it calls its [release()]. *)
Definition ReentrantFileLock_non_reentrant_lock_for_key {A} (self : ReentrantFileLock)
    (name : string) (body : M A) : M A :=
  h ← new_CountedFileLock (truediv (path self) (name +:+ ".lock"));
  acquire h None;;
  try_finally body (release h false).

(** ** The state of a counted lock, as the specification speaks of it *)

(** The reentrancy count of the lock object [h]. *)
Definition count_of (h : nat) (w : World) : Z :=
  match objects w !! h with
  | Some l => count l
  | None => 0
  end.

(** Whether the lock object [h] holds the lock of the operating system on
    its lock file. *)
Definition os_held (h : nat) (w : World) : bool :=
  match objects w !! h with
  | Some l => bool_decide (os_locks w !! lock_file l = Some (Handle h))
  | None => false
  end.

(** The invariant of the counted locks: a lock object holds the lock of the
    operating system exactly when its count is positive, counts are never
    negative, and the operating system's table only names lock objects
    that exist, under their own lock file. *)
Record lock_inv (w : World) : Prop := mk_lock_inv {
  inv_held : ∀ h l, objects w !! h = Some l → (os_held h w = true ↔ 0 < count l);
  inv_nonneg : ∀ h l, objects w !! h = Some l → 0 ≤ count l;
  inv_owner : ∀ p h, os_locks w !! p = Some (Handle h) →
              ∃ l, objects w !! h = Some l ∧ lock_file l = p;
}.

(** [NoOpFileLock]: the path lock that locks nothing. *)
Record NoOpFileLock := mkNoOpFileLock {
  noop_path : Path;
}.

(** [NoOpFileLock.__enter__] and [NoOpFileLock.__exit__]. *)
Definition NoOpFileLock_enter (self : NoOpFileLock) : M NoOpFileLock :=
  raise NotImplementedError.
Definition NoOpFileLock_exit (self : NoOpFileLock) : M NoOpFileLock :=
  raise NotImplementedError.

(** [with self.lock_for_key(name, no_block): body] and
    [with self.non_reentrant_lock_for_key(name): body]: the generator
    yields at once and ends after the body. *)
Definition NoOpFileLock_lock_for_key {A} (self : NoOpFileLock)
    (name : string) (no_block : bool) (body : M A) : M A :=
  body.
Definition NoOpFileLock_non_reentrant_lock_for_key {A} (self : NoOpFileLock)
    (name : string) (body : M A) : M A :=
  body.

(** The abstract base class [PathLockBase]: what every path lock offers. *)
Class PathLockBase (L : Type) := {
  lock_path : L → Path;
  (** [self / other] *)
  lock_div : L → string → L;
  enter : L → M L;
  exit : L → M L;
  lock_for_key : ∀ {A}, L → string → bool → M A → M A;
  non_reentrant_lock_for_key : ∀ {A}, L → string → M A → M A;
}.

#[export] Instance ReentrantFileLock_PathLock : PathLockBase ReentrantFileLock := {
  lock_path := path;
  lock_div self other := new_ReentrantFileLock (truediv (path self) other);
  enter := ReentrantFileLock_enter;
  exit := ReentrantFileLock_exit;
  lock_for_key := @ReentrantFileLock_lock_for_key;
  non_reentrant_lock_for_key := @ReentrantFileLock_non_reentrant_lock_for_key;
}.

#[export] Instance NoOpFileLock_PathLock : PathLockBase NoOpFileLock := {
  lock_path := noop_path;
  lock_div self other := mkNoOpFileLock (truediv (noop_path self) other);
  enter := NoOpFileLock_enter;
  exit := NoOpFileLock_exit;
  lock_for_key := @NoOpFileLock_lock_for_key;
  non_reentrant_lock_for_key := @NoOpFileLock_non_reentrant_lock_for_key;
}.

(** [with lock: body], for any path lock. *)
Definition with_lock {L} `{PathLockBase L} {A} (lock : L) (body : M A) : M A :=
  lock ← enter lock;
  try_finally body (exit lock;; mret tt).

(** The same request for a lock handle, made [n] times in a row. *)
Fixpoint request_n (n : nat) (self : ReentrantFileLock) (name : string) : M (list nat) :=
  match n with
  | O => mret []
  | S n' =>
      h ← _create_lock self name;
      hs ← request_n n' self name;
      mret (h :: hs)
  end.

(** The key under which [_create_lock self name] looks in [_lock_store]. *)
Definition key_of (self : ReentrantFileLock) (name : string) : Path :=
  truediv (path self) (name +:+ ".lock").

(** *** Two executions of the lock code, used as test inputs below *)

(** A lock object acquired twice: its count is 2. *)
Definition nested_twice : M nat :=
  h ← new_CountedFileLock ["cache"; "k.lock"];
  acquire h None;;
  acquire h None;;
  mret h.

(** Three threads ask for the lock of key ["k"] under one folder.  Thread A
    has obtained its handle and not yet locked it when thread B runs a
    whole [with lock_for_key("k"): pass]; then A locks its handle and
    thread C asks for the handle of the same key. *)
Definition three_threads : M (nat * nat) :=
  let self := new_ReentrantFileLock ["cache"] in
  hA ← _create_lock self "k";
  ReentrantFileLock_lock_for_key self "k" false (mret tt);;
  _lock_file self hA false;;
  hC ← _create_lock self "k";
  mret (hA, hC).

(** The world a computation leaves behind (the initial one if it blocks). *)
Definition world_after {A} (c : M A) (w : World) : World :=
  match c w with
  | Return _ w' => w'
  | Raise _ w' => w'
  | Blocks => w
  end.

(** The handle registered for a key, read inside a critical section. *)
Definition registered (self : ReentrantFileLock) (name : string) : M (option nat) :=
  w ← get;
  mret (_lock_store w !! key_of self name).

(** One thread, two uses of the same key one after the other; each use
    reports the handle it worked with. *)
Definition two_uses : M (option nat * option nat) :=
  let self := new_ReentrantFileLock ["cache"] in
  h1 ← ReentrantFileLock_lock_for_key self "k" false (registered self "k");
  h2 ← ReentrantFileLock_lock_for_key self "k" false (registered self "k");
  mret (h1, h2).


(** ** Python values and the [json] module

    [JSONStoreDisk] reads with [json.loads] and writes with
    [json.dumps(content, sort_keys=True, indent=2)].  Both are embedded
    here as the standard library defines them: the Python encoder
    ([json.encoder._make_iterencode], the one in use when an indent is
    given) and the scanner ([json.scanner], [json.decoder]), with the two
    limits of the interpreter they run into: the number of digits an
    integer may have when it is converted from or to text, and the depth
    of recursion. *)

(** What is left of the recursion limit when [json.dumps] and
    [json.loads] are called: the number of Python frames the encoder may
    still enter below its first, and the number of containers the scanner
    may still enter.  Both depend on the interpreter and on the depth of
    the call. *)
Class Limits := {
  encoder_depth : nat;
  decoder_depth : nat;
}.

(** [sys.int_max_str_digits], at its default: an integer of more digits
    is converted neither from nor to decimal text ([ValueError]). *)
Definition int_max_str_digits : nat := 4300.

(** The code point of a character. *)
Definition chr (a : ascii) : N := N_of_ascii a.
Arguments chr : simpl never.

(** The keys a dict may have when [json.dumps] accepts it. *)
Inductive pykey :=
  | KStr (s : pystr)
  | KInt (z : Z)
  | KBool (b : bool)
  | KNone.

(** The Python values [json.dumps] accepts and [json.loads] returns.  A
    dict is the list of its items in insertion order.  A float is carried
    as its [repr] (["1.5"], ["1e+100"], ["nan"], ["inf"], ["-inf"]); the
    arithmetic of floats is outside this embedding. *)
#[local] Unset Elimination Schemes.
Inductive pyval :=
  | PNone
  | PBool (b : bool)
  | PInt (z : Z)
  | PFloat (r : pystr)
  | PStr (s : pystr)
  | PList (l : list pyval)
  | PTuple (l : list pyval)
  | PDict (items : list (pykey * pyval)).
#[local] Set Elimination Schemes.

#[export] Instance pykey_eq_dec : EqDecision pykey.
Proof. solve_decision. Defined.

(** *** Encoding *)

(** [int.__repr__]: the decimal digits, most significant first. *)
Fixpoint digits_aux (fuel : nat) (n : N) (acc : list N) : list N :=
  match fuel with
  | O => acc
  | S fuel' =>
      let acc' := (chr "0" + n mod 10)%N :: acc in
      if (n / 10 =? 0)%N then acc' else digits_aux fuel' (n / 10)%N acc'
  end.

Definition digits (n : N) : list N :=
  digits_aux (S (N.to_nat (N.log2 n))) n [].

Definition intstr (z : Z) : pystr :=
  if z <? 0 then chr "-" :: digits (Z.to_N (- z)) else digits (Z.to_N z).

(** [floatstr]: [float.__repr__], but for the three values JSON has no
    literal for. *)
Definition floatstr (r : pystr) : pystr :=
  if bool_decide (r = str "nan") then str "NaN"
  else if bool_decide (r = str "inf") then str "Infinity"
  else if bool_decide (r = str "-inf") then str "-Infinity"
  else r.

Definition hex_digit (d : N) : N :=
  (if d <? 10 then chr "0" + d else chr "a" + (d - 10))%N.

(** ['\\u{0:04x}'.format(n)]. *)
Definition u_escape (n : N) : list N :=
  [chr "\"; chr "u";
   hex_digit (n / 4096 mod 16); hex_digit (n / 256 mod 16);
   hex_digit (n / 16 mod 16); hex_digit (n mod 16)]%N.

(** The replacement of one character in [encode_basestring_ascii]; the
    double quote is code point 34. *)
Definition escape_char (c : N) : list N :=
  (if c =? 34 then [chr "\"; 34]
   else if c =? chr "\" then [chr "\"; chr "\"]
   else if c =? 10 then [chr "\"; chr "n"]
   else if c =? 13 then [chr "\"; chr "r"]
   else if c =? 9 then [chr "\"; chr "t"]
   else if c =? 8 then [chr "\"; chr "b"]
   else if c =? 12 then [chr "\"; chr "f"]
   else if (32 <=? c) && (c <=? 126) then [c]
   else if c <? 0x10000 then u_escape c
   else
     let n := c - 0x10000 in
     u_escape (N.lor 0xd800 (N.land (N.shiftr n 10) 0x3ff))
     ++ u_escape (N.lor 0xdc00 (N.land n 0x3ff)))%N.

Definition encode_basestring_ascii (s : pystr) : list N :=
  34%N :: concat (map escape_char s) ++ [34%N].

(** The text a dict key is written as. *)
Definition key_str (k : pykey) : pystr :=
  match k with
  | KStr s => s
  | KInt z => intstr z
  | KBool true => str "true"
  | KBool false => str "false"
  | KNone => str "null"
  end.

(** The order [sorted] puts keys in: strings by code points, integers and
    booleans by value.  A string and a number, or [None] and anything, do
    not compare: [sorted] raises [TypeError]. *)
Fixpoint pystr_ltb (s t : pystr) : bool :=
  match s, t with
  | _, [] => false
  | [], _ :: _ => true
  | a :: s', b :: t' => ((a <? b) || ((a =? b) && pystr_ltb s' t'))%N
  end.

Definition key_num (k : pykey) : Z :=
  match k with
  | KInt z => z
  | KBool b => if b then 1 else 0
  | _ => 0
  end.

Definition key_is_str (k : pykey) : bool :=
  match k with KStr _ => true | _ => false end.

Definition key_is_num (k : pykey) : bool :=
  match k with KInt _ | KBool _ => true | _ => false end.

Definition key_ltb (a b : pykey) : bool :=
  match a, b with
  | KStr s, KStr t => pystr_ltb s t
  | KStr _, _ | _, KStr _ | KNone, _ | _, KNone => false
  | _, _ => key_num a <? key_num b
  end.

Definition sortable (ks : list pykey) : bool :=
  (length ks <=? 1)%nat || forallb key_is_str ks || forallb key_is_num ks.

(** [sorted(dct.items())], as a stable insertion sort on the keys. *)
Fixpoint insert_item {X} (x : pykey * X) (l : list (pykey * X)) : list (pykey * X) :=
  match l with
  | [] => [x]
  | y :: l' => if key_ltb y.1 x.1 then y :: insert_item x l' else x :: y :: l'
  end.

Definition sort_items {X} (l : list (pykey * X)) : list (pykey * X) :=
  foldr insert_item [] l.

(** ['\n' + ' ' * (2 * level)]. *)
Definition newline_indent (level : nat) : list N :=
  10%N :: replicate (2 * level) (chr " ").

(** [separator.join(chunks)]. *)
Fixpoint join (sep : list N) (chunks : list (list N)) : list N :=
  match chunks with
  | [] => []
  | [c] => c
  | c :: cs => c ++ sep ++ join sep cs
  end.

(** A non-empty container between its brackets, one item per line. *)
Definition bracketed (opening closing : N) (level : nat) (chunks : list (list N)) : list N :=
  opening :: newline_indent (S level)
  ++ join (chr "," :: newline_indent (S level)) chunks
  ++ newline_indent level ++ [closing].

(** One item of a dict: the key, [": "], the value. *)
Definition dict_chunk (kv : pykey * list N) : list N :=
  encode_basestring_ascii (key_str kv.1) ++ [chr ":"; chr " "] ++ kv.2.

(** [_iterencode(o, level)] with [indent=2] and [sort_keys=True], its
    chunks joined.  Dict items are sorted by key; the values are encoded
    first, which the order does not depend on. *)
Fixpoint iterencode (level : nat) (o : pyval) : list N :=
  match o with
  | PStr s => encode_basestring_ascii s
  | PNone => str "null"
  | PBool true => str "true"
  | PBool false => str "false"
  | PInt z => intstr z
  | PFloat r => floatstr r
  | PList [] | PTuple [] => str "[]"
  | PList l | PTuple l =>
      bracketed (chr "[") (chr "]") level (map (iterencode (S level)) l)
  | PDict [] => str "{}"
  | PDict items =>
      bracketed (chr "{") (chr "}") level
        (map dict_chunk
           (sort_items (map (λ kv, (kv.1, iterencode (S level) kv.2)) items)))
  end.

(** Whether every dict in [o] has keys that [sorted] can compare. *)
Fixpoint serializable (o : pyval) : bool :=
  match o with
  | PList l | PTuple l => forallb serializable l
  | PDict items =>
      sortable (map fst items) && forallb (λ kv, serializable kv.2) items
  | _ => true
  end.

(** Whether [int.__repr__] gives the text of [z]: the digits, the sign
    apart, are within the limit. *)
Definition int_fits (z : Z) : bool :=
  (length (digits (Z.to_N (Z.abs z))) <=? int_max_str_digits)%nat.

(** Whether every integer in [o], value or key, is within that limit. *)
Fixpoint ints_fit (o : pyval) : bool :=
  match o with
  | PInt z => int_fits z
  | PList l | PTuple l => forallb ints_fit l
  | PDict items =>
      forallb (λ kv, match kv.1 with KInt z => int_fits z | _ => true end
                     && ints_fit kv.2) items
  | _ => true
  end.

(** The Python frames the encoder enters below [_iterencode] for [o]: one
    for each container on the way down ([_iterencode_list] and
    [_iterencode_dict] are generators that call each other), and one for
    a float ([floatstr] is a Python function; integers and strings are
    written by built-ins). *)
Fixpoint frames (o : pyval) : nat :=
  match o with
  | PFloat _ => 1
  | PList l | PTuple l => S (foldr (λ x n, Nat.max (frames x) n) O l)
  | PDict items => S (foldr (λ kv n, Nat.max (frames kv.2) n) O items)
  | _ => O
  end.

(** [json.dumps(o, sort_keys=True, indent=2)].  It raises [TypeError]
    when some dict has keys that do not compare, [ValueError] when some
    integer has too many digits, [RecursionError] when the nesting is too
    deep.  For a document with several of these defects the interpreter
    raises for the one its traversal meets first; here they are taken in
    the order just given. *)
Definition dumps `{Limits} (o : pyval) : list N + exn :=
  if negb (serializable o) then inr TypeError
  else if negb (ints_fit o) then inr ValueError
  else if negb (frames o <=? encoder_depth)%nat then inr RecursionError
  else inl (iterencode 0 o).

(** *** Decoding *)

Definition is_ws (c : N) : bool :=
  ((c =? chr " ") || (c =? 9) || (c =? 10) || (c =? 13))%N.

(** [WHITESPACE.match(s, idx).end()]. *)
Fixpoint skip_ws (s : list N) : list N :=
  match s with
  | c :: s' => if is_ws c then skip_ws s' else s
  | [] => []
  end.

Definition is_digit (c : N) : bool := ((chr "0" <=? c) && (c <=? chr "9"))%N.

Definition hex_value (c : N) : option N :=
  (if is_digit c then Some (c - chr "0")
   else if (chr "a" <=? c) && (c <=? chr "f") then Some (c - chr "a" + 10)
   else if (chr "A" <=? c) && (c <=? chr "F") then Some (c - chr "A" + 10)
   else None)%N.

Definition hex4_value (a b c d : N) : option N :=
  match hex_value a, hex_value b, hex_value c, hex_value d with
  | Some x, Some y, Some z, Some w => Some (((x * 16 + y) * 16 + z) * 16 + w)%N
  | _, _, _, _ => None
  end.

Definition is_high_surrogate (u : N) : bool := ((0xD800 <=? u) && (u <=? 0xDBFF))%N.
Definition is_low_surrogate (u : N) : bool := ((0xDC00 <=? u) && (u <=? 0xDFFF))%N.

Definition join_surrogates (high low : N) : N :=
  (N.lor (N.shiftl (N.land high 0x3FF) 10) (N.land low 0x3FF) + 0x10000)%N.

(** The one-character escapes. *)
Definition unescape (e : N) : option N :=
  (if e =? 34 then Some 34
   else if e =? chr "\" then Some (chr "\")
   else if e =? chr "/" then Some (chr "/")
   else if e =? chr "b" then Some 8
   else if e =? chr "f" then Some 12
   else if e =? chr "n" then Some 10
   else if e =? chr "r" then Some 13
   else if e =? chr "t" then Some 9
   else None)%N.

Definition cons_char (c : N) (r : option (pystr * list N)) : option (pystr * list N) :=
  match r with
  | Some (s, rest) => Some (c :: s, rest)
  | None => None
  end.

(** [scanstring(s, end, strict=True)], from after the opening quote: the
    string and what follows its closing quote.  [None] stands for the
    [JSONDecodeError] of an unterminated string, a control character or a
    bad escape. *)
Fixpoint scanstring (s : list N) : option (pystr * list N) :=
  match s with
  | [] => None
  | c :: s1 =>
      if (c =? 34)%N then Some ([], s1)
      else if (c =? chr "\")%N then
        match s1 with
        | [] => None
        | e :: s2 =>
            if (e =? chr "u")%N then
              match s2 with
              | a :: b :: c' :: d :: s3 =>
                  match hex4_value a b c' d with
                  | None => None
                  | Some u =>
                      if is_high_surrogate u then
                        match s3 with
                        | x :: y :: a2 :: b2 :: c2 :: d2 :: s4 =>
                            if ((x =? chr "\") && (y =? chr "u"))%N then
                              match hex4_value a2 b2 c2 d2 with
                              | None => None
                              | Some u2 =>
                                  if is_low_surrogate u2
                                  then cons_char (join_surrogates u u2) (scanstring s4)
                                  else cons_char u (scanstring s3)
                              end
                            else cons_char u (scanstring s3)
                        | _ => cons_char u (scanstring s3)
                        end
                      else cons_char u (scanstring s3)
                  end
              | _ => None
              end
            else
              match unescape e with
              | Some c' => cons_char c' (scanstring s2)
              | None => None
              end
        end
      else if (c <=? 0x1f)%N then None
      else cons_char c (scanstring s1)
  end.

Fixpoint span_digits (s : list N) : list N * list N :=
  match s with
  | c :: s' =>
      if is_digit c then let (ds, r) := span_digits s' in (c :: ds, r)
      else ([], s)
  | [] => ([], [])
  end.

(** The number read from the digits [ds] after the number [a]. *)
Definition read_digits (a : N) (ds : list N) : N :=
  fold_left (λ a d, 10 * a + (d - 48))%N ds a.

(** [int(digits)]. *)
Definition digits_value (ds : list N) : N := read_digits 0 ds.

(** If [s] begins with [p], what follows. *)
Fixpoint strip_prefix (p s : list N) : option (list N) :=
  match p, s with
  | [], _ => Some s
  | a :: p', b :: s' => if (a =? b)%N then strip_prefix p' s' else None
  | _ :: _, [] => None
  end.

(** The parts of a number literal, each with what follows it: the sign,
    the integer part ([0] or a run of digits that does not start with
    [0]), the fraction (a dot and at least one digit), the exponent ([e]
    or [E], an optional sign, at least one digit). *)
Definition scan_sign (s : list N) : list N * list N :=
  match s with
  | c :: s' => if (c =? chr "-")%N then ([c], s') else ([], s)
  | [] => ([], s)
  end.

Definition scan_int (s : list N) : option (list N * list N) :=
  match s with
  | [] => None
  | c :: s' =>
      if (c =? chr "0")%N then Some ([c], s')
      else if is_digit c then let (ds, r) := span_digits s' in Some (c :: ds, r)
      else None
  end.

Definition scan_frac (s : list N) : list N * list N :=
  match s with
  | d :: x :: r =>
      if ((d =? chr ".")%N && is_digit x)%bool
      then let (ds, r') := span_digits r in (d :: x :: ds, r')
      else ([], s)
  | _ => ([], s)
  end.

Definition scan_exp (s : list N) : list N * list N :=
  match s with
  | e :: r =>
      if ((e =? chr "e") || (e =? chr "E"))%N then
        let '(sg, r') :=
          match r with
          | x :: r'' =>
              if ((x =? chr "+") || (x =? chr "-"))%N then ([x], r'') else ([], r)
          | [] => ([], r)
          end in
        let (ds, r'') := span_digits r' in
        match ds with
        | [] => ([], s)
        | _ => (e :: sg ++ ds, r'')
        end
      else ([], s)
  | [] => ([], s)
  end.

Section decoder.
  (** [float(literal)], as the [repr] of the float it yields: the rounding
      of a decimal literal to a float is outside this embedding. *)
Variable float_of_literal : pystr → pystr.

  (** [_match_number]: an optional minus, an integer part without leading
      zeros, an optional fraction, an optional exponent.  A literal with
      neither fraction nor exponent is an integer, and [int(literal)]
      raises [ValueError] beyond the limit of digits; where no number
      starts the scanner raises [JSONDecodeError]. *)
Definition match_number (s : list N) : pyval * list N + exn :=
    let '(sign, s1) := scan_sign s in
    match scan_int s1 with
    | None => inr JSONDecodeError
    | Some (ip, r1) =>
        let '(frac, r2) := scan_frac r1 in
        let '(ex, r3) := scan_exp r2 in
        match frac, ex with
        | [], [] =>
            if (length ip <=? int_max_str_digits)%nat then
              let n := Z.of_N (digits_value ip) in
              inl (PInt (match sign with [] => n | _ => - n end), r3)
            else inr ValueError
        | _, _ => inl (PFloat (float_of_literal (sign ++ ip ++ frac ++ ex)), r3)
        end
    end.

  (** The named constants [scan_once] looks for before it tries a number. *)
Definition match_constant (s : list N) : option (pyval * list N) :=
    match strip_prefix (str "null") s with
    | Some r => Some (PNone, r)
    | None =>
    match strip_prefix (str "true") s with
    | Some r => Some (PBool true, r)
    | None =>
    match strip_prefix (str "false") s with
    | Some r => Some (PBool false, r)
    | None =>
    match strip_prefix (str "NaN") s with
    | Some r => Some (PFloat (str "nan"), r)
    | None =>
    match strip_prefix (str "Infinity") s with
    | Some r => Some (PFloat (str "inf"), r)
    | None =>
    match strip_prefix (str "-Infinity") s with
    | Some r => Some (PFloat (str "-inf"), r)
    | None => None
    end end end end end end.

  (** The loop of [JSONArray], from the first value on; [n] bounds the
      number of values. *)
Fixpoint parse_array_items (scan : list N → pyval * list N + exn)
      (n : nat) (s : list N) : list pyval * list N + exn :=
    match n with
    | O => inr JSONDecodeError
    | S n' =>
        match scan s with
        | inr e => inr e
        | inl (v, r) =>
            match skip_ws r with
            | [] => inr JSONDecodeError
            | c :: r1 =>
                if (c =? chr "]")%N then inl ([v], r1)
                else if (c =? chr ",")%N then
                  match parse_array_items scan n' (skip_ws r1) with
                  | inl (vs, r2) => inl (v :: vs, r2)
                  | inr e => inr e
                  end
                else inr JSONDecodeError
            end
        end
    end.

  (** [JSONArray], from after the opening bracket. *)
Definition parse_array (scan : list N → pyval * list N + exn)
      (s : list N) : pyval * list N + exn :=
    let s1 := skip_ws s in
    match s1 with
    | [] => inr JSONDecodeError
    | c :: r =>
        if (c =? chr "]")%N then inl (PList [], r)
        else match parse_array_items scan (length s1) s1 with
             | inl (vs, r') => inl (PList vs, r')
             | inr e => inr e
             end
    end.

  (** The loop of [JSONObject], from the quote of a key on. *)
Fixpoint parse_object_items (scan : list N → pyval * list N + exn)
      (n : nat) (s : list N) : list (pystr * pyval) * list N + exn :=
    match n with
    | O => inr JSONDecodeError
    | S n' =>
        match s with
        | [] => inr JSONDecodeError
        | c :: s1 =>
            if negb (c =? 34)%N then inr JSONDecodeError
            else
              match scanstring s1 with
              | None => inr JSONDecodeError
              | Some (key, r) =>
                  match skip_ws r with
                  | [] => inr JSONDecodeError
                  | c2 :: r1 =>
                      if negb (c2 =? chr ":")%N then inr JSONDecodeError
                      else
                        match scan (skip_ws r1) with
                        | inr e => inr e
                        | inl (v, r2) =>
                            match skip_ws r2 with
                            | [] => inr JSONDecodeError
                            | c3 :: r3 =>
                                if (c3 =? chr "}")%N then inl ([(key, v)], r3)
                                else if (c3 =? chr ",")%N then
                                  match parse_object_items scan n' (skip_ws r3) with
                                  | inl (kvs, r4) => inl ((key, v) :: kvs, r4)
                                  | inr e => inr e
                                  end
                                else inr JSONDecodeError
                            end
                        end
                  end
              end
        end
    end.

  (** [d[key] = value] on a dict: a new key goes last, an old key keeps
      its place. *)
Fixpoint dict_set (d : list (pykey * pyval)) (k : pykey) (v : pyval) : list (pykey * pyval) :=
    match d with
    | [] => [(k, v)]
    | (k', v') :: d' =>
        if bool_decide (k' = k) then (k', v) :: d' else (k', v') :: dict_set d' k v
    end.

  (** [dict(pairs)]. *)
Definition dict_of_pairs (pairs : list (pystr * pyval)) : list (pykey * pyval) :=
    fold_left (λ d kv, dict_set d (KStr kv.1) kv.2) pairs [].

  (** [JSONObject], from after the opening brace. *)
Definition parse_object (scan : list N → pyval * list N + exn)
      (s : list N) : pyval * list N + exn :=
    let s1 := skip_ws s in
    match s1 with
    | [] => inr JSONDecodeError
    | c :: r =>
        if (c =? chr "}")%N then inl (PDict [], r)
        else match parse_object_items scan (length s1) s1 with
             | inl (kvs, r') => inl (PDict (dict_of_pairs kvs), r')
             | inr e => inr e
             end
    end.

  (** [scan_once(string, idx)]: the value that starts at the head of [s]
      and what follows it, or the exception raised.  [budget] is the
      number of containers that may still be entered: the scanner enters
      a recursive call for every object and every array, the empty ones
      too, and raises [RecursionError] when there is no room for it. *)
Fixpoint scan_once (budget : nat) (s : list N) : pyval * list N + exn :=
    match s with
    | [] => inr JSONDecodeError
    | c :: s' =>
        if (c =? 34)%N then
          match scanstring s' with
          | Some (t, r) => inl (PStr t, r)
          | None => inr JSONDecodeError
          end
        else if (c =? chr "{")%N then
          match budget with
          | O => inr RecursionError
          | S budget' => parse_object (scan_once budget') s'
          end
        else if (c =? chr "[")%N then
          match budget with
          | O => inr RecursionError
          | S budget' => parse_array (scan_once budget') s'
          end
        else
          match match_constant s with
          | Some r => inl r
          | None => match_number s
          end
    end.

  (** [json.loads(s)] on a [str]: the value, or the exception raised,
      [JSONDecodeError] and [ValueError] (both a [ValueError]) or
      [RecursionError]. *)
Definition loads `{Limits} (s : pystr) : pyval + exn :=
    match s with
    | 0xFEFF%N :: _ => inr JSONDecodeError
    | _ =>
        match scan_once decoder_depth (skip_ws s) with
        | inl (v, r) =>
            match skip_ws r with
            | [] => inl v
            | _ :: _ => inr JSONDecodeError
            end
        | inr e => inr e
        end
    end.
End decoder.


(** *** Equality of Python values *)

(** Keys are looked up with Python's equality, for which [True] is [1]. *)
Definition key_eqb (a b : pykey) : bool :=
  match a, b with
  | KStr s, KStr t => bool_decide (s = t)
  | KNone, KNone => true
  | (KInt _ | KBool _), (KInt _ | KBool _) => key_num a =? key_num b
  | _, _ => false
  end.

(** [d.get(k)]. *)
Fixpoint dict_get (d : list (pykey * pyval)) (k : pykey) : option pyval :=
  match d with
  | [] => None
  | (k', v) :: d' => if key_eqb k' k then Some v else dict_get d' k
  end.

(** [a == b]: lists and tuples item by item, dicts as mappings whatever
    the order of their items, booleans as the integers they are.  Floats
    are compared through their [repr]. *)
Fixpoint deep_equal (a b : pyval) {struct a} : bool :=
  match a, b with
  | PNone, PNone => true
  | PBool x, PBool y => bool_decide (x = y)
  | PBool x, PInt z | PInt z, PBool x => z =? (if x then 1 else 0)
  | PInt x, PInt y => x =? y
  | PFloat r, PFloat r' => bool_decide (r = r') && negb (bool_decide (r = str "nan"))
  | PStr s, PStr t => bool_decide (s = t)
  | PList l, PList l' | PTuple l, PTuple l' =>
      (fix go (l l' : list pyval) : bool :=
         match l, l' with
         | [], [] => true
         | x :: l, y :: l' => deep_equal x y && go l l'
         | _, _ => false
         end) l l'
  | PDict d, PDict d' =>
      (length d =? length d')%nat
      && forallb (λ kv, match dict_get d' kv.1 with
                        | Some v' => deep_equal kv.2 v'
                        | None => false
                        end) d
  | _, _ => false
  end.

(** The strings that survive the way through [\uXXXX] escapes: no code
    point beyond the Unicode range, and no high surrogate directly before
    a low one (the decoder reads such a pair of escapes as one character). *)
Fixpoint str_safe (s : pystr) : bool :=
  match s with
  | [] => true
  | c :: s' =>
      (c <? 0x110000)%N
      && negb (is_high_surrogate c
               && match s' with c' :: _ => is_low_surrogate c' | [] => false end)
      && str_safe s'
  end.

(** Whether [r] is the [repr] of a finite float: the scanner reads it,
    all of it, as a float, and that float has this [repr] again
    ([float(repr(x)) == x]). *)
Definition float_repr (float_of_literal : pystr → pystr) (r : pystr) : bool :=
  match match_number float_of_literal r with
  | inl (PFloat r', []) => bool_decide (r' = r)
  | _ => false
  end.

(** The documents of the amended round trip: [None], booleans, integers,
    floats but [nan], safe strings, lists of such, and dicts of such whose
    keys are distinct safe strings. *)
Fixpoint json_safe (float_of_literal : pystr → pystr) (o : pyval) : bool :=
  match o with
  | PNone | PBool _ | PInt _ => true
  | PFloat r =>
      float_repr float_of_literal r
      || bool_decide (r = str "inf") || bool_decide (r = str "-inf")
  | PTuple _ => false
  | PStr s => str_safe s
  | PList l => forallb (json_safe float_of_literal) l
  | PDict items =>
      bool_decide (NoDup (map fst items))
      && forallb (λ kv, match kv.1 with
                        | KStr k => str_safe k
                        | _ => false
                        end && json_safe float_of_literal kv.2) items
  end.

(** How deep the containers of [o] nest, the empty ones counted. *)
Fixpoint nesting (o : pyval) : nat :=
  match o with
  | PList l | PTuple l => S (foldr (λ x n, Nat.max (nesting x) n) O l)
  | PDict items => S (foldr (λ kv n, Nat.max (nesting kv.2) n) O items)
  | _ => O
  end.

(** ** The monad, continued: several [except] clauses *)

(** The first clause whose classes match handles the exception. *)
Fixpoint dispatch {A} (clauses : list ((exn → bool) * (exn → M A))) (e : exn) : M A :=
  match clauses with
  | [] => raise e
  | (catches, handler) :: rest =>
      if catches e then handler e else dispatch rest e
  end.

(** [try: c  except C1: h1  except C2: h2 ...]. *)
Definition try_excepts {A} (c : M A) (clauses : list ((exn → bool) * (exn → M A))) : M A :=
  λ w, match c w with
       | Raise e w' => dispatch clauses e w'
       | o => o
       end.

Definition read_text_M (p : Path) : M pystr :=
  λ w, match read_text p (disk w) with
       | inl t => Return t w
       | inr e => Raise e w
       end.

Definition exists_M (p : Path) : M bool :=
  w ← get; mret (exists_ p (disk w)).

(** [for x in xs: body x]. *)
Fixpoint for_each {X} (xs : list X) (body : X → M unit) : M unit :=
  match xs with
  | [] => mret tt
  | x :: xs' => body x;; for_each xs' body
  end.

(** ** app_data/via_disk_folder.py *)

(** [JSONStoreDisk]; [msg] and [msg_args] only feed the log. *)
Record JSONStoreDisk := mkJSONStoreDisk {
  in_folder : ReentrantFileLock;
  key : string;
}.

(** [JSONStoreDisk.file]. *)
Definition file (self : JSONStoreDisk) : Path :=
  truediv (path (in_folder self)) (key self +:+ ".json").

(** [JSONStoreDisk.exists]. *)
Definition JSONStoreDisk_exists (self : JSONStoreDisk) : M bool :=
  exists_M (file self).

(** [JSONStoreDisk.remove]. *)
Definition JSONStoreDisk_remove (self : JSONStoreDisk) : M unit :=
  on_disk (unlink (file self)).

(** [JSONStoreDisk.locked]. *)
Definition JSONStoreDisk_locked {A} (self : JSONStoreDisk) (body : M A) : M A :=
  ReentrantFileLock_lock_for_key (in_folder self) (key self) false body.

(** [JSONStoreDisk.write]. *)
Definition JSONStoreDisk_write `{Limits} (self : JSONStoreDisk) (content : pyval) : M unit :=
  let folder := dirname (file self) in
  on_disk (mkdir_parents_exist_ok folder);;
  text ← match dumps content with
         | inl t => mret t
         | inr e => raise e
         end;
  on_disk (write_text (file self) text).

Section store.
Context `{Limits}.
Variable float_of_literal : pystr → pystr.

Definition json_loads (t : pystr) : M pyval :=
    match loads float_of_literal t with
    | inl data => mret data
    | inr e => raise e
    end.

  (** [JSONStoreDisk.read], with the steps [others] that other processes
      take between the failed parse and the removal of the file.  The
      early [return data] is the [inl] result of the [try] block; the two
      [except] clauses leave [bad_format] as its [inr] result. *)
Definition JSONStoreDisk_read_amid (others : M unit) (self : JSONStoreDisk) : M pyval :=
    r ← try_excepts
          (t ← read_text_M (file self);
           data ← json_loads t;
           mret (inl data))
          [(is_ValueError, λ _, mret (inr true));
           (is_Exception, λ _, mret (inr false))];
    match r with
    | inl data => mret data
    | inr bad_format =>
        (if bad_format : bool
         then others;;
              try_except (JSONStoreDisk_remove self) is_OSError (λ _, mret tt)
         else mret tt);;
        mret PNone
    end.

  (** [JSONStoreDisk.read], no other process interfering. *)
Definition JSONStoreDisk_read (self : JSONStoreDisk) : M pyval :=
    JSONStoreDisk_read_amid (mret tt) self.
End store.

(** Another process that removes the file of a store at the same time. *)
Definition concurrent_remover (self : JSONStoreDisk) : M unit :=
  modify (set_disk (delete (file self))).

(** [AppDataDiskFolder]. *)
Record AppDataDiskFolder := mkAppDataDiskFolder {
  lock : ReentrantFileLock;
}.

(** [AppDataDiskFolder.__init__]. *)
Definition new_AppDataDiskFolder (folder : Path) : AppDataDiskFolder :=
  mkAppDataDiskFolder (new_ReentrantFileLock folder).

(** Modelled from the spec: [safe_delete] of [util/path.py], which is not
    among the sources; it deletes a folder with all that is below it, and
    is no error on a folder that does not exist. *)
Definition safe_delete (p : Path) : M unit :=
  modify (set_disk (rmtree p)).

(** [AppDataDiskFolder.reset] and [AppDataDiskFolder.close]. *)
Definition AppDataDiskFolder_reset (self : AppDataDiskFolder) : M unit :=
  safe_delete (path (lock self)).
Definition AppDataDiskFolder_close (self : AppDataDiskFolder) : M unit :=
  mret tt.

(** [AppDataDiskFolder.locked]: the block gets the path of the lock. *)
Definition AppDataDiskFolder_locked {A} (self : AppDataDiskFolder) (p : string)
    (body : Path → M A) : M A :=
  let path_lock := lock_div (lock self) p in
  with_lock path_lock (body (path path_lock)).

(** [AppDataDiskFolder.py_info_at]. *)
Definition py_info_at (self : AppDataDiskFolder) : ReentrantFileLock :=
  lock_div (lock_div (lock self) "py_info") "1".

(** [Path.iterdir()] on the disk of the moment. *)
Definition iterdir_M (folder : Path) : M (list Path) :=
  w ← get;
  if isdir folder (disk w) then mret (iterdir folder (disk w))
  else raise (if exists_ folder (disk w) then NotADirectoryError else FileNotFoundError).

(** [AppDataDiskFolder.py_info_clear], with the call [filename.unlink()]
    as a parameter, so that what holds when it is made can be said. *)
Definition py_info_clear_with (unlink_step : Path → M unit)
    (self : AppDataDiskFolder) : M unit :=
  let py_info_folder := py_info_at self in
  with_lock py_info_folder
    (filenames ← iterdir_M (path py_info_folder);
     for_each filenames (λ filename,
       if bool_decide (suffix filename = ".json"%string) then
         lock_for_key py_info_folder (stem filename) false
           (e ← exists_M filename;
            if e : bool then unlink_step filename else mret tt)
       else mret tt)).

(** [AppDataDiskFolder.py_info_clear]. *)
Definition py_info_clear (self : AppDataDiskFolder) : M unit :=
  py_info_clear_with (λ filename, on_disk (unlink filename)) self.

(** [EmbedDistributionUpdateStoreDisk.__init__]. *)
Definition new_EmbedDistributionUpdateStoreDisk (in_folder : ReentrantFileLock)
    (distribution : string) : JSONStoreDisk :=
  mkJSONStoreDisk in_folder distribution.

(** [AppDataDiskFolder.embed_update_log]. *)
Definition AppDataDiskFolder_embed_update_log (self : AppDataDiskFolder)
    (distribution for_py_version : string) : M JSONStoreDisk :=
  mret (new_EmbedDistributionUpdateStoreDisk
          (lock_div (lock_div (lock_div (lock_div (lock self) "wheel") for_py_version)
                       "embed") "3")
          distribution).

(** [AppDataDiskFolder.house] and [AppDataDiskFolder.wheel_image]. *)
Definition house (self : AppDataDiskFolder) : M Path :=
  let p := truediv (truediv (path (lock self)) "wheel") "house" in
  on_disk (mkdir_parents_exist_ok p);;
  mret p.
Definition wheel_image (self : AppDataDiskFolder) (for_py_version name : string) : Path :=
  truediv (truediv (truediv (truediv (truediv (path (lock self)) "wheel")
                                for_py_version) "image") "1") name.

Section app_data.
  (** [__version__] of the package, and [sha256(...).hexdigest()]. *)
Variable version : string.
Variable sha256_hexdigest : Path → string.

  (** [extract] of [util/zipapp.py], which is not among the sources: what
      unpacking the archive member [src] to [dest] does to the disk. *)
Variable zipapp_extract : Path → Path → Disk → Disk.

  (** The call of the extraction routine, which the world keeps a record
      of. *)
Definition call_zipapp_extract (src dest : Path) : M unit :=
    modify (set_extracted (λ calls, calls ++ [(src, dest)]));;
    modify (set_disk (zipapp_extract src dest)).

  (** [PyInfoStoreDisk.__init__] and [AppDataDiskFolder.py_info]. *)
Definition new_PyInfoStoreDisk (in_folder : ReentrantFileLock) (p : Path) : JSONStoreDisk :=
    mkJSONStoreDisk in_folder (sha256_hexdigest p).
Definition py_info (self : AppDataDiskFolder) (p : Path) : JSONStoreDisk :=
    new_PyInfoStoreDisk (py_info_at self) p.

  (** The folder [AppDataDiskFolder.extract] works under: the one the
      provider [to_folder] returns, or [unzip/<version>]. *)
Definition extract_root (self : AppDataDiskFolder) (to_folder : option Path) : ReentrantFileLock :=
    match to_folder with
    | Some folder => new_ReentrantFileLock folder
    | None => lock_div (lock_div (lock self) "unzip") version
    end.

  (** [with self.extract(path, to_folder) as dest: body dest]. *)
Definition AppDataDiskFolder_extract {A} (self : AppDataDiskFolder)
      (p : Path) (to_folder : option Path) (body : Path → M A) : M A :=
    let root := extract_root self to_folder in
    lock_for_key root (name p) false
      (let dest := truediv (path root) (name p) in
       e ← exists_M dest;
       (if negb e then call_zipapp_extract p dest else mret tt);;
       body dest).
End app_data.

(** ** app_data/via_tempdir.py *)

(** [TempAppData]: an [AppDataDiskFolder] with three methods and two class
    attributes of its own. *)
Record TempAppData := mkTempAppData {
  base : AppDataDiskFolder;
}.

(** [mkdtemp()]: a new directory, under the name [fresh] that the
    operating system picks. *)
Definition mkdtemp (fresh : Path) : M Path :=
  modify (set_disk <[fresh := Dir]>);;
  mret fresh.

(** [TempAppData.__init__]. *)
Definition new_TempAppData (fresh : Path) : M TempAppData :=
  folder ← mkdtemp fresh;
  mret (mkTempAppData (new_AppDataDiskFolder folder)).

(** [TempAppData.reset], [TempAppData.close] and
    [TempAppData.embed_update_log]. *)
Definition TempAppData_reset (self : TempAppData) : M unit :=
  mret tt.
Definition TempAppData_close (self : TempAppData) : M unit :=
  safe_delete (path (lock (base self))).
Definition TempAppData_embed_update_log (self : TempAppData)
    (distribution for_py_version : string) : M JSONStoreDisk :=
  raise NotImplementedError.

(** The abstract base class [AppData], as far as the two classes differ. *)
Class AppData (T : Type) := {
  transient : T → bool;
  can_update : T → bool;
  folder_lock : T → ReentrantFileLock;
  reset : T → M unit;
  close : T → M unit;
  embed_update_log : T → string → string → M JSONStoreDisk;
}.

#[export] Instance AppDataDiskFolder_AppData : AppData AppDataDiskFolder := {
  transient _ := false;
  can_update _ := true;
  folder_lock := lock;
  reset := AppDataDiskFolder_reset;
  close := AppDataDiskFolder_close;
  embed_update_log := AppDataDiskFolder_embed_update_log;
}.

#[export] Instance TempAppData_AppData : AppData TempAppData := {
  transient _ := true;
  can_update _ := false;
  folder_lock self := lock (base self);
  reset := TempAppData_reset;
  close := TempAppData_close;
  embed_update_log := TempAppData_embed_update_log;
}.


(** ** Notions the proofs about the JSON text speak of *)

(** What may follow a value in the text [iterencode] writes: the end, a
    comma, or a newline. *)
Definition ends_value (rest : list N) : Prop :=
  match rest with
  | [] => True
  | c :: _ => c = chr "," ∨ c = 10%N
  end.

(** The value [json.loads] gives back for the text of [o]: the items of
    every dict sorted by key. *)
Fixpoint canon (o : pyval) : pyval :=
  match o with
  | PList l => PList (map canon l)
  | PDict items => PDict (sort_items (map (λ kv, (kv.1, canon kv.2)) items))
  | _ => o
  end.

(** The text [t] does not begin with the escape of a low surrogate. *)
Definition no_low_escape (t : list N) : Prop :=
  ∀ a b c d t',
    t = chr "\" :: chr "u" :: a :: b :: c :: d :: t' →
    ∃ u, hex4_value a b c d = Some u ∧ is_low_surrogate u = false.

(** The first character of a written value is no white space, no closing
    bracket and no byte order mark. *)
Definition starts_value (t : list N) : Prop :=
  ∃ c t', t = c :: t' ∧ is_ws c = false
          ∧ c ≠ chr "]" ∧ c ≠ chr "}" ∧ c ≠ 0xFEFF%N.

(** What the encoder [enc] writes for [v] is read back by [scan] as
    [res v]. *)
Definition reads_back (scan : list N → pyval * list N + exn)
    (enc : pyval → list N) (res : pyval → pyval) (v : pyval) : Prop :=
  starts_value (enc v)
  ∧ ∀ rest, ends_value rest → scan (enc v ++ rest) = inl (res v, rest).

(** The text of one item of a dict whose key is the string [kv.1]. *)
Definition item_text (enc : pyval → list N) (kv : pystr * pyval) : list N :=
  encode_basestring_ascii kv.1 ++ [chr ":"; chr " "] ++ enc kv.2.


(** ** Notions the statements about the written text speak of *)

(** The order of two dict items in the written text. *)
Definition item_lt {X} (x y : pykey * X) : Prop := key_ltb x.1 y.1 = true.

(** A text of ASCII characters only, which UTF-8 and every encoding that
    extends ASCII write as the same bytes. *)
Definition is_ascii (t : list N) : Prop := Forall (λ c, (c < 128)%N) t.

(** Whether the [repr] every float of [o] is carried with is ASCII, as
    [float.__repr__] is. *)
Fixpoint reprs_ascii (o : pyval) : bool :=
  match o with
  | PFloat r => forallb (λ c, (c <? 128)%N) r
  | PList l | PTuple l => forallb reprs_ascii l
  | PDict items => forallb (λ kv, reprs_ascii kv.2) items
  | _ => true
  end.

(** Whether every key of the dict is a string. *)
Definition str_keys {X} (items : list (pykey * X)) : Prop :=
  Forall (λ kv, key_is_str kv.1 = true) items.

(** The keys of the dict are all strings, or all numbers. *)
Definition one_kind {X} (items : list (pykey * X)) : Prop :=
  Forall (λ kv, key_is_str kv.1 = true) items
  ∨ Forall (λ kv, key_is_num kv.1 = true) items.

(** The key as [==] and [hash] see it: [True] is [1] and [False] is [0],
    so that a dict holds at most one of the two. *)
Definition key_id (k : pykey) : pykey :=
  match k with
  | KBool b => KInt (if b then 1 else 0)
  | _ => k
  end.

(** The keys of a dict are pairwise different. *)
Definition distinct_keys {X} (items : list (pykey * X)) : Prop :=
  NoDup (map (λ kv, key_id kv.1) items).

(** ** The stores and documents of the examples *)

(** An interpreter that has room for 1000 nested calls, in the encoder
    and in the parser. *)
Definition limits_1000 : Limits :=
  {| encoder_depth := 1000; decoder_depth := 1000 |}.

(** A store [k.json] in the folder [cache]. *)
Definition store_k : JSONStoreDisk :=
  mkJSONStoreDisk (new_ReentrantFileLock ["cache"%string]) "k".

(** [{"b": 1, "a": 2}], in the order the items were inserted. *)
Definition doc_b_a : pyval :=
  PDict [(KStr (str "b"), PInt 1); (KStr (str "a"), PInt 2)].

(** [{"a": 2, "b": 1}], the same mapping built the other way round. *)
Definition doc_a_b : pyval :=
  PDict [(KStr (str "a"), PInt 2); (KStr (str "b"), PInt 1)].

(** The key [k] between its quotes. *)
Definition quoted (k : string) : list N := 34%N :: str k ++ [34%N].

(** The text written for both: three lines, the items indented by two
    spaces. *)
Definition text_a_b : list N :=
  str "{" ++ [10%N]
  ++ str "  " ++ quoted "a" ++ str ": 2," ++ [10%N]
  ++ str "  " ++ quoted "b" ++ str ": 1" ++ [10%N]
  ++ str "}".

(** [{1: 2}], and what comes back for it, [{"1": 2}]. *)
Definition doc_int_key : pyval := PDict [(KInt 1, PInt 2)].
Definition doc_str_key : pyval := PDict [(KStr (str "1"), PInt 2)].

(** The disk on which [k.json] holds [text]. *)
Definition disk_with (content : filedata) : Disk :=
  {[ ["cache"%string] := Dir;
     ["cache"%string; "k.json"%string] := File true content ]}.

(** The lines of a text, each but the last ended by a newline. *)
Definition lines (ls : list (list N)) : list N := join [10%N] ls.

(** [{"b": [1, [], {"c": None}], "a": [True, 1.5, "x"]}] and the text
    written for it. *)
Definition doc_nested : pyval :=
  PDict [(KStr (str "b"),
          PList [PInt 1; PList []; PDict [(KStr (str "c"), PNone)]]);
         (KStr (str "a"),
          PList [PBool true; PFloat (str "1.5"); PStr (str "x")])].

Definition text_nested : list N :=
  lines [str "{";
         str "  " ++ quoted "a" ++ str ": [";
         str "    true,";
         str "    1.5,";
         str "    " ++ quoted "x";
         str "  ],";
         str "  " ++ quoted "b" ++ str ": [";
         str "    1,";
         str "    [],";
         str "    {";
         str "      " ++ quoted "c" ++ str ": null";
         str "    }";
         str "  ]";
         str "}"].

(** [{10: "x", 9: "y", True: "z"}] and the text written for it: the keys
    in the order of their values, [True] being [1]. *)
Definition doc_num_keys : pyval :=
  PDict [(KInt 10, PStr (str "x")); (KInt 9, PStr (str "y"));
         (KBool true, PStr (str "z"))].

Definition text_num_keys : list N :=
  lines [str "{";
         str "  " ++ quoted "true" ++ str ": " ++ quoted "z" ++ str ",";
         str "  " ++ quoted "9" ++ str ": " ++ quoted "y" ++ str ",";
         str "  " ++ quoted "10" ++ str ": " ++ quoted "x";
         str "}"].

(** A text that opens 1500 arrays, and an integer literal of 4301 digits. *)
Definition text_deep : list N := replicate 1500 (chr "[").
Definition text_long_int : list N := replicate 4301 (chr "1").

(** Three documents that [json.dumps] accepts and that do not come back
    equal: [{"t": (1,)}], whose tuple comes back as a list;
    [{"x": float("nan")}], as [nan] equals nothing; and a string of a
    high and a low surrogate, which come back joined to one character. *)
Definition doc_tuple : pyval := PDict [(KStr (str "t"), PTuple [PInt 1])].
Definition doc_nan : pyval := PDict [(KStr (str "x"), PFloat (str "nan"))].
Definition doc_surrogates : pyval :=
  PDict [(KStr (str "s"), PStr [0xD83D; 0xDE00]%N)].


(** ** Notions the statements about locked sections speak of *)

(** What holds of the outcome of the computation [c] started in [w]: [Q]
    of the value and the world when it returns, [E] of the exception and
    the world when it raises, [B] when it waits for ever. *)
Definition wp {A} (c : M A) (Q : A → World → Prop) (E : exn → World → Prop)
    (B : Prop) (w : World) : Prop :=
  match c w with
  | Return a w' => Q a w'
  | Raise e w' => E e w'
  | Blocks => B
  end.

(** The lock of [key] is free: no object is registered for it and nobody
    holds the lock of the operating system on it. *)
Definition free (key : Path) (w : World) : Prop :=
  _lock_store w !! key = None ∧ os_locks w !! key = None.

(** The lock object [h] is the one registered for [key]; it has been
    acquired once and holds the lock of the operating system. *)
Definition held (h : nat) (key : Path) (w : World) : Prop :=
  objects w !! h = Some (mkCountedFileLock key 1)
  ∧ _lock_store w !! key = Some h
  ∧ os_locks w !! key = Some (Handle h).

(** The disk after the lock file [name].lock of the folder has been
    locked for the first time: the folder is made if it can be, by the
    constructor of the lock object and again by [_lock_file], and the lock
    file is there. *)
Definition lock_disk (self : ReentrantFileLock) (name : string) (d : Disk) : Disk :=
  let d1 := if negb (isdir (path self) d) then (makedirs (path self) d).1 else d in
  let d2 := (makedirs (path self) d1).1 in
  match d2 !! key_of self name with
  | None => <[key_of self name := File true (Text [])]> d2
  | Some _ => d2
  end.

(** The world in which the body of [with self.lock_for_key(name)] starts,
    the lock being free before. *)
Definition enter_world (self : ReentrantFileLock) (name : string) (w : World) : World :=
  let h := length (objects w) in
  mkWorld (lock_disk self name (disk w))
          (objects w ++ [mkCountedFileLock (key_of self name) 1])
          (<[key_of self name := h]> (_lock_store w))
          (<[key_of self name := Handle h]> (os_locks w))
          (extracted w).

(** The world after the [with] block, from the one its body left. *)
Definition leave_world (h : nat) (key : Path) (w : World) : World :=
  set_lock_store (delete key)
    (set_os_locks (delete key)
       (set_objects <[h := mkCountedFileLock key 0]> w)).

(** The paths locking may create: the folder with the directories above
    it, and the lock file. *)
Definition locking_path (self : ReentrantFileLock) (name : string) (p : Path) : Prop :=
  p `prefix_of` path self ∨ p = key_of self name.

(** The entries of [folder] that [py_info_clear] removes. *)
Definition json_entry (folder : Path) (p : Path) : bool :=
  bool_decide (p ≠ [] ∧ dirname p = folder)
  && bool_decide (suffix p = ".json"%string).

(** How [py_info_clear] may change the disk: of the entries it removes,
    each is as before or gone; any other path is as before, or has been
    created by locking. *)
Definition clear_step (L : ReentrantFileLock) (d d' : Disk) : Prop :=
  ∀ p, if json_entry (path L) p
       then d' !! p = d !! p ∨ d' !! p = None
       else d' !! p = d !! p ∨ (d !! p = None ∧ ∃ s, locking_path L s p).


(** A direct entry of [folder]. *)
Definition entry_of (folder : Path) (p : Path) : Prop :=
  p ≠ [] ∧ dirname p = folder.

(** What holds between two rounds of the loop of [py_info_clear], [rest]
    being the entries still to visit: the lock of the folder is held by
    the object [h0], the locks of the keys are free, the disk has changed
    from [d0] as said above, and every entry to remove that is still
    there is still to visit. *)
Definition clear_inv (L : ReentrantFileLock) (d0 : Disk) (h0 : nat)
    (rest : list Path) (w : World) : Prop :=
  held h0 (key_of L "") w
  ∧ (∀ s, s ≠ ""%string → free (key_of L s) w)
  ∧ clear_step L d0 (disk w)
  ∧ Forall (entry_of (path L)) rest
  ∧ (∀ p, json_entry (path L) p = true → disk w !! p ≠ None → p ∈ rest).

(** What holds when the loop is left by an exception: an entry to remove
    is a directory, which [unlink] refuses. *)
Definition clear_raised (L : ReentrantFileLock) (d0 : Disk) (h0 : nat)
    (e : exn) (w : World) : Prop :=
  held h0 (key_of L "") w
  ∧ (∀ s, s ≠ ""%string → free (key_of L s) w)
  ∧ clear_step L d0 (disk w)
  ∧ e = IsADirectoryError
  ∧ ∃ p, json_entry (path L) p = true ∧ d0 !! p = Some Dir.

(** Whether this process holds the lock file [key], through the lock
    object that is registered for it. *)
Definition lock_held (key : Path) (w : World) : bool :=
  match _lock_store w !! key with
  | Some h =>
      bool_decide (os_locks w !! key = Some (Handle h))
      && match objects w !! h with
         | Some l => bool_decide (lock_file l = key) && (0 <? count l)
         | None => false
         end
  | None => false
  end.

(** [filename.unlink()] as [py_info_clear] is to call it: on an entry
    with the suffix [.json] that is there at that moment, while the lock
    of the folder and the lock of the key of the entry are held.  Called
    in any other state this step fails an assertion, which the code has
    no handler for. *)
Definition unlink_checked (L : ReentrantFileLock) (filename : Path) : M unit :=
  w ← get;
  if lock_held (key_of L "") w
     && lock_held (key_of L (stem filename)) w
     && exists_ filename (disk w)
     && bool_decide (suffix filename = ".json"%string)
  then on_disk (unlink filename)
  else raise AssertionError.

(** ** The application data of the examples *)

(** The application data folder [app], and a disk on which its folder
    [py_info/1] holds two cached interpreter descriptions, a lock file
    and a file of another kind. *)
Definition app_data_x : AppDataDiskFolder := new_AppDataDiskFolder ["app"%string].

Definition info_folder : Path := ["app"; "py_info"; "1"]%string.

Definition info_disk : Disk :=
  {[ ["app"%string] := Dir;
     ["app"; "py_info"]%string := Dir;
     info_folder := Dir;
     info_folder ++ ["a.json"%string] := File true (Text (str "{}"));
     info_folder ++ ["b.json"%string] := File true Undecodable;
     info_folder ++ ["a.lock"%string] := File true (Text []);
     info_folder ++ ["notes.txt"%string] := File true (Text (str "keep")) ]}.


(** The world in which the body of [with self.extract(...)] starts, from
    the one in which the lock has been taken: the extraction routine has
    been called when the destination was not there. *)
Definition extract_world (zipapp_extract : Path → Path → Disk → Disk)
    (src dest : Path) (w : World) : World :=
  if exists_ dest (disk w) then w
  else set_disk (zipapp_extract src dest)
         (set_extracted (λ calls, calls ++ [(src, dest)]) w).

(** [with self.extract(path, to_folder) as dest: pass], the destination
    kept. *)
Definition extract_once (version : string)
    (zipapp_extract : Path → Path → Disk → Disk)
    (self : AppDataDiskFolder) (p : Path) (to_folder : option Path) : M Path :=
  AppDataDiskFolder_extract version zipapp_extract self p to_folder (λ dest, mret dest).

(** The same block twice in a row, both destinations kept. *)
Definition extract_twice (version : string)
    (zipapp_extract : Path → Path → Disk → Disk)
    (self : AppDataDiskFolder) (p : Path) (to_folder : option Path) : M (Path * Path) :=
  dest1 ← extract_once version zipapp_extract self p to_folder;
  dest2 ← extract_once version zipapp_extract self p to_folder;
  mret (dest1, dest2).

(** An extraction routine for the examples: the archive member becomes a
    file at the destination. *)
Definition unpack_file (src dest : Path) (d : Disk) : Disk :=
  <[dest := File true (Text (str "member"))]> d.


(** ** Further notions about the locks *)

(** The lock object [h] is the one registered for [key]; it has been
    acquired [c] times and holds the lock of the operating system. *)
Definition held_n (h : nat) (key : Path) (c : Z) (w : World) : Prop :=
  objects w !! h = Some (mkCountedFileLock key c)
  ∧ _lock_store w !! key = Some h
  ∧ os_locks w !! key = Some (Handle h).

(** The registry refers to lock objects that exist, each under the lock
    file it locks. *)
Definition registry_ok (w : World) : Prop :=
  ∀ p h, _lock_store w !! p = Some h →
         ∃ l, objects w !! h = Some l ∧ lock_file l = p.

(** The world with the count of the lock object [h] of [key] set to [c]. *)
Definition recount (h : nat) (key : Path) (c : Z) (w : World) : World :=
  set_objects <[h := mkCountedFileLock key c]> w.

(** What [lock_for_key] makes of the outcome of its body, the lock having
    been free: the same value or exception, the lock given back. *)
Definition unlocked {A} (h : nat) (key : Path) (o : outcome A) : outcome A :=
  match o with
  | Return a w => Return a (leave_world h key w)
  | Raise e w => Raise e (leave_world h key w)
  | Blocks => Blocks
  end.

(** The same for a lock that this process held [c] times before: the
    count is [c] again. *)
Definition recounted {A} (h : nat) (key : Path) (c : Z) (o : outcome A) : outcome A :=
  match o with
  | Return a w => Return a (recount h key c w)
  | Raise e w => Raise e (recount h key c w)
  | Blocks => Blocks
  end.

(** A computation keeps a property of the world, however it ends. *)
Definition keeps {A} (I : World → Prop) (c : M A) : Prop :=
  ∀ w, I w → wp c (λ _, I) (λ _, I) True w.

(** ** The locks of the examples *)

(** The path lock of the folder [cache]. *)
Definition lock_cache : ReentrantFileLock := new_ReentrantFileLock ["cache"%string].

(** A world in which another process holds the lock file [cache/k.lock]. *)
Definition contended : World :=
  set_os_locks <[["cache"; "k.lock"]%string := Elsewhere]> (boot ∅).

(** The world in which the body of
    [with self.non_reentrant_lock_for_key(name)] starts, nobody holding
    the lock file: a new lock object, not registered, holds it. *)
Definition alone_world (self : ReentrantFileLock) (name : string) (w : World) : World :=
  let d1 := if negb (isdir (path self) (disk w))
            then (makedirs (path self) (disk w)).1 else disk w in
  mkWorld (match d1 !! key_of self name with
           | None => <[key_of self name := File true (Text [])]> d1
           | Some _ => d1
           end)
          (objects w ++ [mkCountedFileLock (key_of self name) 1])
          (_lock_store w)
          (<[key_of self name := Handle (length (objects w))]> (os_locks w))
          (extracted w).

(** The lock object [h] holds the lock file [key], acquired once. *)
Definition holds (h : nat) (key : Path) (w : World) : Prop :=
  objects w !! h = Some (mkCountedFileLock key 1)
  ∧ os_locks w !! key = Some (Handle h).

(** What the block makes of the outcome of its body: the lock of the
    operating system given back, the count at 0. *)
Definition given_back {A} (h : nat) (key : Path) (o : outcome A) : outcome A :=
  match o with
  | Return a w => Return a (set_os_locks (delete key) (recount h key 0 w))
  | Raise e w => Raise e (set_os_locks (delete key) (recount h key 0 w))
  | Blocks => Blocks
  end.

(** The state of the locks is sound: the invariant of the counted locks
    holds and the registry is in order. *)
Definition sound (w : World) : Prop := lock_inv w ∧ registry_ok w.

(** ** Documents of the examples *)

(** [{"a": 1, 1: 2}], whose keys [sorted] cannot compare. *)
Definition doc_mixed_keys : pyval :=
  PDict [(KStr (str "a"), PInt 1); (KInt 1, PInt 2)].

(** A digest for the examples: every interpreter is stored under [a]. *)
Definition digest_a (p : Path) : string := "a".

(** Whether [pathlib] takes the string for one component of a POSIX
    path, and for a folder or file of that name: it is not empty, holds
    no separator, and is neither [.] nor [..]. *)
Definition plain (s : string) : bool :=
  negb (bool_decide (s = ""%string))
  && negb (bool_decide (s = "."%string))
  && negb (bool_decide (s = ".."%string))
  && forallb (λ c, negb (bool_decide (c = "/"%char))) (list_ascii_of_string s).


(** * Counted file locks *)

Ltac munfold :=
  unfold mbind, mret, M_bind, M_ret, get, modify, raise, try_except,
    try_finally, on_disk in *.

Lemma objects_set_count_eq (os : list CountedFileLock) (h : nat) l c :
  os !! h = Some l →
  <[h := mkCountedFileLock (lock_file l) c]> os !! h
  = Some (mkCountedFileLock (lock_file l) c).
Proof.
  intros H. apply list_lookup_insert_eq. by eapply lookup_lt_Some.
Qed.

Lemma set_count_same h l w :
  objects w !! h = Some l →
  set_count h (count l) w = Return tt w.
Proof.
  intros H. unfold set_count, modify, set_objects. rewrite H.
  f_equal. destruct w as [d os st ol ex]; simpl in *. f_equal.
  destruct l. by apply list_insert_id.
Qed.

(** The count an object has after [set_count]. *)
Lemma count_of_set_count h c w w' :
  is_Some (objects w !! h) →
  set_count h c w = Return tt w' → count_of h w' = c.
Proof.
  intros [l Hl] [= <-]. unfold count_of. simpl. rewrite Hl.
  by rewrite (objects_set_count_eq _ _ _ _ Hl).
Qed.

Section invariant.
Implicit Types (w : World) (h : nat) (l : CountedFileLock).

Lemma lock_inv_boot d : lock_inv (boot d).
Proof. split; simpl; intros *; by rewrite ?lookup_nil, ?lookup_empty. Qed.

  (** Changing the disk alone does not touch the locks. *)
Lemma lock_inv_set_disk f w : lock_inv w → lock_inv (set_disk f w).
Proof. intros [H1 H2 H3]. split; simpl; auto. Qed.

Lemma lock_inv_set_lock_store f w : lock_inv w → lock_inv (set_lock_store f w).
Proof. intros [H1 H2 H3]. split; simpl; auto. Qed.

Lemma lock_inv_set_extracted f w : lock_inv w → lock_inv (set_extracted f w).
Proof. intros [H1 H2 H3]. split; simpl; auto. Qed.

  (** A new object starts with count 0 and holds nothing. *)
Lemma lock_inv_alloc p w :
    lock_inv w →
    lock_inv (set_objects (λ os, os ++ [mkCountedFileLock p 0]) w).
Proof.
    intros [H1 H2 H3]. split; simpl.
    - intros h l Hl. unfold os_held. simpl. rewrite Hl.
      apply lookup_app_Some in Hl as [Hl | [Hlen Hl]].
      + specialize (H1 h l Hl). unfold os_held in H1. by rewrite Hl in H1.
      + apply list_lookup_singleton_Some in Hl as [Hh <-]. simpl.
        split; [|lia]. intros Hb%bool_decide_eq_true.
        apply H3 in Hb as (l' & Hl' & _).
        apply lookup_lt_Some in Hl'. lia.
    - intros h l Hl.
      apply lookup_app_Some in Hl as [Hl | [Hlen Hl]]; [by eapply H2|].
      apply list_lookup_singleton_Some in Hl as [_ <-]. simpl. lia.
    - intros q h Hq. apply H3 in Hq as (l & Hl & Hf).
      exists l. split; [|done]. by apply lookup_app_l_Some.
Qed.

Lemma lock_inv_new_CountedFileLock p w w' :
    lock_inv w → world_of (new_CountedFileLock p w) = Some w' → lock_inv w'.
Proof.
    intros Hinv. unfold new_CountedFileLock. munfold.
    destruct (negb _); simpl.
    - destruct (makedirs _ _) as [d [e|]]; simpl;
        try destruct (is_OSError e); simpl; intros [= <-];
        try apply lock_inv_alloc; by apply lock_inv_set_disk.
    - intros [= <-]. by apply lock_inv_alloc.
Qed.
End invariant.

(** One step of a lock object [h]: its count becomes [c] and the operating
    system's table changes at most at [h]'s own lock file, where [h] is
    the owner exactly when [c] is positive and the other lock objects see
    what they saw. *)
Lemma lock_inv_step w h l c d' st' ol' ex' :
  lock_inv w →
  objects w !! h = Some l →
  0 ≤ c →
  (∀ q, q ≠ lock_file l → ol' !! q = os_locks w !! q) →
  (ol' !! lock_file l = Some (Handle h) ↔ 0 < c) →
  (∀ h', h' ≠ h → ol' !! lock_file l = Some (Handle h')
                  ↔ os_locks w !! lock_file l = Some (Handle h')) →
  lock_inv (mkWorld d' (<[h := mkCountedFileLock (lock_file l) c]> (objects w)) st' ol' ex').
Proof.
  intros [H1 H2 H3] Hl Hc Hframe Hmine Hothers.
  assert (Hlt : (h < length (objects w))%nat) by by eapply lookup_lt_Some.
  split; simpl.
  - intros h' l' Hl'. unfold os_held; simpl. rewrite Hl'.
    destruct (decide (h' = h)) as [->|Hne].
    + rewrite list_lookup_insert_eq in Hl' by done. injection Hl' as <-. simpl.
      rewrite bool_decide_eq_true. done.
    + rewrite list_lookup_insert_ne in Hl' by done.
      specialize (H1 h' l' Hl'). unfold os_held in H1. rewrite Hl' in H1.
      rewrite <- H1, !bool_decide_eq_true.
      destruct (decide (lock_file l' = lock_file l)) as [->|Hq].
      * by apply Hothers.
      * by rewrite Hframe.
  - intros h' l' Hl'. destruct (decide (h' = h)) as [->|Hne].
    + rewrite list_lookup_insert_eq in Hl' by done. by injection Hl' as <-.
    + rewrite list_lookup_insert_ne in Hl' by done. by eapply H2.
  - intros q h' Hq. destruct (decide (h' = h)) as [->|Hne].
    + rewrite list_lookup_insert_eq by done. eexists; split; [done|]. simpl.
      destruct (decide (q = lock_file l)) as [->|Hne]; [done|].
      rewrite Hframe in Hq by done. apply H3 in Hq as (l' & Hl' & <-). congruence.
    + rewrite list_lookup_insert_ne by done. apply H3.
      destruct (decide (q = lock_file l)) as [->|Hneq].
      * by apply Hothers.
      * by rewrite <- Hframe.
Qed.

Lemma lock_inv_acquire w h timeout w' :
  lock_inv w → world_of (acquire h timeout w) = Some w' → lock_inv w'.
Proof.
  intros Hinv. unfold acquire. munfold.
  destruct (objects w !! h) as [l|] eqn:Hl; [|by intros [= <-]].
  pose proof (inv_held _ Hinv h l Hl) as Hheld.
  pose proof (inv_nonneg _ Hinv h l Hl) as Hnn.
  unfold os_held in Hheld. rewrite Hl, bool_decide_eq_true in Hheld.
  destruct (count l =? 0) eqn:Hc.
  - apply Z.eqb_eq in Hc. unfold FileLock_acquire.
    destruct (os_locks w !! lock_file l) as [o|] eqn:Ho.
    + case_bool_decide as Hoh; [subst o; assert (0 < count l) by (by apply Hheld); lia|].
      destruct timeout; simpl; by intros [= <-].
    + unfold set_count, modify, set_objects; simpl. rewrite Hl. intros [= <-].
      apply lock_inv_step; try done; try lia.
      * intros q Hq. by rewrite lookup_insert_ne.
      * rewrite lookup_insert_eq. split; [lia|done].
      * intros h' Hne. rewrite lookup_insert_eq, Ho. split; [|done].
        intros [= ->]. done.
  - apply Z.eqb_neq in Hc. unfold set_count, modify, set_objects; simpl. rewrite Hl. intros [= <-].
    apply lock_inv_step; try done; try lia.
    rewrite Hheld. lia.
Qed.

Lemma lock_inv_release w h force w' :
  lock_inv w → world_of (release h force w) = Some w' → lock_inv w'.
Proof.
  intros Hinv. unfold release. munfold.
  destruct (objects w !! h) as [l|] eqn:Hl; [|by intros [= <-]].
  pose proof (inv_held _ Hinv h l Hl) as Hheld.
  pose proof (inv_nonneg _ Hinv h l Hl) as Hnn.
  unfold os_held in Hheld. rewrite Hl, bool_decide_eq_true in Hheld.
  destruct (count l =? 1) eqn:Hc.
  - apply Z.eqb_eq in Hc. unfold FileLock_release.
    assert (Ho : os_locks w !! lock_file l = Some (Handle h)) by (apply Hheld; lia).
    rewrite Ho, bool_decide_eq_true_2 by done.
    unfold set_count, modify, set_objects; simpl. rewrite Hl. intros [= <-].
    apply lock_inv_step; try done; try lia.
    + intros q Hq. by rewrite lookup_delete_ne.
    + rewrite lookup_delete_eq. split; [done|lia].
    + intros h' Hne. rewrite lookup_delete_eq, Ho. split; [done|].
      intros [= ->]. done.
  - apply Z.eqb_neq in Hc. unfold set_count, modify, set_objects; simpl. rewrite Hl. intros [= <-].
    apply lock_inv_step; try done; try lia.
    rewrite Hheld. lia.
Qed.

(** Releasing a lock whose count is 0 changes nothing. *)
Lemma release_at_zero w h force :
  count_of h w = 0 → release h force w = Return tt w.
Proof.
  unfold count_of, release. munfold.
  destruct (objects w !! h) as [l|] eqn:Hl; [|done].
  intros Hc. rewrite Hc. simpl.
  replace (Z.max (0 - 1) 0) with (count l) by (rewrite Hc; reflexivity).
  by apply set_count_same.
Qed.

(** *** What each call does to the count and to the operating system's lock *)

Lemma count_of_lookup w h l : objects w !! h = Some l → count_of h w = count l.
Proof. unfold count_of. by intros ->. Qed.

Lemma os_held_lookup w h l :
  objects w !! h = Some l →
  os_held h w = bool_decide (os_locks w !! lock_file l = Some (Handle h)).
Proof. unfold os_held. by intros ->. Qed.

(** First acquisition, the lock file being free: the lock of the operating
    system is taken and the count becomes 1. *)
Lemma acquire_free w h l timeout :
  objects w !! h = Some l → count l = 0 → os_locks w !! lock_file l = None →
  ∃ w', acquire h timeout w = Return tt w'
        ∧ objects w' !! h = Some (mkCountedFileLock (lock_file l) 1)
        ∧ os_locks w' = <[lock_file l := Handle h]> (os_locks w)
        ∧ _lock_store w' = _lock_store w.
Proof.
  intros Hl Hc Ho. unfold acquire, FileLock_acquire. munfold.
  rewrite Hl, Hc. simpl. rewrite Ho.
  unfold set_count, modify, set_objects; simpl. rewrite Hl.
  eexists; split; [done|]. simpl.
  rewrite list_lookup_insert_eq by by eapply lookup_lt_Some. done.
Qed.

(** First acquisition, the lock file being held elsewhere: a numeric
    timeout raises [Timeout], no timeout waits; nothing changes. *)
Lemma acquire_contended w h l o timeout :
  objects w !! h = Some l → count l = 0 →
  os_locks w !! lock_file l = Some o → o ≠ Handle h →
  acquire h timeout w = match timeout with
                        | Some _ => Raise Timeout w
                        | None => Blocks
                        end.
Proof.
  intros Hl Hc Ho Hne. unfold acquire, FileLock_acquire. munfold.
  rewrite Hl, Hc. simpl. rewrite Ho, bool_decide_eq_false_2 by done.
  by destruct timeout.
Qed.

(** Nested acquisition: only the count moves. *)
Lemma acquire_nested w h l timeout :
  objects w !! h = Some l → count l ≠ 0 →
  ∃ w', acquire h timeout w = Return tt w'
        ∧ objects w' !! h = Some (mkCountedFileLock (lock_file l) (count l + 1))
        ∧ os_locks w' = os_locks w
        ∧ _lock_store w' = _lock_store w.
Proof.
  intros Hl Hc%Z.eqb_neq. unfold acquire. munfold.
  rewrite Hl, Hc. simpl.
  unfold set_count, modify, set_objects; simpl. rewrite Hl.
  eexists; split; [done|]. simpl.
  rewrite list_lookup_insert_eq by by eapply lookup_lt_Some. done.
Qed.

(** Release at count 1, with or without [force]: the lock of the operating
    system is given back and the count becomes 0. *)
Lemma release_last w h l force :
  objects w !! h = Some l → count l = 1 →
  os_locks w !! lock_file l = Some (Handle h) →
  ∃ w', release h force w = Return tt w'
        ∧ objects w' !! h = Some (mkCountedFileLock (lock_file l) 0)
        ∧ os_locks w' = delete (lock_file l) (os_locks w)
        ∧ _lock_store w' = _lock_store w.
Proof.
  intros Hl Hc Ho. unfold release, FileLock_release. munfold.
  rewrite Hl, Hc. simpl. rewrite Ho, bool_decide_eq_true_2 by done.
  unfold set_count, modify, set_objects; simpl. rewrite Hl.
  eexists; split; [done|]. simpl.
  rewrite list_lookup_insert_eq by by eapply lookup_lt_Some. done.
Qed.

(** Release at any other count, with or without [force]: the count goes
    down by one, not below 0, and the operating system is not called. *)
Lemma release_nested w h l force :
  objects w !! h = Some l → count l ≠ 1 →
  ∃ w', release h force w = Return tt w'
        ∧ objects w' !! h = Some (mkCountedFileLock (lock_file l) (Z.max (count l - 1) 0))
        ∧ os_locks w' = os_locks w
        ∧ _lock_store w' = _lock_store w.
Proof.
  intros Hl Hc%Z.eqb_neq. unfold release. munfold.
  rewrite Hl, Hc. simpl.
  unfold set_count, modify, set_objects; simpl. rewrite Hl.
  eexists; split; [done|]. simpl.
  rewrite list_lookup_insert_eq by by eapply lookup_lt_Some. done.
Qed.

(** Acquire twice, then release three times. *)
Lemma reentrant_scenario w h l t1 t2 :
  objects w !! h = Some l → count l = 0 → os_locks w !! lock_file l = None →
  ∃ w1 w2 w3 w4,
    acquire h t1 w = Return tt w1 ∧ acquire h t2 w1 = Return tt w2
    ∧ count_of h w2 = 2 ∧ os_held h w2 = true
    ∧ release h false w2 = Return tt w3
    ∧ count_of h w3 = 1 ∧ os_held h w3 = true
    ∧ release h false w3 = Return tt w4
    ∧ count_of h w4 = 0 ∧ os_held h w4 = false
    ∧ release h false w4 = Return tt w4.
Proof.
  intros Hl Hc Ho.
  destruct (acquire_free w h l t1 Hl Hc Ho) as (w1 & E1 & Hl1 & Ho1 & _).
  destruct (acquire_nested w1 h _ t2 Hl1) as (w2 & E2 & Hl2 & Ho2 & _); [done|].
  simpl in *.
  destruct (release_nested w2 h _ false Hl2) as (w3 & E3 & Hl3 & Ho3 & _); [done|].
  simpl in *.
  destruct (release_last w3 h _ false Hl3) as (w4 & E4 & Hl4 & Ho4 & _); [done| |].
  { simpl. rewrite Ho3, Ho2, Ho1. apply lookup_insert_eq. }
  simpl in *.
  exists w1, w2, w3, w4.
  rewrite !(count_of_lookup _ _ _ Hl2), !(count_of_lookup _ _ _ Hl3),
    !(count_of_lookup _ _ _ Hl4).
  rewrite (os_held_lookup _ _ _ Hl2), (os_held_lookup _ _ _ Hl3),
    (os_held_lookup _ _ _ Hl4). simpl.
  rewrite Ho4, Ho3, Ho2, Ho1, lookup_delete_eq, lookup_insert_eq.
  rewrite bool_decide_eq_true_2, bool_decide_eq_false_2 by done.
  repeat split; try done.
  apply release_at_zero. by rewrite (count_of_lookup _ _ _ Hl4).
Qed.


(** * The lock registry *)

Lemma mkdir_walk_blocked above todo d d' e :
  mkdir_walk above todo d = (d', MkBlocked e) → is_OSError e = true.
Proof.
  revert above d. induction todo as [|c rest IH]; intros above d; simpl; [done|].
  destruct (d !! (above ++ [c])) as [[|a fd]|], rest; try done;
    try (by intros [= _ <-]); apply IH.
Qed.

Lemma makedirs_raises_OSError p d d' e :
  makedirs p d = (d', Some e) → is_OSError e = true.
Proof.
  unfold makedirs. destruct (mkdir_walk [] p d) as [d1 [| |e1]] eqn:E; try done.
  - by intros [= _ <-].
  - intros [= _ <-]. by eapply mkdir_walk_blocked.
Qed.

(** [os.makedirs] with its [OSError] swallowed always returns and touches
    the disk only. *)
Lemma makedirs_ignoring_errors p w :
  ∃ d, try_except (on_disk (makedirs p)) is_OSError (λ _, mret tt) w
       = Return tt (set_disk (λ _, d) w).
Proof.
  munfold. destruct (makedirs p (disk w)) as [d [e|]] eqn:E; simpl.
  - rewrite (makedirs_raises_OSError _ _ _ _ E). by exists d.
  - by exists d.
Qed.

(** Constructing a lock object always succeeds; the object is new, its
    count is 0, and neither the registry nor the operating system's table
    is touched. *)
Lemma new_CountedFileLock_spec p w :
  ∃ w', new_CountedFileLock p w = Return (length (objects w)) w'
        ∧ objects w' = objects w ++ [mkCountedFileLock p 0]
        ∧ _lock_store w' = _lock_store w
        ∧ os_locks w' = os_locks w
        ∧ extracted w' = extracted w.
Proof.
  unfold new_CountedFileLock.
  unfold mbind at 1, M_bind at 1, get at 1.
  unfold mbind at 1, M_bind at 1.
  destruct (negb _).
  - destruct (makedirs_ignoring_errors (dirname p) w) as [d ->].
    munfold. simpl. eexists; split; done.
  - munfold. simpl. eexists; split; done.
Qed.

(** A request for a path that is registered returns the registered object
    and changes nothing. *)
Lemma create_lock_registered self name w h :
  _lock_store w !! key_of self name = Some h →
  _create_lock self name w = Return h w.
Proof.
  intros H. unfold _create_lock, key_of in *. munfold. by rewrite H.
Qed.

(** A request for a path that is not registered constructs a lock object
    with count 0, registers it, and returns it. *)
Lemma create_lock_absent self name w :
  _lock_store w !! key_of self name = None →
  ∃ w', _create_lock self name w = Return (length (objects w)) w'
        ∧ objects w' = objects w ++ [mkCountedFileLock (key_of self name) 0]
        ∧ _lock_store w' = <[key_of self name := length (objects w)]> (_lock_store w)
        ∧ os_locks w' = os_locks w.
Proof.
  intros H. unfold _create_lock, key_of in *.
  unfold mbind at 1, M_bind at 1, get at 1. rewrite H.
  destruct (new_CountedFileLock_spec (truediv (path self) (name +:+ ".lock")) w)
    as (w1 & E & Ho & Hs & Hl & _).
  unfold mbind at 1, M_bind at 1. rewrite E. munfold. simpl.
  eexists; split; [done|]. simpl. rewrite Hs. done.
Qed.

(** In both cases the object returned is the one registered afterwards. *)
Lemma create_lock_returns_registered self name w :
  ∃ h w', _create_lock self name w = Return h w'
          ∧ _lock_store w' !! key_of self name = Some h.
Proof.
  destruct (_lock_store w !! key_of self name) as [h|] eqn:E.
  - exists h, w. split; [by apply create_lock_registered|done].
  - destruct (create_lock_absent self name w E) as (w' & E' & _ & Hs & _).
    eexists _, w'. split; [done|]. rewrite Hs. apply lookup_insert_eq.
Qed.

(** [n] requests in a row for the same path return one object [n] times. *)
Lemma request_n_same n self name w :
  ∃ h w', request_n n self name w = Return (replicate n h) w'
          ∧ (n ≠ O → _lock_store w' !! key_of self name = Some h).
Proof.
  destruct n as [|n]; [by exists O, w|].
  destruct (create_lock_returns_registered self name w) as (h & w1 & E & Hs).
  exists h, w1. simpl. munfold. rewrite E. split; [|done].
  clear E. induction n as [|n IH]; simpl; [done|]. munfold.
  rewrite (create_lock_registered _ _ _ _ Hs).
  destruct (request_n n self name w1) as [hs w2| |] eqn:En; try done.
  by injection IH as -> ->.
Qed.

(** [_del_lock]: the entry stored under the lock's file goes exactly when
    the lock's count is 0; otherwise nothing changes. *)
Lemma del_lock_spec h w l :
  objects w !! h = Some l →
  _del_lock (Some h) w
  = Return tt (if count l =? 0 then set_lock_store (delete (lock_file l)) w else w).
Proof.
  intros H. unfold _del_lock. munfold. rewrite H. by destruct (count l =? 0).
Qed.

Lemma del_lock_None w : _del_lock None w = Return tt w.
Proof. done. Qed.

(** Neither [acquire] nor [release] touches the registry. *)
Lemma acquire_lock_store w h timeout w' :
  world_of (acquire h timeout w) = Some w' → _lock_store w' = _lock_store w.
Proof.
  unfold acquire, FileLock_acquire, set_count. munfold.
  destruct (objects w !! h) as [l|]; [|by intros [= <-]].
  destruct (count l =? 0); simpl.
  - destruct (os_locks w !! lock_file l) as [o|]; simpl.
    + case_bool_decide; simpl; [by intros [= <-]|].
      destruct timeout; simpl; by intros [= <-].
    + by intros [= <-].
  - by intros [= <-].
Qed.

Lemma release_lock_store w h force w' :
  world_of (release h force w) = Some w' → _lock_store w' = _lock_store w.
Proof.
  unfold release, FileLock_release, set_count. munfold.
  destruct (objects w !! h) as [l|]; [|by intros [= <-]].
  destruct (count l =? 1); simpl.
  - destruct (os_locks w !! lock_file l) as [o|]; simpl.
    + case_bool_decide; simpl; by intros [= <-].
    + by intros [= <-].
  - by intros [= <-].
Qed.


(** * The claims about util/lock.py *)

(** C1.  For every counted file lock the lock of the operating system is
    held exactly when the reentrancy count is greater than 0, and the count
    is never negative: this holds in a fresh process and is kept by the
    construction of a lock object and by every [acquire] and [release],
    however they end.  A lock acquired twice is still held after one
    [release] and is given back by the second; a [release] at count 0
    changes nothing. *)
Theorem C1_os_lock_held_iff_count_positive :
  (∀ d, lock_inv (boot d))
  ∧ (∀ w p w', lock_inv w →
       world_of (new_CountedFileLock p w) = Some w' → lock_inv w')
  ∧ (∀ w h timeout w', lock_inv w →
       world_of (acquire h timeout w) = Some w' → lock_inv w')
  ∧ (∀ w h force w', lock_inv w →
       world_of (release h force w) = Some w' → lock_inv w')
  ∧ (∀ w h, lock_inv w → (h < length (objects w))%nat →
       (os_held h w = true ↔ 0 < count_of h w) ∧ 0 ≤ count_of h w)
  ∧ (∀ w h l t1 t2,
       objects w !! h = Some l → count l = 0 →
       os_locks w !! lock_file l = None →
       ∃ w1 w2 w3 w4,
         acquire h t1 w = Return tt w1 ∧ acquire h t2 w1 = Return tt w2
         ∧ count_of h w2 = 2 ∧ os_held h w2 = true
         ∧ release h false w2 = Return tt w3
         ∧ count_of h w3 = 1 ∧ os_held h w3 = true
         ∧ release h false w3 = Return tt w4
         ∧ count_of h w4 = 0 ∧ os_held h w4 = false
         ∧ release h false w4 = Return tt w4)
  ∧ (∀ w h force, count_of h w = 0 → release h force w = Return tt w).
Proof.
  split; [exact lock_inv_boot|].
  split; [intros; by eapply lock_inv_new_CountedFileLock|].
  split; [intros; by eapply lock_inv_acquire|].
  split; [intros; by eapply lock_inv_release|].
  split.
  { intros w h Hinv Hlt. destruct (lookup_lt_is_Some_2 _ _ Hlt) as [l Hl].
    rewrite (count_of_lookup _ _ _ Hl).
    split; [by apply (inv_held _ Hinv)|by apply (inv_nonneg _ Hinv h)]. }
  split; [intros; by eapply reentrant_scenario|].
  intros; by apply release_at_zero.
Qed.

Lemma C1_witness :
  ∃ h w w' w'',
    nested_twice (boot ∅) = Return h w
    ∧ release h false w = Return tt w'
    ∧ release h true w' = Return tt w''
    ∧ lock_inv w' ∧ lock_inv w''
    ∧ (os_held h w' = true ↔ 0 < count_of h w')
    ∧ release h false w'' = Return tt w''.
Proof.
  destruct C1_os_lock_held_iff_count_positive
    as (Hboot & Hnew & Hacq & Hrel & Hiff & Hscen & Hzero).
  pose proof (Hnew (boot ∅) ["cache"; "k.lock"] _ (Hboot ∅) eq_refl) as H0.
  pose proof (Hacq _ 0%nat None _ H0 eq_refl) as H1.
  pose proof (Hacq _ 0%nat None _ H1 eq_refl) as H2.
  pose proof (Hrel _ 0%nat false _ H2 eq_refl) as H3.
  pose proof (Hrel _ 0%nat true _ H3 eq_refl) as H4.
  eexists _, _, _, _.
  split; [vm_compute; reflexivity|].
  split; [vm_compute; reflexivity|].
  split; [vm_compute; reflexivity|].
  split; [exact H3|].
  split; [exact H4|].
  split; [apply (Hiff _ 0%nat H3); simpl; lia|].
  apply Hzero. reflexivity.
Defined.

(** C2, counterexample.  A lock object acquired twice has count 2 and
    holds the lock of the operating system; [release(force=True)] leaves
    it at count 1, still holding that lock. *)
Lemma C2_counterexample :
  let w := world_after nested_twice (boot ∅) in
  let w' := world_after (release 0 true) w in
  nested_twice (boot ∅) = Return 0%nat w
  ∧ count_of 0 w = 2 ∧ os_held 0 w = true
  ∧ release 0 true w = Return tt w'
  ∧ count_of 0 w' = 1 ∧ os_held 0 w' = true.
Proof. vm_compute. repeat split. Qed.

(** C2, amended.  On a counted file lock whose count is at least 1,
    [release(force=True)] does what [release()] does: the count goes down
    by exactly one, and the lock of the operating system is given back
    exactly when the count was 1, the only case in which the count is 0
    afterwards. *)
Theorem C2_release_force_amended w h :
  lock_inv w → 1 ≤ count_of h w →
  ∃ w', release h true w = Return tt w'
        ∧ release h false w = Return tt w'
        ∧ count_of h w' = count_of h w - 1
        ∧ (os_held h w' = false ↔ count_of h w = 1)
        ∧ (count_of h w' = 0 ↔ count_of h w = 1).
Proof.
  intros Hinv Hc. unfold count_of in Hc.
  destruct (objects w !! h) as [l|] eqn:Hl; [|lia].
  pose proof (inv_held _ Hinv h l Hl) as Hheld.
  rewrite (os_held_lookup _ _ _ Hl), bool_decide_eq_true in Hheld.
  rewrite (count_of_lookup _ _ _ Hl).
  destruct (decide (count l = 1)) as [H1|H1].
  - destruct (release_last w h l true Hl H1) as (w' & E & Hl' & Ho' & _).
    { apply Hheld. lia. }
    exists w'. split; [done|]. split; [exact E|].
    rewrite (count_of_lookup _ _ _ Hl'), (os_held_lookup _ _ _ Hl'). simpl.
    rewrite Ho', lookup_delete_eq, bool_decide_eq_false_2 by done.
    split; [lia|]. done.
  - destruct (release_nested w h l true Hl H1) as (w' & E & Hl' & Ho' & _).
    exists w'. split; [done|]. split; [exact E|].
    rewrite (count_of_lookup _ _ _ Hl'), (os_held_lookup _ _ _ Hl'). simpl.
    rewrite Ho', bool_decide_eq_true_2 by (apply Hheld; lia).
    split; [lia|]. split; [split; [done|lia]|lia].
Qed.

Lemma C2_witness :
  let w := world_after nested_twice (boot ∅) in
  lock_inv w ∧ 1 ≤ count_of 0 w
  ∧ ∃ w', release 0 true w = Return tt w'
          ∧ count_of 0 w' = count_of 0 w - 1
          ∧ (os_held 0 w' = false ↔ count_of 0 w = 1).
Proof.
  intros w.
  assert (Hinv : lock_inv w).
  { pose proof (lock_inv_new_CountedFileLock ["cache"; "k.lock"] (boot ∅) _
                  (lock_inv_boot ∅) eq_refl) as H0.
    pose proof (lock_inv_acquire _ 0%nat None _ H0 eq_refl) as H1.
    exact (lock_inv_acquire _ 0%nat None _ H1 eq_refl). }
  assert (Hc : 1 ≤ count_of 0 w) by (vm_compute; discriminate).
  split; [exact Hinv|]. split; [exact Hc|].
  destruct (C2_release_force_amended w 0%nat Hinv Hc) as (w' & E & _ & H1 & H2 & _).
  exists w'. auto.
Defined.

(** C3, counterexample.  Thread A obtains the handle of key ["k"] (object
    0); before A locks it, thread B uses and leaves the same key, which
    evicts object 0 at count 0; A then locks object 0, and thread C's
    request for the same lock file constructs object 1.  Two lock objects
    for one lock file are in use at once.  The sequential case is alike:
    two uses of one key, one after the other, work with two objects. *)
Lemma C3_counterexample :
  let w := world_after three_threads (boot ∅) in
  three_threads (boot ∅) = Return (0%nat, 1%nat) w
  ∧ objects w !! 0%nat = Some (mkCountedFileLock ["cache"; "k.lock"] 1)
  ∧ objects w !! 1%nat = Some (mkCountedFileLock ["cache"; "k.lock"] 0)
  ∧ os_held 0 w = true
  ∧ _lock_store w !! ["cache"; "k.lock"] = Some 1%nat
  ∧ ∃ w2, two_uses (boot ∅) = Return (Some 0%nat, Some 1%nat) w2.
Proof. vm_compute. repeat split. eexists. reflexivity. Qed.

(** C3, amended.  The registry holds at most one lock object per lock
    file.  A request for a registered lock file returns the registered
    object and changes nothing; a request for an unregistered one
    constructs a lock object with count 0, registers it and returns it; so
    requests repeated without an eviction in between all return the same
    object, and [acquire] and [release] never touch the registry.
    [_del_lock(lock)] removes the entry of [lock]'s file exactly when
    [lock]'s count is 0 and otherwise changes nothing. *)
Theorem C3_registry_amended :
  (∀ self name w h,
     _lock_store w !! key_of self name = Some h →
     _create_lock self name w = Return h w)
  ∧ (∀ self name w,
       _lock_store w !! key_of self name = None →
       ∃ w', _create_lock self name w = Return (length (objects w)) w'
             ∧ objects w' = objects w ++ [mkCountedFileLock (key_of self name) 0]
             ∧ _lock_store w'
               = <[key_of self name := length (objects w)]> (_lock_store w))
  ∧ (∀ n self name w,
       ∃ h w', request_n n self name w = Return (replicate n h) w')
  ∧ (∀ w h timeout w',
       world_of (acquire h timeout w) = Some w' → _lock_store w' = _lock_store w)
  ∧ (∀ w h force w',
       world_of (release h force w) = Some w' → _lock_store w' = _lock_store w)
  ∧ (∀ h w l,
       objects w !! h = Some l →
       _del_lock (Some h) w
       = Return tt (if count l =? 0
                    then set_lock_store (delete (lock_file l)) w
                    else w))
  ∧ (∀ w, _del_lock None w = Return tt w).
Proof.
  split; [exact create_lock_registered|].
  split.
  { intros self name w H.
    destruct (create_lock_absent self name w H) as (w' & E & Ho & Hs & _).
    by exists w'. }
  split.
  { intros n self name w.
    destruct (request_n_same n self name w) as (h & w' & E & _). by exists h, w'. }
  split; [exact acquire_lock_store|].
  split; [exact release_lock_store|].
  split; [exact del_lock_spec|exact del_lock_None].
Qed.

Lemma C3_witness :
  let self := new_ReentrantFileLock ["cache"] in
  let w := world_after (_create_lock self "k") (boot ∅) in
  _lock_store w !! key_of self "k" = Some 0%nat
  ∧ _create_lock self "k" w = Return 0%nat w
  ∧ _lock_store (boot ∅) !! key_of self "k" = None
  ∧ (∃ w', _create_lock self "k" (boot ∅) = Return 0%nat w')
  ∧ (∃ w', world_of (acquire 0 None w) = Some w' ∧ _lock_store w' = _lock_store w)
  ∧ (∃ w', world_of (release 0 false w) = Some w' ∧ _lock_store w' = _lock_store w)
  ∧ _del_lock (Some 0%nat) w
    = Return tt (set_lock_store (delete ["cache"; "k.lock"]) w).
Proof.
  intros self w.
  destruct C3_registry_amended as (Hreg & Habs & Hn & Hacq & Hrel & Hdel & Hnone).
  assert (Hs : _lock_store w !! key_of self "k" = Some 0%nat) by (vm_compute; reflexivity).
  assert (He : _lock_store (boot ∅) !! key_of self "k" = None) by (vm_compute; reflexivity).
  split; [exact Hs|].
  split; [exact (Hreg self "k"%string w 0%nat Hs)|].
  split; [exact He|].
  split.
  { destruct (Habs self "k"%string (boot ∅) He) as (w' & E & _). by exists w'. }
  split.
  { eexists. split; [reflexivity|]. by apply (Hacq w 0%nat None). }
  split.
  { eexists. split; [reflexivity|]. by apply (Hrel w 0%nat false). }
  apply (Hdel 0%nat w (mkCountedFileLock ["cache"; "k.lock"] 0)).
  vm_compute. reflexivity.
Defined.

(** C9, counterexample.  Entering the whole-directory lock of a no-op path
    lock raises [NotImplementedError]; so does leaving it. *)
Lemma C9_counterexample :
  let lock := mkNoOpFileLock ["cache"] in
  with_lock lock (mret tt) (boot ∅) = Raise NotImplementedError (boot ∅)
  ∧ enter lock (boot ∅) = Raise NotImplementedError (boot ∅)
  ∧ exit lock (boot ∅) = Raise NotImplementedError (boot ∅).
Proof. repeat split. Qed.

(** C9, amended.  In the no-op path lock, [lock_for_key(name, no_block)]
    and [non_reentrant_lock_for_key(name)] are pass-throughs for every
    name: the block under them runs as if it stood alone, and around an
    empty block nothing at all changes, no lock being constructed,
    registered or taken.  Entering or leaving the whole-directory lock
    raises [NotImplementedError]. *)
Theorem C9_noop_lock_amended (self : NoOpFileLock) (name : string) (no_block : bool) :
  (∀ A (body : M A) w,
     lock_for_key self name no_block body w = body w
     ∧ non_reentrant_lock_for_key self name body w = body w)
  ∧ (∀ w, lock_for_key self name no_block (mret tt) w = Return tt w
          ∧ non_reentrant_lock_for_key self name (mret tt) w = Return tt w)
  ∧ (∀ w, enter self w = Raise NotImplementedError w
          ∧ exit self w = Raise NotImplementedError w)
  ∧ (∀ A (body : M A) w, with_lock self body w = Raise NotImplementedError w).
Proof. repeat split. Qed.


(** * JSON text: numbers and strings there and back *)

Ltac Zify.zify_post_hook ::= Z.to_euclidean_division_equations.

Local Open Scope N_scope.

(** Replace the code points written [chr "x"] by their numbers. *)
Ltac chr_norm :=
  repeat match goal with
    | |- context [chr ?a] =>
        let v := eval vm_compute in (chr a) in change (chr a) with v
    | H : context [chr ?a] |- _ =>
        let v := eval vm_compute in (chr a) in change (chr a) with v in H
    end.

#[local] Arguments read_digits : simpl never.

Lemma read_digits_cons a d ds :
  read_digits a (d :: ds) = read_digits (10 * a + (d - 48)) ds.
Proof. reflexivity. Qed.

Lemma read_digits_nil a : read_digits a [] = a.
Proof. reflexivity. Qed.

Lemma read_digits_app a ds ds' :
  read_digits a (ds ++ ds') = read_digits (read_digits a ds) ds'.
Proof. apply fold_left_app. Qed.

Lemma is_digit_spec c : is_digit c = true ↔ 48 ≤ c ≤ 57.
Proof. unfold is_digit. chr_norm. rewrite andb_true_iff, !N.leb_le. done. Qed.

(** What [digits_aux] puts in front of [acc]: the decimal digits of [n],
    without a leading zero. *)
Lemma digits_aux_spec fuel n acc :
  n < 10 ^ N.of_nat fuel → fuel ≠ O →
  ∃ c ds, digits_aux fuel n acc = c :: ds ++ acc
          ∧ Forall (λ d, is_digit d = true) (c :: ds)
          ∧ (∀ a, read_digits a (c :: ds) = a * 10 ^ N.of_nat (length (c :: ds)) + n)
          ∧ (c = 48 → n = 0 ∧ ds = []).
Proof.
  revert n acc. induction fuel as [|fuel IH]; intros n acc Hn Hf; [done|].
  simpl. chr_norm. destruct (n / 10 =? 0) eqn:Hq.
  - apply N.eqb_eq in Hq. assert (n < 10) by lia.
    exists (48 + n mod 10), []. simpl.
    split; [done|]. split.
    { constructor; [|done]. apply is_digit_spec. lia. }
    split; [|intros; split; [lia|done]].
    intros a. rewrite read_digits_cons, read_digits_nil.
    change (N.of_nat (length [48 + n mod 10])) with 1. lia.
  - apply N.eqb_neq in Hq.
    destruct fuel as [|fuel'].
    { simpl in Hn. lia. }
    destruct (IH (n / 10) ((48 + n mod 10) :: acc)) as (c & ds & E & Hd & Hv & H0);
      [|done|].
    { rewrite Nat2N.inj_succ, N.pow_succ_r' in Hn. lia. }
    exists c, (ds ++ [48 + n mod 10]).
    split; [rewrite E; by rewrite <- app_assoc|].
    split.
    { rewrite app_comm_cons. apply Forall_app. split; [done|].
      constructor; [|done]. apply is_digit_spec. lia. }
    split.
    { intros a. rewrite app_comm_cons, read_digits_app, Hv.
      rewrite read_digits_cons, read_digits_nil.
      change (length (c :: ds ++ [48 + n mod 10])) with (S (length (ds ++ [48 + n mod 10]))).
      rewrite length_app. simpl length.
      rewrite Nat.add_1_r, (Nat2N.inj_succ (S _)), N.pow_succ_r'.
      lia. }
    intros ->. destruct (H0 eq_refl) as [? _]. lia.
Qed.

Lemma digits_spec n :
  ∃ c ds, digits n = c :: ds
          ∧ Forall (λ d, is_digit d = true) (c :: ds)
          ∧ read_digits 0 (c :: ds) = n
          ∧ (c = 48 → n = 0 ∧ ds = []).
Proof.
  unfold digits.
  destruct (digits_aux_spec (S (N.to_nat (N.log2 n))) n []) as (c & ds & E & Hd & Hv & H0);
    [|done|].
  { rewrite Nat2N.inj_succ, N2Nat.id.
    destruct (decide (n = 0)) as [->|Hn]; [done|].
    pose proof (N.log2_spec n ltac:(lia)) as [_ H].
    eapply N.lt_le_trans; [exact H|].
    apply N.pow_le_mono_l. lia. }
  exists c, ds. rewrite E, app_nil_r. split; [done|]. split; [done|].
  split; [|done]. rewrite Hv. lia.
Qed.

Lemma span_digits_app ds rest :
  Forall (λ d, is_digit d = true) ds →
  match rest with [] => True | c :: _ => is_digit c = false end →
  span_digits (ds ++ rest) = (ds, rest).
Proof.
  intros Hd Hr. induction Hd as [|d ds Hd _ IH]; simpl.
  - destruct rest as [|c rest]; [done|]. simpl. by rewrite Hr.
  - by rewrite Hd, IH.
Qed.

Lemma ends_value_not_digit rest :
  ends_value rest → match rest with [] => True | c :: _ => is_digit c = false end.
Proof.
  destruct rest as [|c rest]; [done|]. unfold ends_value. chr_norm.
  intros [->| ->]; reflexivity.
Qed.

(** What may stand after a number without being taken for a part of it. *)
Lemma ends_value_tail rest :
  ends_value rest →
  match rest with
  | [] => True
  | c :: _ => is_digit c = false ∧ c ≠ chr "." ∧ c ≠ chr "e" ∧ c ≠ chr "E"
              ∧ c ≠ chr "+" ∧ c ≠ chr "-"
  end.
Proof.
  destruct rest as [|c rest]; [done|]. unfold ends_value. chr_norm.
  intros [->| ->]; repeat split; done.
Qed.

Lemma span_digits_app_gen s ds r rest :
  span_digits s = (ds, r) →
  match rest with [] => True | c :: _ => is_digit c = false end →
  span_digits (s ++ rest) = (ds, r ++ rest).
Proof.
  revert ds r. induction s as [|c s IH]; intros ds r Hs Hrest; simpl in *.
  - injection Hs as <- <-. destruct rest as [|c rest]; [done|]. simpl. by rewrite Hrest.
  - destruct (is_digit c); [|by injection Hs as <- <-].
    destruct (span_digits s) as [ds0 r0]. injection Hs as <- <-.
    by rewrite (IH ds0 r0).
Qed.

Lemma span_digits_all ds :
  Forall (λ d, is_digit d = true) ds → span_digits ds = (ds, []).
Proof.
  induction 1 as [|c ds Hc _ IH]; simpl; [done|]. by rewrite Hc, IH.
Qed.

Lemma scan_int_app s ip r rest :
  scan_int s = Some (ip, r) →
  match rest with [] => True | c :: _ => is_digit c = false end →
  scan_int (s ++ rest) = Some (ip, r ++ rest).
Proof.
  destruct s as [|c s]; [done|]. simpl. intros Hs Hrest.
  destruct (c =? chr "0"); [by injection Hs as <- <-|].
  destruct (is_digit c); [|done].
  destruct (span_digits s) as [ds r0] eqn:E. injection Hs as <- <-.
  by rewrite (span_digits_app_gen _ _ _ _ E).
Qed.

Lemma scan_frac_app s frac r rest :
  scan_frac s = (frac, r) →
  match rest with
  | [] => True
  | c :: _ => is_digit c = false ∧ c ≠ chr "."
  end →
  scan_frac (s ++ rest) = (frac, r ++ rest).
Proof.
  intros Hs Hrest. destruct s as [|d [|x s]]; simpl in *.
  - injection Hs as <- <-. destruct rest as [|c [|x rest]]; [done| |]; simpl.
    + done.
    + destruct Hrest as [_ Hc]. apply N.eqb_neq in Hc. by rewrite Hc.
  - injection Hs as <- <-. destruct rest as [|c rest]; [done|]. simpl.
    destruct Hrest as [-> _]. by rewrite andb_false_r.
  - destruct ((d =? chr ".") && is_digit x); [|by injection Hs as <- <-].
    destruct (span_digits s) as [ds r0] eqn:E. injection Hs as <- <-.
    rewrite (span_digits_app_gen _ _ _ _ E); [done|].
    destruct rest; [done|]. by destruct Hrest.
Qed.

Lemma scan_exp_app s ex r rest :
  scan_exp s = (ex, r) →
  match rest with
  | [] => True
  | c :: _ => is_digit c = false ∧ c ≠ chr "e" ∧ c ≠ chr "E"
              ∧ c ≠ chr "+" ∧ c ≠ chr "-"
  end →
  scan_exp (s ++ rest) = (ex, r ++ rest).
Proof.
  intros Hs Hrest.
  assert (Hdig : match rest with [] => True | c :: _ => is_digit c = false end).
  { destruct rest; [done|]. by destruct Hrest. }
  destruct s as [|e s]; simpl in *.
  - injection Hs as <- <-. destruct rest as [|c rest]; [done|]. simpl.
    destruct Hrest as (_ & He & HE & _).
    apply N.eqb_neq in He, HE. by rewrite He, HE.
  - destruct ((e =? chr "e") || (e =? chr "E")); [|by injection Hs as <- <-].
    destruct s as [|x s]; simpl in *.
    + injection Hs as <- <-. destruct rest as [|c rest]; [done|]. simpl.
      destruct Hrest as (Hd & _ & _ & Hp & Hm).
      apply N.eqb_neq in Hp, Hm. rewrite Hp, Hm. simpl. by rewrite Hd.
    + destruct ((x =? chr "+") || (x =? chr "-")).
      * destruct (span_digits s) as [ds r0] eqn:E.
        rewrite (span_digits_app_gen _ _ _ _ E) by done.
        destruct ds; by injection Hs as <- <-.
      * destruct (span_digits (x :: s)) as [ds r0] eqn:E.
        change (x :: s ++ rest) with ((x :: s) ++ rest).
        rewrite (span_digits_app_gen _ _ _ _ E) by done.
        destruct ds; by injection Hs as <- <-.
Qed.

Section numbers.
Variable float_of_literal : pystr → pystr.

  (** A number that the scanner reads is read the same, with the same
      rest before what follows, when what follows cannot be part of a
      number. *)
Lemma match_number_app s v r rest :
    match_number float_of_literal s = inl (v, r) →
    ends_value rest →
    match_number float_of_literal (s ++ rest) = inl (v, r ++ rest).
Proof.
    intros Hs Hrest%ends_value_tail. unfold match_number in *.
    assert (Hsign : scan_sign (s ++ rest)
                    = ((scan_sign s).1, (scan_sign s).2 ++ rest)
                    ∨ s = []).
    { destruct s as [|c s]; [by right|]. left. simpl.
      by destruct (c =? chr "-"). }
    destruct Hsign as [Hsign| ->]; [|done].
    rewrite Hsign. destruct (scan_sign s) as [sign s1]. cbn [fst snd].
    destruct (scan_int s1) as [[ip r1]|] eqn:Hint; [|done].
    rewrite (scan_int_app _ _ _ _ Hint) by (destruct rest; [done|by destruct Hrest]).
    destruct (scan_frac r1) as [frac r2] eqn:Hfrac.
    rewrite (scan_frac_app _ _ _ _ Hfrac)
      by (destruct rest; [done|by destruct Hrest as (? & ? & _)]).
    destruct (scan_exp r2) as [ex r3] eqn:Hex.
    rewrite (scan_exp_app _ _ _ _ Hex)
      by (destruct rest; [done|by destruct Hrest as (? & ? & ? & ? & ? & ?)]).
    destruct frac, ex; try (by injection Hs as <- <-).
    destruct (length ip <=? int_max_str_digits)%nat; [|done].
    by injection Hs as <- <-.
Qed.

  (** A run of digits without a leading zero and within the limit is
      read as the integer it denotes. *)
Lemma match_number_unsigned c ds rest :
    Forall (λ d, is_digit d = true) (c :: ds) →
    (c = 48 → ds = []) →
    (length (c :: ds) ≤ int_max_str_digits)%nat →
    ends_value rest →
    match_number float_of_literal (c :: ds ++ rest)
    = inl (PInt (Z.of_N (digits_value (c :: ds))), rest).
Proof.
    intros Hd H0 Hlen Hr. inversion Hd as [|? ? Hc Hds]; subst.
    pose proof (proj1 (is_digit_spec c) Hc) as Hc'.
    change (c :: ds ++ rest) with ((c :: ds) ++ rest).
    rewrite (match_number_app (c :: ds) (PInt (Z.of_N (digits_value (c :: ds)))) []);
      [done| |done].
    unfold match_number, scan_sign, scan_int.
    replace (c =? chr "-") with false by (chr_norm; symmetry; apply N.eqb_neq; lia).
    chr_norm. destruct (c =? 48) eqn:E.
    - apply N.eqb_eq in E. rewrite (H0 E). subst c. reflexivity.
    - rewrite Hc, (span_digits_all _ Hds). simpl scan_frac. simpl scan_exp.
      cbv iota beta.
      by rewrite (proj2 (Nat.leb_le _ _) Hlen).
Qed.

Lemma match_number_intstr z rest :
    int_fits z = true →
    ends_value rest →
    match_number float_of_literal (intstr z ++ rest) = inl (PInt z, rest).
Proof.
    intros Hfit Hr. unfold int_fits in Hfit. apply Nat.leb_le in Hfit.
    unfold intstr. destruct (z <? 0)%Z eqn:Hz.
    - apply Z.ltb_lt in Hz.
      replace (Z.abs z) with (- z)%Z in Hfit by lia.
      destruct (digits_spec (Z.to_N (- z))) as (c & ds & E & Hd & Hv & H0).
      rewrite E in Hfit |- *.
      assert (Hc48 : c ≠ 48) by (intros Hc; destruct (H0 Hc); lia).
      pose proof (match_number_unsigned c ds rest Hd ltac:(done) Hfit Hr) as Hm.
      inversion Hd as [|? ? Hc Hds]; subst.
      pose proof (proj1 (is_digit_spec c) Hc) as Hc'.
      unfold match_number in *. simpl app. unfold scan_sign in *.
      replace (c =? chr "-") with false in Hm
        by (chr_norm; symmetry; apply N.eqb_neq; lia).
      cbv beta iota in Hm |- *. rewrite N.eqb_refl. cbv beta iota.
      revert Hm.
      destruct (scan_int _) as [[ip r1]|]; [|done].
      destruct (scan_frac r1) as [frac r2].
      destruct (scan_exp r2) as [ex r3].
      destruct frac, ex; try done.
      destruct (length ip <=? int_max_str_digits)%nat; [|done].
      intros [= Hm <-]. f_equal. f_equal. f_equal.
      unfold digits_value in *. lia.
    - apply Z.ltb_ge in Hz.
      replace (Z.abs z) with z in Hfit by lia.
      destruct (digits_spec (Z.to_N z)) as (c & ds & E & Hd & Hv & H0).
      rewrite E in Hfit |- *. simpl app.
      rewrite match_number_unsigned; [|done|by intros Hc; destruct (H0 Hc)|done|done].
      unfold digits_value. rewrite Hv. f_equal. f_equal. f_equal. lia.
Qed.
End numbers.

(** *** Strings *)

Lemma hex_value_hex_digit d : d < 16 → hex_value (hex_digit d) = Some d.
Proof.
  intros Hd. unfold hex_value, hex_digit, is_digit. chr_norm.
  destruct (d <? 10) eqn:E.
  - apply N.ltb_lt in E.
    replace ((48 <=? 48 + d) && (48 + d <=? 57)) with true
      by (symmetry; rewrite andb_true_iff, !N.leb_le; lia).
    f_equal. lia.
  - apply N.ltb_ge in E.
    replace ((48 <=? 97 + (d - 10)) && (97 + (d - 10) <=? 57)) with false
      by (symmetry; rewrite andb_false_iff, !N.leb_gt; lia).
    replace ((97 <=? 97 + (d - 10)) && (97 + (d - 10) <=? 102)) with true
      by (symmetry; rewrite andb_true_iff, !N.leb_le; lia).
    f_equal. lia.
Qed.

(** The four hexadecimal digits of a [\uXXXX] escape are read back as the
    number they were written for. *)
Lemma hex4_value_u_escape n :
  n < 65536 →
  hex4_value (hex_digit (n / 4096 mod 16)) (hex_digit (n / 256 mod 16))
             (hex_digit (n / 16 mod 16)) (hex_digit (n mod 16)) = Some n.
Proof.
  intros Hn. unfold hex4_value.
  rewrite !hex_value_hex_digit by lia. f_equal. lia.
Qed.

Lemma land_shiftl_small a x k : x < 2 ^ k → N.land (N.shiftl a k) x = 0.
Proof.
  intros Hx. apply N.bits_inj_0. intros i. rewrite N.land_spec.
  destruct (N.ltb_spec i k) as [Hi|Hi].
  - by rewrite N.shiftl_spec_low.
  - destruct (decide (x = 0)) as [->|Hx0]; [by rewrite N.bits_0, andb_false_r|].
    rewrite (N.bits_above_log2 x i), andb_false_r; [done|].
    eapply N.lt_le_trans; [|exact Hi]. apply N.log2_lt_pow2; lia.
Qed.

Lemma lor_shiftl_small a x k : x < 2 ^ k → N.lor (N.shiftl a k) x = a * 2 ^ k + x.
Proof.
  intros Hx. rewrite <- N.lxor_lor by by apply land_shiftl_small.
  rewrite <- N.add_nocarry_lxor by by apply land_shiftl_small.
  by rewrite N.shiftl_mul_pow2.
Qed.

(** The two halves of a surrogate pair, as numbers. *)
Lemma high_half n :
  n < 1048576 →
  N.lor 0xd800 (N.land (N.shiftr n 10) 0x3ff) = 55296 + n / 1024.
Proof.
  intros Hn. change 0x3ff with (N.ones 10). change 0xd800 with (N.shiftl 54 10).
  rewrite N.land_ones, N.shiftr_div_pow2.
  rewrite lor_shiftl_small by (apply N.mod_lt; done).
  change (N.shiftl 54 10) with 55296. change (2 ^ 10) with 1024. lia.
Qed.

Lemma low_half n :
  N.lor 0xdc00 (N.land n 0x3ff) = 56320 + n mod 1024.
Proof.
  change 0x3ff with (N.ones 10). change 0xdc00 with (N.shiftl 55 10).
  rewrite N.land_ones.
  rewrite lor_shiftl_small by (apply N.mod_lt; done).
  change (N.shiftl 55 10) with 56320. change (2 ^ 10) with 1024. lia.
Qed.

Lemma join_surrogates_halves n :
  n < 1048576 →
  join_surrogates (55296 + n / 1024) (56320 + n mod 1024) = n + 65536.
Proof.
  intros Hn. unfold join_surrogates. change 0x3FF with (N.ones 10).
  rewrite !N.land_ones. change (2 ^ 10) with 1024.
  rewrite lor_shiftl_small by (change (2 ^ 10) with 1024; lia).
  change (2 ^ 10) with 1024. change 0x10000 with 65536. lia.
Qed.

(** How [scanstring] goes on after each kind of head. *)
Lemma scanstring_plain c t :
  c ≠ 34 → c ≠ 92 → 0x1f < c →
  scanstring (c :: t) = cons_char c (scanstring t).
Proof.
  intros H1 H2 H3. simpl. chr_norm.
  rewrite (proj2 (N.eqb_neq c 34) H1), (proj2 (N.eqb_neq c 92) H2).
  by rewrite (proj2 (N.leb_gt c 31) H3).
Qed.

Lemma scanstring_short e c t :
  e ≠ 117 → unescape e = Some c →
  scanstring (92 :: e :: t) = cons_char c (scanstring t).
Proof.
  intros H1 H2. simpl. chr_norm.
  change (92 =? 34) with false. change (92 =? 92) with true. cbv beta iota.
  by rewrite (proj2 (N.eqb_neq e 117) H1), H2.
Qed.

Lemma scanstring_u_single a b c d u t :
  hex4_value a b c d = Some u →
  (is_high_surrogate u = true → no_low_escape t) →
  scanstring (92 :: 117 :: a :: b :: c :: d :: t) = cons_char u (scanstring t).
Proof.
  intros Hu Hsafe. simpl. chr_norm.
  change (92 =? 34) with false. change (92 =? 92) with true.
  change (117 =? 117) with true. cbv beta iota. rewrite Hu.
  destruct (is_high_surrogate u); [|done]. specialize (Hsafe eq_refl).
  destruct t as [|x [|y [|a2 [|b2 [|c2 [|d2 t']]]]]]; try done.
  destruct ((x =? 92) && (y =? 117)) eqn:E; [|done].
  apply andb_true_iff in E as [->%N.eqb_eq ->%N.eqb_eq].
  destruct (Hsafe a2 b2 c2 d2 t' eq_refl) as (u2 & -> & ->). done.
Qed.

Lemma scanstring_u_pair a b c d u a2 b2 c2 d2 u2 t :
  hex4_value a b c d = Some u → is_high_surrogate u = true →
  hex4_value a2 b2 c2 d2 = Some u2 → is_low_surrogate u2 = true →
  scanstring (92 :: 117 :: a :: b :: c :: d :: 92 :: 117 :: a2 :: b2 :: c2 :: d2 :: t)
  = cons_char (join_surrogates u u2) (scanstring t).
Proof.
  intros Hu Hh Hu2 Hl. simpl. chr_norm.
  change (92 =? 34) with false. change (92 =? 92) with true.
  change (117 =? 117) with true. cbv beta iota.
  by rewrite Hu, Hh, Hu2, Hl.
Qed.

Lemma is_high_surrogate_spec u : is_high_surrogate u = true ↔ 55296 ≤ u ≤ 56319.
Proof. unfold is_high_surrogate. rewrite andb_true_iff, !N.leb_le. done. Qed.

Lemma is_low_surrogate_spec u : is_low_surrogate u = true ↔ 56320 ≤ u ≤ 57343.
Proof. unfold is_low_surrogate. rewrite andb_true_iff, !N.leb_le. done. Qed.

(** One character, escaped and scanned. *)
Lemma scanstring_escape_char c t :
  c < 0x110000 →
  (is_high_surrogate c = true → no_low_escape t) →
  scanstring (escape_char c ++ t) = cons_char c (scanstring t).
Proof.
  intros Hc Hs. unfold escape_char. chr_norm.
  destruct (c =? 34) eqn:E1.
  { apply N.eqb_eq in E1 as ->. by apply (scanstring_short 34 34). }
  destruct (c =? 92) eqn:E2.
  { apply N.eqb_eq in E2 as ->. by apply (scanstring_short 92 92). }
  destruct (c =? 10) eqn:E3.
  { apply N.eqb_eq in E3 as ->. by apply (scanstring_short 110 10). }
  destruct (c =? 13) eqn:E4.
  { apply N.eqb_eq in E4 as ->. by apply (scanstring_short 114 13). }
  destruct (c =? 9) eqn:E5.
  { apply N.eqb_eq in E5 as ->. by apply (scanstring_short 116 9). }
  destruct (c =? 8) eqn:E6.
  { apply N.eqb_eq in E6 as ->. by apply (scanstring_short 98 8). }
  destruct (c =? 12) eqn:E7.
  { apply N.eqb_eq in E7 as ->. by apply (scanstring_short 102 12). }
  apply N.eqb_neq in E1, E2.
  destruct ((32 <=? c) && (c <=? 126)) eqn:E8.
  { apply andb_true_iff in E8 as [H1%N.leb_le H2%N.leb_le].
    apply scanstring_plain; try done. change 0x1f with 31. lia. }
  destruct (c <? 0x10000) eqn:E9.
  { apply N.ltb_lt in E9. unfold u_escape. chr_norm.
    apply scanstring_u_single; [by apply hex4_value_u_escape|done]. }
  apply N.ltb_ge in E9. change 0x10000 with 65536 in *. change 0x110000 with 1114112 in *.
  assert (Hn : c - 65536 < 1048576) by lia.
  rewrite high_half, low_half by done.
  unfold u_escape. chr_norm. simpl app.
  etransitivity.
  { apply scanstring_u_pair.
    - apply hex4_value_u_escape. lia.
    - apply is_high_surrogate_spec. lia.
    - apply hex4_value_u_escape. lia.
    - apply is_low_surrogate_spec. lia. }
  rewrite join_surrogates_halves by done. f_equal. lia.
Qed.

Lemma no_low_escape_quote rest : no_low_escape (34 :: rest).
Proof. intros a b c d t'. chr_norm. done. Qed.

Lemma no_low_escape_escape_char c t :
  c < 0x110000 → is_low_surrogate c = false →
  no_low_escape (escape_char c ++ t).
Proof.
  intros Hc Hl a b c' d t'. unfold escape_char. chr_norm.
  repeat (match goal with
          | |- context [if ?b then _ else _] => destruct b eqn:?
          end; [simpl; try (intros [=]; fail)|]).
  - intros [= ->]. done.
  - apply N.ltb_lt in Heqb8. unfold u_escape. chr_norm. simpl.
    intros [= <- <- <- <- <-]. exists c. split; [|done].
    by apply hex4_value_u_escape.
  - apply N.ltb_ge in Heqb8.
    change 0x10000 with 65536 in *. change 0x110000 with 1114112 in *.
    rewrite high_half by lia. unfold u_escape. chr_norm. simpl.
    intros [= <- <- <- <- <-]. eexists. split.
    + apply hex4_value_u_escape. lia.
    + apply not_true_iff_false. rewrite is_low_surrogate_spec. lia.
Qed.

(** A safe string, encoded and scanned, is read back whole. *)
Lemma scanstring_encode s rest :
  str_safe s = true →
  scanstring (concat (map escape_char s) ++ 34 :: rest) = Some (s, rest).
Proof.
  induction s as [|c s IH]; intros Hs; [done|].
  simpl in Hs. apply andb_true_iff in Hs as [Hs Hs'].
  apply andb_true_iff in Hs as [Hc%N.ltb_lt Hpair%negb_true_iff].
  simpl. rewrite <- app_assoc. rewrite scanstring_escape_char; [by rewrite IH| done |].
  intros Hh. rewrite Hh in Hpair. simpl in Hpair.
  destruct s as [|c' s]; [apply no_low_escape_quote|].
  simpl. rewrite <- app_assoc. apply no_low_escape_escape_char; [|done].
  simpl in Hs'. apply andb_true_iff in Hs' as [Hs' _].
  apply andb_true_iff in Hs' as [Hc'%N.ltb_lt _]. done.
Qed.

Lemma scan_encode_basestring_ascii s rest :
  str_safe s = true →
  ∃ t, encode_basestring_ascii s ++ rest = 34 :: t
       ∧ scanstring t = Some (s, rest).
Proof.
  intros Hs. exists (concat (map escape_char s) ++ 34 :: rest).
  split; [|by apply scanstring_encode].
  unfold encode_basestring_ascii. simpl. by rewrite <- app_assoc.
Qed.
Local Close Scope N_scope.


(** * JSON text: containers there and back *)

(** Induction on Python values, with the items of a container at hand. *)
Lemma pyval_ind' (P : pyval → Prop) :
  P PNone → (∀ b, P (PBool b)) → (∀ z, P (PInt z)) → (∀ r, P (PFloat r)) →
  (∀ s, P (PStr s)) →
  (∀ l, Forall P l → P (PList l)) →
  (∀ l, Forall P l → P (PTuple l)) →
  (∀ items, Forall (λ kv, P kv.2) items → P (PDict items)) →
  ∀ o, P o.
Proof.
  intros HN HB HI HF HS HL HT HD.
  fix IH 1. intros [| b | z | r | s | l | l | items].
  - apply HN.
  - apply HB.
  - apply HI.
  - apply HF.
  - apply HS.
  - apply HL. induction l as [|x l IHl]; constructor; [apply IH|apply IHl].
  - apply HT. induction l as [|x l IHl]; constructor; [apply IH|apply IHl].
  - apply HD. induction items as [|[k x] l IHl]; constructor; [apply IH|apply IHl].
Qed.

(** *** Sorting the items of a dict *)

Section sorting.
Context {X : Type}.
Implicit Types (l : list (pykey * X)) (x : pykey * X).

Lemma insert_item_Permutation x l : insert_item x l ≡ₚ x :: l.
Proof.
    induction l as [|y l IH]; simpl; [done|].
    destruct (key_ltb y.1 x.1); [|done].
    rewrite IH. apply Permutation_swap.
Qed.

Lemma sort_items_Permutation l : sort_items l ≡ₚ l.
Proof.
    induction l as [|x l IH]; simpl; [done|].
    unfold sort_items in *. simpl. by rewrite insert_item_Permutation, IH.
Qed.

Lemma sort_items_length l : length (sort_items l) = length l.
Proof. by rewrite sort_items_Permutation. Qed.

Lemma sort_items_nil l : sort_items l = [] → l = [].
Proof.
    intros H. apply Permutation_nil_r. rewrite <- H. symmetry.
    apply sort_items_Permutation.
Qed.
End sorting.

Lemma insert_item_map {X Y} (f : X → Y) (x : pykey * X) l :
  insert_item (x.1, f x.2) (map (λ kv, (kv.1, f kv.2)) l)
  = map (λ kv, (kv.1, f kv.2)) (insert_item x l).
Proof.
  induction l as [|y l IH]; simpl; [done|].
  destruct (key_ltb y.1 x.1); simpl; [by rewrite IH|done].
Qed.

(** Sorting looks at the keys only. *)
Lemma sort_items_map {X Y} (f : X → Y) (l : list (pykey * X)) :
  sort_items (map (λ kv, (kv.1, f kv.2)) l)
  = map (λ kv, (kv.1, f kv.2)) (sort_items l).
Proof.
  induction l as [|x l IH]; simpl; [done|].
  unfold sort_items in *. simpl. rewrite IH. apply (insert_item_map f x).
Qed.

(** *** White space and the head of a written value *)

Local Open Scope N_scope.

Lemma skip_ws_replicate n t : skip_ws (replicate n (chr " ") ++ t) = skip_ws t.
Proof. induction n as [|n IH]; simpl; [done|]. by rewrite IH. Qed.

Lemma skip_ws_newline_indent level t :
  skip_ws (newline_indent level ++ t) = skip_ws t.
Proof. unfold newline_indent. simpl. apply skip_ws_replicate. Qed.

Lemma skip_ws_cons c t : is_ws c = false → skip_ws (c :: t) = c :: t.
Proof. intros H. simpl. by rewrite H. Qed.

Lemma skip_ws_space t : skip_ws (32 :: t) = skip_ws t.
Proof. done. Qed.

Lemma skip_ws_starts_value t rest :
  starts_value t → skip_ws (t ++ rest) = t ++ rest.
Proof. intros (c & t' & -> & Hc & _). simpl. by rewrite Hc. Qed.

Lemma join_cons_app sep c cs t :
  join sep (c :: cs) ++ t
  = c ++ match cs with [] => t | _ :: _ => sep ++ join sep cs ++ t end.
Proof. destruct cs; simpl; [done|]. by rewrite <- !app_assoc. Qed.

Lemma ends_value_newline_indent level t : ends_value (newline_indent level ++ t).
Proof. right. done. Qed.

Lemma ends_value_comma t : ends_value (chr "," :: t).
Proof. by left. Qed.

(** *** The loops of the decoder on what the encoder writes *)

#[local] Arguments newline_indent : simpl never.
#[local] Arguments skip_ws : simpl never.

Section loops.
Variable scan : list N → pyval * list N + exn.
Variable enc : pyval → list N.
Variable res : pyval → pyval.

Lemma parse_array_items_join level vs rest n :
    vs ≠ [] → (length vs ≤ n)%nat → Forall (reads_back scan enc res) vs →
    parse_array_items scan n
      (join (chr "," :: newline_indent (S level)) (map enc vs)
       ++ newline_indent level ++ chr "]" :: rest)
    = inl (map res vs, rest).
Proof.
    revert n. induction vs as [|v vs IH]; [done|]. intros n _ Hn HF.
    destruct n as [|n]; [simpl in Hn; lia|].
    inversion HF as [|? ? [Hstart Hscan] HF']; subst.
    simpl map. rewrite join_cons_app. cbn [parse_array_items].
    destruct vs as [|v' vs].
    - simpl map. cbv iota. rewrite Hscan by apply ends_value_newline_indent.
      rewrite skip_ws_newline_indent. chr_norm.
      rewrite skip_ws_cons by done. done.
    - cbn [map]. cbv iota. rewrite Hscan by apply ends_value_comma.
      chr_norm. cbn [app]. rewrite skip_ws_cons by done. cbv iota.
      change (44 =? 93) with false. change (44 =? 44) with true. cbv iota.
      rewrite skip_ws_newline_indent.
      change (enc v' :: map enc vs) with (map enc (v' :: vs)).
      inversion HF' as [|? ? [Hs' _] _]; subst.
      rewrite (skip_ws_starts_value (join _ _)).
      2:{ simpl map. rewrite <- (app_nil_r (join _ _)), join_cons_app.
          destruct Hs' as (c & t' & -> & ?). by eexists c, _. }
      pose proof (IH n ltac:(done) ltac:(simpl in *; lia) HF') as IH'.
      chr_norm. rewrite IH'. done.
Qed.

Lemma parse_object_items_join level (kvs : list (pystr * pyval)) rest n :
    kvs ≠ [] → (length kvs ≤ n)%nat →
    Forall (λ kv, str_safe kv.1 = true ∧ reads_back scan enc res kv.2) kvs →
    parse_object_items scan n
      (join (chr "," :: newline_indent (S level)) (map (item_text enc) kvs)
       ++ newline_indent level ++ chr "}" :: rest)
    = inl (map (λ kv, (kv.1, res kv.2)) kvs, rest).
Proof.
    revert n. induction kvs as [|[k v] kvs IH]; [done|]. intros n _ Hn HF.
    destruct n as [|n]; [simpl in Hn; lia|].
    inversion HF as [|? ? [Hk [Hstart Hscan]] HF']; subst. simpl in Hk, Hstart, Hscan.
    assert (Hitem : ∀ t, item_text enc (k, v) ++ t
                         = 34 :: concat (map escape_char k)
                           ++ 34 :: 58 :: 32 :: enc v ++ t).
    { intros t. unfold item_text, encode_basestring_ascii. chr_norm. simpl.
      by rewrite <- !app_assoc. }
    assert (Hstep : ∀ t, ends_value t →
      parse_object_items scan (S n) (item_text enc (k, v) ++ t)
      = match skip_ws t with
        | [] => inr JSONDecodeError
        | c3 :: r3 =>
            if c3 =? chr "}" then inl ([(k, res v)], r3)
            else if c3 =? chr ","
                 then match parse_object_items scan n (skip_ws r3) with
                      | inl (kvs, r4) => inl ((k, res v) :: kvs, r4)
                      | inr e => inr e
                      end
                 else inr JSONDecodeError
        end).
    { intros t Ht. rewrite Hitem. cbn [parse_object_items].
      change (34 =? 34) with true. cbn [negb]. cbv iota.
      rewrite scanstring_encode by done.
      rewrite skip_ws_cons by done. chr_norm.
      change (58 =? 58) with true. cbn [negb]. cbv iota.
      rewrite skip_ws_space, (skip_ws_starts_value _ _ Hstart), Hscan by done.
      done. }
    cbn [map]. rewrite join_cons_app.
    destruct kvs as [|kv' kvs]; cbn [map]; cbv iota.
    - rewrite Hstep by apply ends_value_newline_indent.
      rewrite skip_ws_newline_indent, skip_ws_cons by done. chr_norm. done.
    - rewrite Hstep by (cbn [app]; apply ends_value_comma).
      chr_norm. cbn [app]. rewrite skip_ws_cons by done. cbv iota.
      change (44 =? 125) with false. change (44 =? 44) with true. cbv iota.
      rewrite skip_ws_newline_indent.
      change (item_text enc kv' :: map (item_text enc) kvs) with (map (item_text enc) (kv' :: kvs)).
      inversion HF' as [|? ? [Hk' [Hs' _]] _]; subst.
      rewrite (skip_ws_starts_value (join _ _)).
      2:{ cbn [map]. rewrite <- (app_nil_r (join _ _)), join_cons_app.
          unfold item_text, encode_basestring_ascii. by eexists 34, _. }
      pose proof (IH n ltac:(done) ltac:(simpl in *; lia) HF') as IH'.
      chr_norm. rewrite IH'. done.
Qed.
End loops.

(** *** Building the dict *)

Lemma dict_set_fresh d k v :
  k ∉ map fst d → dict_set d k v = d ++ [(k, v)].
Proof.
  induction d as [|[k' v'] d IH]; simpl; [done|]. intros Hk.
  apply not_elem_of_cons in Hk as [Hne Hk].
  rewrite bool_decide_eq_false_2 by done. by rewrite IH.
Qed.

Lemma dict_of_pairs_acc pairs acc :
  NoDup (map fst acc ++ map (λ kv : pystr * pyval, KStr kv.1) pairs) →
  fold_left (λ d kv, dict_set d (KStr kv.1) kv.2) pairs acc
  = acc ++ map (λ kv, (KStr kv.1, kv.2)) pairs.
Proof.
  revert acc. induction pairs as [|[k v] pairs IH]; intros acc Hnd; simpl.
  - by rewrite app_nil_r.
  - simpl in Hnd. apply NoDup_app in Hnd as (Ha & Hdisj & Hp).
    rewrite dict_set_fresh.
    2:{ intros Hin. apply (Hdisj _ Hin). by left. }
    rewrite IH.
    + by rewrite <- app_assoc.
    + rewrite map_app. simpl. rewrite <- app_assoc. simpl.
      apply NoDup_app. split; [done|]. split; [|done].
      intros x Hx. apply Hdisj. done.
Qed.

(** Pairs with distinct keys make a dict with the same items, in order. *)
Lemma dict_of_pairs_NoDup pairs :
  NoDup (map fst pairs) →
  dict_of_pairs pairs = map (λ kv, (KStr kv.1, kv.2)) pairs.
Proof.
  intros Hnd. unfold dict_of_pairs. rewrite dict_of_pairs_acc; [done|].
  simpl. rewrite <- (map_map fst KStr).
  apply NoDup_fmap_2; [|done]. by intros ? ? [=].
Qed.

(** *** The named constants and the numbers *)

Lemma strip_prefix_head_ne a p b s : a ≠ b → strip_prefix (a :: p) (b :: s) = None.
Proof. intros H. simpl. by rewrite (proj2 (N.eqb_neq a b) H). Qed.

Lemma strip_prefix_app p s : strip_prefix p (p ++ s) = Some s.
Proof. induction p as [|a p IH]; simpl; [done|]. by rewrite N.eqb_refl. Qed.

Lemma match_constant_digit c t :
  is_digit c = true → match_constant (c :: t) = None.
Proof.
  intros Hc%is_digit_spec. unfold match_constant.
  change (str "null") with [110; 117; 108; 108].
  change (str "true") with [116; 114; 117; 101].
  change (str "false") with [102; 97; 108; 115; 101].
  change (str "NaN") with [78; 97; 78].
  change (str "Infinity") with [73; 110; 102; 105; 110; 105; 116; 121].
  change (str "-Infinity") with [45; 73; 110; 102; 105; 110; 105; 116; 121].
  rewrite !strip_prefix_head_ne by lia. done.
Qed.

Lemma match_constant_minus_digit c t :
  is_digit c = true → match_constant (45 :: c :: t) = None.
Proof.
  intros Hc%is_digit_spec. unfold match_constant.
  change (str "null") with [110; 117; 108; 108].
  change (str "true") with [116; 114; 117; 101].
  change (str "false") with [102; 97; 108; 115; 101].
  change (str "NaN") with [78; 97; 78].
  change (str "Infinity") with [73; 110; 102; 105; 110; 105; 116; 121].
  change (str "-Infinity") with [45; 73; 110; 102; 105; 110; 105; 116; 121].
  rewrite !strip_prefix_head_ne by lia.
  cbn [strip_prefix]. rewrite N.eqb_refl.
  rewrite (proj2 (N.eqb_neq 73 c)) by lia. done.
Qed.

(** The text of an integer: a digit, or a minus sign and a digit. *)
Lemma intstr_head z :
  ∃ c t, is_digit c = true ∧ (intstr z = c :: t ∨ intstr z = 45 :: c :: t).
Proof.
  unfold intstr. destruct (z <? 0)%Z.
  - destruct (digits_spec (Z.to_N (- z))) as (c & ds & -> & Hd & _).
    inversion Hd; subst. exists c, ds. split; [done|]. by right.
  - destruct (digits_spec (Z.to_N z)) as (c & ds & -> & Hd & _).
    inversion Hd; subst. exists c, ds. split; [done|]. by left.
Qed.

Lemma match_number_head float_of_literal s v r :
  match_number float_of_literal s = inl (v, r) →
  ∃ c t, is_digit c = true ∧ (s = c :: t ∨ s = 45 :: c :: t).
Proof.
  assert (Hint : ∀ s x, scan_int s = Some x → ∃ c t, is_digit c = true ∧ s = c :: t).
  { intros [|c t] x; [done|]. cbn [scan_int].
    destruct (c =? chr "0") eqn:E0.
    - apply N.eqb_eq in E0. subst c. intros _. exists (chr "0"), t. by vm_compute.
    - destruct (is_digit c) eqn:Ed; [|done]. intros _. by exists c, t. }
  unfold match_number. destruct s as [|c s']; [done|].
  cbn [scan_sign]. destruct (c =? chr "-") eqn:Ec.
  - apply N.eqb_eq in Ec. subst c.
    destruct (scan_int s') as [x|] eqn:Ei; [|done]. intros _.
    destruct (Hint _ _ Ei) as (c & t & Hc & ->). exists c, t. split; [done|]. by right.
  - destruct (scan_int (c :: s')) as [x|] eqn:Ei; [|done]. intros _.
    destruct (Hint _ _ Ei) as (c' & t & Hc & E). exists c', t. split; [done|]. by left.
Qed.

Section values.
Variable float_of_literal : pystr → pystr.
#[local] Abbreviation scan_once := (scan_once float_of_literal).

  (** A text that starts a number is handed to [match_number], whatever
      the budget. *)
Lemma scan_once_number budget s v r :
    match_number float_of_literal s = inl (v, r) →
    scan_once budget s = match_number float_of_literal s.
Proof.
    intros Hm. destruct (match_number_head _ _ _ _ Hm) as (c & t & Hc & [->| ->]).
    - pose proof (proj1 (is_digit_spec c) Hc).
      destruct budget; cbn [scan_once]; chr_norm;
        rewrite !(proj2 (N.eqb_neq c _)) by lia;
        by rewrite match_constant_digit.
    - destruct budget; cbn [scan_once]; chr_norm;
        change (45 =? 34) with false; change (45 =? 123) with false;
        change (45 =? 91) with false; cbv iota;
        by rewrite match_constant_minus_digit.
Qed.

Lemma scan_once_intstr budget z rest :
    int_fits z = true →
    ends_value rest →
    scan_once budget (intstr z ++ rest) = inl (PInt z, rest).
Proof.
    intros Hfit Hr.
    pose proof (match_number_intstr float_of_literal z rest Hfit Hr) as Hm.
    by rewrite (scan_once_number _ _ _ _ Hm).
Qed.

  (** The [repr] of a finite float is no name of a constant. *)
Lemma float_repr_floatstr r :
    float_repr float_of_literal r = true →
    match_number float_of_literal r = inl (PFloat r, []) ∧ floatstr r = r.
Proof.
    unfold float_repr. intros H.
    destruct (match_number float_of_literal r) as [[v r']|e] eqn:Hm; [|done].
    destruct v; try done. destruct r'; [|done].
    apply bool_decide_eq_true in H. subst. split; [done|].
    destruct (match_number_head _ _ _ _ Hm) as (c & t & Hc & Hr).
    apply is_digit_spec in Hc. unfold floatstr.
    rewrite !bool_decide_eq_false_2; [done|..];
      intros ->; destruct Hr as [Hr|Hr]; vm_compute in Hr;
      injection Hr as; subst; lia.
Qed.

Lemma scan_once_float budget r rest :
    float_repr float_of_literal r = true →
    ends_value rest →
    scan_once budget (floatstr r ++ rest) = inl (PFloat r, rest).
Proof.
    intros [Hm ->]%float_repr_floatstr Hr.
    pose proof (match_number_app float_of_literal _ _ _ rest Hm Hr) as Happ.
    by rewrite (scan_once_number _ _ _ _ Happ).
Qed.

Lemma starts_value_iterencode level o :
    json_safe float_of_literal o = true → starts_value (iterencode level o).
Proof.
    destruct o as [| [] | z | r | s | [|x l] | l | [|kv items]]; try done; intros Hs.
    - by eexists 110, _.
    - by eexists 116, _.
    - by eexists 102, _.
    - cbn [iterencode].
      destruct (intstr_head z) as (c & t & Hc & [E|E]); rewrite E.
      + apply is_digit_spec in Hc. exists c, t.
        split; [done|]. split.
        { unfold is_ws. chr_norm. rewrite !(proj2 (N.eqb_neq c _)) by lia. done. }
        chr_norm. lia.
      + by eexists 45, _.
    - cbn [iterencode]. cbn [json_safe] in Hs.
      apply orb_true_iff in Hs as [Hs|Hs]; [apply orb_true_iff in Hs as [Hs|Hs]|].
      + apply float_repr_floatstr in Hs as [Hm ->].
        destruct (match_number_head _ _ _ _ Hm) as (c & t & Hc & [->| ->]).
        * apply is_digit_spec in Hc. exists c, t.
          split; [done|]. split.
          { unfold is_ws. chr_norm. rewrite !(proj2 (N.eqb_neq c _)) by lia. done. }
          chr_norm. lia.
        * by eexists 45, _.
      + apply bool_decide_eq_true in Hs. subst r. by eexists 73, _.
      + apply bool_decide_eq_true in Hs. subst r. by eexists 45, _.
    - by eexists 34, _.
    - by eexists 91, _.
    - by eexists 91, _.
    - by eexists 123, _.
    - by eexists 123, _.
Qed.

End values.

Lemma join_length sep chunks :
  Forall (λ c : list N, c ≠ []) chunks → (length chunks ≤ length (join sep chunks))%nat.
Proof.
  induction 1 as [|c cs Hc _ IH]; simpl; [done|].
  destruct cs as [|c' cs].
  - destruct c; [done|]. simpl. lia.
  - rewrite !length_app. destruct c; [done|]. simpl in *. lia.
Qed.

Lemma parse_array_nonempty scan s vs r :
  (∃ c t, skip_ws s = c :: t ∧ c ≠ chr "]") →
  parse_array_items scan (length (skip_ws s)) (skip_ws s) = inl (vs, r) →
  parse_array scan s = inl (PList vs, r).
Proof.
  intros (c & t & E & Hc) H. unfold parse_array. rewrite E in *.
  rewrite (proj2 (N.eqb_neq c _) Hc). by rewrite H.
Qed.

Lemma parse_object_nonempty scan s kvs r :
  (∃ c t, skip_ws s = c :: t ∧ c ≠ chr "}") →
  parse_object_items scan (length (skip_ws s)) (skip_ws s) = inl (kvs, r) →
  parse_object scan s = inl (PDict (dict_of_pairs kvs), r).
Proof.
  intros (c & t & E & Hc) H. unfold parse_object. rewrite E in *.
  rewrite (proj2 (N.eqb_neq c _) Hc). by rewrite H.
Qed.

Lemma nesting_list_items l n :
  (foldr (λ x n, Nat.max (nesting x) n) O l ≤ n)%nat → Forall (λ x, (nesting x ≤ n)%nat) l.
Proof.
  induction l as [|x l IH]; simpl; [done|]. intros H.
  constructor; [lia|apply IH; lia].
Qed.

Lemma nesting_dict_items (items : list (pykey * pyval)) n :
  (foldr (λ kv n, Nat.max (nesting kv.2) n) O items ≤ n)%nat →
  Forall (λ kv, (nesting kv.2 ≤ n)%nat) items.
Proof.
  induction items as [|x l IH]; simpl; [done|]. intros H.
  constructor; [lia|apply IH; lia].
Qed.

Lemma forallb_Forall_true {A} (f : A → bool) l :
  forallb f l = true ↔ Forall (λ x, f x = true) l.
Proof.
  induction l as [|x l IH]; simpl; [done|].
  rewrite andb_true_iff, IH, Forall_cons. done.
Qed.

Section roundtrip.
Variable float_of_literal : pystr → pystr.
#[local] Abbreviation scan_once := (scan_once float_of_literal).

  (** What [iterencode] writes for a safe value whose integers are within
      the limit of digits is read by [scan_once], given a budget for its
      nesting, as the value with its dicts sorted. *)
Lemma scan_once_iterencode o :
    json_safe float_of_literal o = true → ints_fit o = true →
    ∀ level budget rest, (nesting o ≤ budget)%nat → ends_value rest →
    scan_once budget (iterencode level o ++ rest) = inl (canon o, rest).
Proof.
    induction o as [| b | z | r | s | l IH | l IH | items IH] using pyval_ind';
      intros Hsafe Hfit level budget rest Hd Hr; try done.
    - by destruct budget.
    - by destruct b, budget.
    - by apply scan_once_intstr.
    - cbn [iterencode canon]. cbn [json_safe] in Hsafe.
      apply orb_true_iff in Hsafe as [Hs|Hs]; [apply orb_true_iff in Hs as [Hs|Hs]|].
      + by apply scan_once_float.
      + apply bool_decide_eq_true in Hs. subst r. by destruct budget.
      + apply bool_decide_eq_true in Hs. subst r. by destruct budget.
    - simpl in Hsafe. cbn [iterencode canon].
      destruct (scan_encode_basestring_ascii s rest Hsafe) as (t & -> & Hscan).
      destruct budget; cbn [scan_once]; change (34 =? 34) with true; cbv iota;
        by rewrite Hscan.
    - (* lists *)
      destruct budget as [|fuel]; [simpl in Hd; lia|].
      destruct l as [|x l]; [done|].
      assert (Hitems : Forall (reads_back (scan_once fuel) (iterencode (S level)) canon) (x :: l)).
      { cbn [nesting] in Hd. apply Nat.succ_le_mono in Hd.
        apply (nesting_list_items (x :: l)) in Hd.
        change (forallb (json_safe float_of_literal) (x :: l) = true) in Hsafe.
        change (forallb ints_fit (x :: l) = true) in Hfit.
        apply forallb_Forall_true in Hsafe. apply forallb_Forall_true in Hfit.
        revert Hsafe Hfit Hd. generalize (x :: l) IH. clear.
        induction 1 as [|y l' Hy _ IH]; intros Hs Hf Hd; [done|].
        inversion Hs; inversion Hf; inversion Hd; subst. constructor; [|by apply IH].
        split; [by apply (starts_value_iterencode float_of_literal)|].
        intros rest Hr. by apply Hy. }
      set (vs := x :: l) in *.
      cbn [canon]. unfold iterencode; fold iterencode. subst vs.
      change (match x :: l with [] => str "[]" | _ :: _ => ?b end) with b.
      set (vs := x :: l) in *.
      unfold bracketed. chr_norm. cbn [app scan_once].
      change (91 =? 34) with false. change (91 =? 123) with false.
      change (91 =? 91) with true. cbv iota.
      rewrite <- !app_assoc. cbn [app].
      assert (Hhead : starts_value (join (44 :: newline_indent (S level))
                                     (map (iterencode (S level)) vs))).
      { subst vs. cbn [map]. rewrite <- (app_nil_r (join _ _)), join_cons_app.
        inversion Hitems as [|? ? [(c & t' & Hc & ?) _] _]; subst.
        rewrite Hc. by eexists c, _. }
      apply parse_array_nonempty; rewrite skip_ws_newline_indent,
        (skip_ws_starts_value _ _ Hhead).
      { destruct Hhead as (c & t' & -> & _ & ? & _). by eexists c, _. }
      chr_norm. apply (parse_array_items_join (scan_once fuel) (iterencode (S level)) canon);
        [done| |done].
      rewrite length_app. etransitivity; [|apply Nat.le_add_r].
      rewrite <- (length_map (iterencode (S level)) vs).
      apply join_length. apply Forall_map.
      eapply Forall_impl; [exact Hitems|].
      intros v [(c & t' & -> & _) _]. done.
    - (* dicts *)
      destruct budget as [|fuel]; [simpl in Hd; lia|].
      destruct items as [|kv0 items]; [done|].
      set (its := kv0 :: items) in *.
      cbn [json_safe] in Hsafe. apply andb_true_iff in Hsafe as [Hnd Hsafe].
      apply bool_decide_eq_true in Hnd.
      apply forallb_Forall_true in Hsafe.
      cbn [ints_fit] in Hfit. apply forallb_Forall_true in Hfit.
      assert (Hitems : Forall (λ kv, (∃ k, kv.1 = KStr k ∧ str_safe k = true)
                                     ∧ reads_back (scan_once fuel) (iterencode (S level)) canon kv.2)
                         its).
      { cbn [nesting] in Hd. apply Nat.succ_le_mono in Hd.
        apply (nesting_dict_items its) in Hd.
        revert Hsafe Hfit Hd. generalize its IH. clear.
        induction 1 as [|[k y] l' Hy _ IH]; intros Hs Hf Hd; [done|].
        inversion Hs as [|? ? Hs1 Hs2]; inversion Hf as [|? ? Hf1 Hf2];
          inversion Hd; subst.
        constructor; [|by apply IH].
        simpl in *. apply andb_true_iff in Hs1 as [Hk Hv].
        apply andb_true_iff in Hf1 as [_ Hf1].
        destruct k as [k| | |]; try done.
        split; [by exists k|].
        split; [by apply (starts_value_iterencode float_of_literal)|].
        intros rest Hr. by apply Hy. }
      cbn [canon]. unfold iterencode; fold iterencode. subst its.
      change (match kv0 :: items with [] => str "{}" | _ :: _ => ?b end) with b.
      set (its := kv0 :: items) in *.
      rewrite (sort_items_map (iterencode (S level)) its).
      rewrite (sort_items_map canon its).
      set (sorted := sort_items its).
      assert (Hsorted : Forall (λ kv, (∃ k, kv.1 = KStr k ∧ str_safe k = true)
                                      ∧ reads_back (scan_once fuel) (iterencode (S level)) canon kv.2)
                          sorted).
      { subst sorted. by rewrite sort_items_Permutation. }
      assert (Hne : sorted ≠ []).
      { subst sorted its. intros H%sort_items_nil. done. }
      set (kvs := map (λ kv : pykey * pyval, (key_str kv.1, kv.2)) sorted).
      assert (Hchunks : map dict_chunk (map (λ kv, (kv.1, iterencode (S level) kv.2)) sorted)
                        = map (item_text (iterencode (S level))) kvs).
      { subst kvs. rewrite !map_map. done. }
      rewrite Hchunks.
      unfold bracketed. chr_norm. cbn [app scan_once].
      change (123 =? 34) with false. change (123 =? 123) with true. cbv iota.
      rewrite <- !app_assoc. cbn [app].
      assert (Hkvs : Forall (λ kv, str_safe kv.1 = true
                                   ∧ reads_back (scan_once fuel) (iterencode (S level)) canon kv.2)
                       kvs).
      { subst kvs. apply Forall_map. eapply Forall_impl; [exact Hsorted|].
        intros [k v] [(k' & Hk & Hs) Hrb]. simpl in *. subst k. done. }
      assert (Hkne : kvs ≠ []).
      { subst kvs. destruct sorted; done. }
      assert (Hhead : starts_value (join (44 :: newline_indent (S level))
                                     (map (item_text (iterencode (S level))) kvs))).
      { destruct kvs as [|kv kvs']; [done|].
        cbn [map]. rewrite <- (app_nil_r (join _ _)), join_cons_app.
        unfold item_text, encode_basestring_ascii. by eexists 34, _. }
      assert (Hres : dict_of_pairs (map (λ kv, (kv.1, canon kv.2)) kvs)
                     = map (λ kv, (kv.1, canon kv.2)) sorted).
      { rewrite dict_of_pairs_NoDup.
        - subst kvs. rewrite !map_map. apply map_ext_Forall.
          eapply Forall_impl; [exact Hsorted|].
          intros [k v] [(k' & Hk & _) _]. simpl in *. by subst k.
        - subst kvs. rewrite !map_map. simpl.
          assert (Hperm : map fst sorted ≡ₚ map fst its)
            by (subst sorted; by rewrite sort_items_Permutation).
          rewrite <- Hperm in Hnd.
          revert Hnd Hsorted. generalize sorted. clear.
          induction sorted as [|[k v] l IH]; intros Hnd HF; [constructor|].
          inversion Hnd as [|? ? Hnotin Hnd']; inversion HF as [|? ? [(k' & Hk & _) _] HF']; subst.
          simpl in *. subst k. constructor; [|by apply IH].
          intros Hin. apply Hnotin.
          apply list_elem_of_fmap in Hin as ([k2 v2] & Hk2 & Hin).
          apply list_elem_of_fmap. exists (k2, v2). split; [|done].
          simpl in *. rewrite Forall_forall in HF'.
          destruct (HF' _ Hin) as [(k3 & Hk3 & _) _]. simpl in Hk3. subst. done. }
      rewrite <- Hres.
      apply parse_object_nonempty; rewrite skip_ws_newline_indent,
        (skip_ws_starts_value _ _ Hhead).
      { destruct Hhead as (c & t' & -> & _ & _ & ? & _). by eexists c, _. }
      chr_norm.
      apply (parse_object_items_join (scan_once fuel) (iterencode (S level)) canon);
        [done| |done].
      rewrite length_app. etransitivity; [|apply Nat.le_add_r].
      rewrite <- (length_map (item_text (iterencode (S level))) kvs).
      apply join_length. apply Forall_map. apply Forall_true.
      intros kv. unfold item_text, encode_basestring_ascii. done.
Qed.
End roundtrip.
Local Close Scope N_scope.


(** * [json.loads] after [json.dumps] *)

Lemma join_chunk_length sep chunks c :
  c ∈ chunks → (length c ≤ length (join sep chunks))%nat.
Proof.
  induction chunks as [|c' cs IH]; [by intros ?%elem_of_nil|].
  intros [->|Hin]%elem_of_cons; simpl.
  - destruct cs; [done|]. rewrite length_app. lia.
  - destruct cs as [|c'' cs]; [by apply elem_of_nil in Hin|].
    rewrite !length_app. specialize (IH Hin). lia.
Qed.

Lemma bracketed_length o c level chunks :
  (length (join (chr "," :: newline_indent (S level)) chunks) + 2
   ≤ length (bracketed o c level chunks))%nat.
Proof. unfold bracketed. simpl. rewrite !length_app. simpl. lia. Qed.

Lemma foldr_max_le {A} (f : A → nat) l n :
  Forall (λ x, (f x ≤ n)%nat) l → (foldr (λ x m, Nat.max (f x) m) O l ≤ n)%nat.
Proof. induction 1; simpl; lia. Qed.

(** *** The exceptions of the decoder *)

Section raises.
Variable P : exn → Prop.
Hypothesis PJ : P JSONDecodeError.
Variable scan : list N → pyval * list N + exn.
Hypothesis Hscan : ∀ s e, scan s = inr e → P e.

Lemma parse_array_items_raises n s e :
    parse_array_items scan n s = inr e → P e.
Proof.
    revert s. induction n as [|n IH]; intros s; cbn [parse_array_items].
    { by intros [= <-]. }
    destruct (scan s) as [[v r]|e'] eqn:Es; [|intros [= <-]; by eapply Hscan].
    destruct (skip_ws r) as [|c r1]; [by intros [= <-]|].
    destruct (c =? chr "]")%N; [done|].
    destruct (c =? chr ",")%N; [|by intros [= <-]].
    destruct (parse_array_items scan n (skip_ws r1)) as [[vs r2]|e'] eqn:Ei; [done|].
    intros [= <-]. by eapply IH.
Qed.

Lemma parse_array_raises s e : parse_array scan s = inr e → P e.
Proof.
    unfold parse_array. destruct (skip_ws s) as [|c r] eqn:E; [by intros [= <-]|].
    destruct (c =? chr "]")%N; [done|].
    destruct (parse_array_items scan _ _) as [[vs r']|e'] eqn:Ei; [done|].
    intros [= <-]. by eapply parse_array_items_raises.
Qed.

Lemma parse_object_items_raises n s e :
    parse_object_items scan n s = inr e → P e.
Proof.
    revert s. induction n as [|n IH]; intros s; cbn [parse_object_items].
    { by intros [= <-]. }
    destruct s as [|c s1]; [by intros [= <-]|].
    destruct (negb (c =? 34)%N); [by intros [= <-]|].
    destruct (scanstring s1) as [[k r]|]; [|by intros [= <-]].
    destruct (skip_ws r) as [|c2 r1]; [by intros [= <-]|].
    destruct (negb (c2 =? chr ":")%N); [by intros [= <-]|].
    destruct (scan (skip_ws r1)) as [[v r2]|e'] eqn:Es; [|intros [= <-]; by eapply Hscan].
    destruct (skip_ws r2) as [|c3 r3]; [by intros [= <-]|].
    destruct (c3 =? chr "}")%N; [done|].
    destruct (c3 =? chr ",")%N; [|by intros [= <-]].
    destruct (parse_object_items scan n (skip_ws r3)) as [[kvs r4]|e'] eqn:Ei; [done|].
    intros [= <-]. by eapply IH.
Qed.

Lemma parse_object_raises s e : parse_object scan s = inr e → P e.
Proof.
    unfold parse_object. destruct (skip_ws s) as [|c r] eqn:E; [by intros [= <-]|].
    destruct (c =? chr "}")%N; [done|].
    destruct (parse_object_items scan _ _) as [[vs r']|e'] eqn:Ei; [done|].
    intros [= <-]. by eapply parse_object_items_raises.
Qed.
End raises.

Lemma match_number_raises float_of_literal s e :
  match_number float_of_literal s = inr e → e = JSONDecodeError ∨ e = ValueError.
Proof.
  unfold match_number. destruct (scan_sign s) as [sign s1].
  destruct (scan_int s1) as [[ip r1]|]; [|intros [= <-]; by left].
  destruct (scan_frac r1) as [frac r2]. destruct (scan_exp r2) as [ex r3].
  destruct frac, ex; try done.
  destruct (length ip <=? int_max_str_digits)%nat; [done|]. intros [= <-]. by right.
Qed.

(** [scan_once] raises [JSONDecodeError], [ValueError] for an integer of
    too many digits, or [RecursionError], and nothing else. *)
Lemma scan_once_raises float_of_literal budget s e :
  scan_once float_of_literal budget s = inr e →
  e = JSONDecodeError ∨ e = ValueError ∨ e = RecursionError.
Proof.
  revert s e. induction budget as [|budget IH]; intros s e;
    (destruct s as [|c s']; cbn [scan_once]; [intros [= <-]; by left|]);
    (destruct (c =? 34)%N;
     [destruct (scanstring s') as [[t r]|]; [done|intros [= <-]; by left]|]);
    destruct (c =? chr "{")%N.
  - intros [= <-]. by right; right.
  - destruct (c =? chr "[")%N; [intros [= <-]; by right; right|].
    destruct (match_constant (c :: s')); [done|].
    intros [?|?]%match_number_raises; auto.
  - apply (parse_object_raises
             (λ e, e = JSONDecodeError ∨ e = ValueError ∨ e = RecursionError));
      [by left|apply IH].
  - destruct (c =? chr "[")%N;
      [apply (parse_array_raises
                (λ e, e = JSONDecodeError ∨ e = ValueError ∨ e = RecursionError));
       [by left|apply IH]|].
    destruct (match_constant (c :: s')); [done|].
    intros [?|?]%match_number_raises; auto.
Qed.

(** What [json.dumps] returns, when it returns. *)
Lemma dumps_inl `{Limits} o text :
  dumps o = inl text ↔
  serializable o = true ∧ ints_fit o = true
  ∧ (frames o ≤ encoder_depth)%nat ∧ text = iterencode 0 o.
Proof.
  unfold dumps.
  destruct (serializable o), (ints_fit o),
    (frames o <=? encoder_depth)%nat eqn:E; simpl;
    try apply Nat.leb_le in E; try apply Nat.leb_gt in E;
    split; try done; try (intros (? & ? & ? & ?); done || lia).
  - by intros [= <-].
  - by intros (_ & _ & _ & ->).
Qed.

Section loads_dumps.
Context `{Limits}.
Variable float_of_literal : pystr → pystr.

  (** A safe value has keys that compare: [json.dumps] accepts it. *)
Lemma json_safe_serializable o :
    json_safe float_of_literal o = true → serializable o = true.
Proof.
    induction o as [| b | z | r | s | l IH | l IH | items IH] using pyval_ind';
      intros Hsafe; try done.
    - simpl in *. apply forallb_Forall_true in Hsafe. apply forallb_Forall_true.
      rewrite Forall_forall in *. auto.
    - simpl in *. apply andb_true_iff in Hsafe as [_ Hsafe].
      apply forallb_Forall_true in Hsafe. apply andb_true_iff. split.
      + unfold sortable. apply orb_true_iff. left. apply orb_true_iff. right.
        apply forallb_Forall_true. apply Forall_map.
        eapply Forall_impl; [exact Hsafe|]. intros [[] v]; simpl; done.
      + apply forallb_Forall_true. rewrite Forall_forall in *.
        intros kv Hkv. apply IH; [done|].
        specialize (Hsafe kv Hkv). by apply andb_true_iff in Hsafe as [_ ?].
Qed.

Lemma loads_no_bom c t :
    c ≠ 0xFEFF%N →
    loads float_of_literal (c :: t)
    = match scan_once float_of_literal decoder_depth (skip_ws (c :: t)) with
      | inl (v, r) => match skip_ws r with [] => inl v | _ :: _ => inr JSONDecodeError end
      | inr e => inr e
      end.
Proof.
    intros Hc. unfold loads. destruct c as [|p]; [done|].
    do 16 (destruct p as [p|p|]; try done).
Qed.

  (** [json.loads(json.dumps(o, sort_keys=True, indent=2))] is [o] with the
      items of its dicts in the order of their keys, for a safe [o] that
      the decoder has the depth for. *)
Lemma loads_dumps o text :
    json_safe float_of_literal o = true →
    (nesting o ≤ decoder_depth)%nat →
    dumps o = inl text →
    loads float_of_literal text = inl (canon o).
Proof.
    intros Hsafe Hdepth (_ & Hfit & _ & ->)%dumps_inl.
    pose proof (scan_once_iterencode float_of_literal o Hsafe Hfit 0
                  decoder_depth [] Hdepth I) as Hscan.
    rewrite app_nil_r in Hscan.
    destruct (starts_value_iterencode float_of_literal 0 o Hsafe)
      as (c & t & E & Hws & _ & _ & Hbom).
    rewrite E in *. rewrite loads_no_bom by done.
    rewrite skip_ws_cons by done. by rewrite Hscan.
Qed.

  (** [json.loads] raises a [ValueError] ([JSONDecodeError] is one) or
      [RecursionError]. *)
Lemma loads_raises t e :
    loads float_of_literal t = inr e →
    e = JSONDecodeError ∨ e = ValueError ∨ e = RecursionError.
Proof.
    assert (Hgo : ∀ s, match scan_once float_of_literal decoder_depth (skip_ws s) with
                       | inl (v, r) => match skip_ws r with
                                       | [] => inl v
                                       | _ :: _ => inr JSONDecodeError
                                       end
                       | inr e => inr e
                       end = inr e →
                       e = JSONDecodeError ∨ e = ValueError ∨ e = RecursionError).
    { intros s. destruct (scan_once _ _ _) as [[v r]|e'] eqn:Es.
      - destruct (skip_ws r); [done|]. intros [= <-]. by left.
      - intros [= <-]. by eapply scan_once_raises. }
    unfold loads. destruct t as [|c t]; [apply Hgo|].
    destruct c as [|p]; [apply Hgo|].
    do 16 (destruct p as [p|p|]; try apply Hgo).
    intros [= <-]. by left.
Qed.
End loads_dumps.

(** *** The value read back equals the value written *)

Lemma dict_get_elem_of items k v :
  NoDup (map fst items) →
  Forall (λ kv : pykey * pyval, key_is_str kv.1 = true) items →
  (KStr k, v) ∈ items →
  dict_get items (KStr k) = Some v.
Proof.
  induction items as [|[k' v'] items IH]; intros Hnd Hstr Hin.
  { by apply elem_of_nil in Hin. }
  simpl in Hnd. apply NoDup_cons in Hnd as [Hnotin Hnd].
  apply Forall_cons in Hstr as [Hk' Hstr].
  destruct k' as [k''| | |]; try done. simpl.
  apply elem_of_cons in Hin as [[= -> ->]|Hin].
  - by rewrite bool_decide_eq_true_2.
  - rewrite bool_decide_eq_false_2; [by apply IH|].
    intros ->. apply Hnotin.
    by apply (list_elem_of_fmap_2 fst items (KStr k, v)).
Qed.

Lemma deep_equal_canon float_of_literal o :
  json_safe float_of_literal o = true → deep_equal (canon o) o = true.
Proof.
  induction o as [| b | z | r | s | l IH | l IH | items IH] using pyval_ind';
    intros Hsafe; try done.
  - simpl. by apply bool_decide_eq_true.
  - simpl. apply Z.eqb_refl.
  - cbn [canon deep_equal]. rewrite bool_decide_eq_true_2 by done.
    cbn [json_safe] in Hsafe.
    apply orb_true_iff in Hsafe as [Hs|Hs]; [apply orb_true_iff in Hs as [Hs|Hs]|].
    + apply float_repr_floatstr in Hs as [_ Hs].
      rewrite bool_decide_eq_false_2; [done|]. intros ->. done.
    + apply bool_decide_eq_true in Hs. by subst r.
    + apply bool_decide_eq_true in Hs. by subst r.
  - simpl. by apply bool_decide_eq_true.
  - change (forallb (json_safe float_of_literal) l = true) in Hsafe.
    apply forallb_Forall_true in Hsafe. cbn [canon deep_equal].
    induction l as [|x l IHl]; [done|].
    apply Forall_cons in IH as [IHx IH]. apply Forall_cons in Hsafe as [Hx Hsafe].
    cbn [map]. rewrite (IHx Hx). simpl. by apply IHl.
  - cbn [json_safe] in Hsafe. apply andb_true_iff in Hsafe as [Hnd Hsafe].
    apply bool_decide_eq_true in Hnd. apply forallb_Forall_true in Hsafe.
    cbn [canon deep_equal]. apply andb_true_iff. split.
    { apply Nat.eqb_eq. by rewrite sort_items_length, length_map. }
    apply forallb_Forall_true.
    rewrite (sort_items_Permutation (map _ items)).
    apply Forall_map. rewrite Forall_forall in IH, Hsafe.
    apply Forall_forall. intros [k v] Hkv. simpl.
    pose proof (Hsafe _ Hkv) as Hs. apply andb_true_iff in Hs as [Hk Hv]. simpl in *.
    destruct k as [k| | |]; try done.
    rewrite (dict_get_elem_of items k v); [by apply (IH _ Hkv)|done| |done].
    apply Forall_forall. intros [k2 v2] H2.
    pose proof (Hsafe _ H2) as Hs2. apply andb_true_iff in Hs2 as [Hk2 _].
    simpl in *. by destruct k2.
Qed.


(** * The JSON store *)

Section read.
Context `{Limits}.
Variable float_of_literal : pystr → pystr.
#[local] Abbreviation read := (JSONStoreDisk_read float_of_literal).
#[local] Abbreviation read_amid := (JSONStoreDisk_read_amid float_of_literal).

  (** The file holds valid JSON: the parsed document comes back, nothing
      changes. *)
Lemma read_valid self w t data :
    read_text (file self) (disk w) = inl t →
    loads float_of_literal t = inl data →
    read self w = Return data w.
Proof.
    intros Ht Hl. unfold JSONStoreDisk_read, JSONStoreDisk_read_amid, try_excepts,
      read_text_M, json_loads. munfold. by rewrite Ht, Hl.
Qed.

  (** The removal that follows a [ValueError], alone or after another
      process has removed the file: the file is gone and no error shows. *)
Lemma remove_swallowing self w :
    (∃ a d, disk w !! file self = Some (File a d)) ∨ disk w !! file self = None →
    try_except (JSONStoreDisk_remove self) is_OSError (λ _, mret tt) w
    = Return tt (set_disk (delete (file self)) w).
Proof.
    unfold JSONStoreDisk_remove, unlink. munfold.
    intros [(a & d & H0)| H0]; rewrite H0; simpl; [done|].
    f_equal. destruct w; unfold set_disk; simpl in *. f_equal.
    symmetry. by apply delete_id.
Qed.

  (** The [try] block raises a [ValueError], from the parse or from the
      decoding of the bytes: [None] comes back and the file is removed; a
      concurrent remover changes neither. *)
Lemma read_bad_format self w others e :
    (∃ t, read_text (file self) (disk w) = inl t ∧ loads float_of_literal t = inr e)
    ∨ read_text (file self) (disk w) = inr e →
    is_ValueError e = true →
    others = mret tt ∨ others = concurrent_remover self →
    read_amid others self w = Return PNone (set_disk (delete (file self)) w).
Proof.
    intros Hbad He Hothers.
    assert (Hfile : ∃ a d, disk w !! file self = Some (File a d)).
    { unfold read_text in Hbad.
      destruct (disk w !! file self) as [[|[] []]|]; eauto;
        destruct Hbad as [(t & ? & _)|[= <-]]; done. }
    assert (Htry : try_excepts
                     (t ← read_text_M (file self);
                      data ← json_loads float_of_literal t;
                      mret (inl data : pyval + bool))
                     [(is_ValueError, λ _, mret (inr true));
                      (is_Exception, λ _, mret (inr false))] w
                   = Return (inr true) w).
    { unfold try_excepts, read_text_M, json_loads. munfold.
      destruct Hbad as [(t & -> & ->)| ->]; simpl; by rewrite He. }
    unfold JSONStoreDisk_read_amid.
    unfold mbind at 1, M_bind at 1. rewrite Htry.
    destruct Hothers as [-> | ->].
    - unfold mbind, M_bind, mret, M_ret. rewrite remove_swallowing by by left. done.
    - unfold mbind, M_bind, mret, M_ret, concurrent_remover, modify.
      rewrite remove_swallowing.
      + f_equal. destruct w; unfold set_disk; simpl. f_equal.
        apply delete_delete_eq.
      + right. simpl. apply lookup_delete_eq.
Qed.

  (** Any other exception, from the reading of the file or from the
      parse: [None] comes back and nothing is removed. *)
Lemma read_other_exception self w e :
    (∃ t, read_text (file self) (disk w) = inl t ∧ loads float_of_literal t = inr e)
    ∨ read_text (file self) (disk w) = inr e →
    is_ValueError e = false →
    read self w = Return PNone w.
Proof.
    intros Ht He. unfold JSONStoreDisk_read, JSONStoreDisk_read_amid, try_excepts,
      read_text_M, json_loads. munfold.
    destruct Ht as [(t & -> & ->)| ->]; simpl; by rewrite He.
Qed.
End read.

(** ** Texts the parser gives up on *)

Section limits.
Context `{Limits}.
Variable float_of_literal : pystr → pystr.

  (** More opening brackets than the budget has room for. *)
Lemma scan_once_too_deep budget n rest :
    (budget < n)%nat →
    scan_once float_of_literal budget (replicate n (chr "[") ++ rest)
    = inr RecursionError.
Proof.
    revert n. induction budget as [|budget IH]; intros n Hn;
      (destruct n as [|n]; [lia|]); cbn [replicate app scan_once]; chr_norm;
      change (91 =? 34)%N with false; change (91 =? 123)%N with false;
      change (91 =? 91)%N with true; cbv iota; [done|].
    assert (Hn' : (budget < n)%nat) by lia.
    specialize (IH n Hn'). destruct n as [|n]; [lia|].
    cbn [replicate app] in *. chr_norm. unfold parse_array.
    rewrite skip_ws_cons by done.
    change (91 =? chr "]")%N with false. cbv iota.
    cbn [length parse_array_items]. by rewrite IH.
Qed.

Lemma loads_too_deep n rest :
    (decoder_depth < n)%nat →
    loads float_of_literal (replicate n (chr "[") ++ rest) = inr RecursionError.
Proof.
    intros Hn. pose proof (scan_once_too_deep decoder_depth n rest Hn) as Hs.
    destruct n as [|n]; [lia|]. cbn [replicate app] in *. chr_norm.
    rewrite loads_no_bom by done. rewrite skip_ws_cons by done. by rewrite Hs.
Qed.

  (** An integer literal of more digits than [int] converts. *)
Lemma loads_long_int c ds :
    Forall (λ d, is_digit d = true) (c :: ds) → c ≠ chr "0" →
    (int_max_str_digits < length (c :: ds))%nat →
    loads float_of_literal (c :: ds) = inr ValueError.
Proof.
    intros Hd H0 Hlen. inversion Hd as [|? ? Hc Hds]; subst.
    pose proof (proj1 (is_digit_spec c) Hc) as Hc'.
    assert (Hm : match_number float_of_literal (c :: ds) = inr ValueError).
    { unfold match_number, scan_sign, scan_int.
      replace (c =? chr "-")%N with false by (chr_norm; symmetry; apply N.eqb_neq; lia).
      rewrite (proj2 (N.eqb_neq c _) H0), Hc, (span_digits_all _ Hds).
      simpl scan_frac. simpl scan_exp. cbv iota beta.
      by rewrite (proj2 (Nat.leb_gt _ _) Hlen). }
    assert (Hs : scan_once float_of_literal decoder_depth (c :: ds) = inr ValueError).
    { destruct decoder_depth; cbn [scan_once]; chr_norm;
        rewrite !(proj2 (N.eqb_neq c _)) by lia;
        by rewrite match_constant_digit, Hm. }
    rewrite loads_no_bom by lia. rewrite skip_ws_cons; [by rewrite Hs|].
    unfold is_ws. chr_norm. by rewrite !(proj2 (N.eqb_neq c _)) by lia.
Qed.
End limits.

(** C4.  What [read()] does is settled by the outcome of the [try] block,
    reading the text of the backing file and parsing it.  When the parse
    returns, [read()] returns the parsed document and changes nothing.
    When the block raises a [ValueError] (the text is no JSON, or holds an
    integer of more digits than [int] converts, or the bytes are no text)
    it returns [None] and the backing file is absent afterwards, whether
    the removal succeeds or a concurrent remover was first and its
    [OSError] is swallowed; all other files are as before.  When the block
    raises anything else (the file is missing, is a directory or may not
    be read, or the text nests deeper than the parser can follow, which is
    a [RecursionError]) it returns [None] and removes nothing.  The parse
    raises nothing but these; it raises [RecursionError] for a text that
    opens more arrays than the parser may enter, and [ValueError] for an
    integer literal of more than 4300 digits. *)
Theorem C4_read_self_heals `{Limits} (float_of_literal : pystr → pystr)
    (self : JSONStoreDisk) (w : World) :
  (∀ t data,
     read_text (file self) (disk w) = inl t →
     loads float_of_literal t = inl data →
     JSONStoreDisk_read float_of_literal self w = Return data w)
  ∧ (∀ others e,
       (∃ t, read_text (file self) (disk w) = inl t
             ∧ loads float_of_literal t = inr e)
       ∨ read_text (file self) (disk w) = inr e →
       is_ValueError e = true →
       others = mret tt ∨ others = concurrent_remover self →
       ∃ w', JSONStoreDisk_read_amid float_of_literal others self w = Return PNone w'
             ∧ disk w' !! file self = None
             ∧ (∀ p, p ≠ file self → disk w' !! p = disk w !! p))
  ∧ (∀ e,
       (∃ t, read_text (file self) (disk w) = inl t
             ∧ loads float_of_literal t = inr e)
       ∨ read_text (file self) (disk w) = inr e →
       is_ValueError e = false →
       JSONStoreDisk_read float_of_literal self w = Return PNone w)
  ∧ (∀ t e,
       loads float_of_literal t = inr e →
       (e = JSONDecodeError ∨ e = ValueError) ∧ is_ValueError e = true
       ∨ e = RecursionError ∧ is_ValueError e = false)
  ∧ (∀ n rest,
       (decoder_depth < n)%nat →
       loads float_of_literal (replicate n (chr "[") ++ rest) = inr RecursionError)
  ∧ (∀ c ds,
       Forall (λ d, is_digit d = true) (c :: ds) → c ≠ chr "0" →
       (int_max_str_digits < length (c :: ds))%nat →
       loads float_of_literal (c :: ds) = inr ValueError).
Proof.
  split; [intros; by eapply read_valid|]. split; [|split; [|split; [|split]]].
  - intros others e Hbad He Hothers. eexists.
    split; [by eapply read_bad_format|].
    simpl. split; [apply lookup_delete_eq|]. intros p Hp. by apply lookup_delete_ne.
  - intros; by eapply read_other_exception.
  - intros t e [->|[->| ->]]%loads_raises; auto.
  - intros; by apply loads_too_deep.
  - intros; by apply loads_long_int.
Qed.


(** * The order of the keys in the written text *)

Lemma pystr_ltb_irrefl s : pystr_ltb s s = false.
Proof.
  induction s as [|a s IH]; [done|]. simpl.
  rewrite N.ltb_irrefl, N.eqb_refl. done.
Qed.

Lemma pystr_ltb_trans s t u :
  pystr_ltb s t = true → pystr_ltb t u = true → pystr_ltb s u = true.
Proof.
  revert t u. induction s as [|a s IH]; intros [|b t] [|c u]; simpl; try done.
  rewrite !orb_true_iff, !andb_true_iff, !N.ltb_lt, !N.eqb_eq.
  intros [Hab|[-> Hst]] [Hbc|[-> Htu]].
  - left. lia.
  - by left.
  - by left.
  - right. split; [done|]. by eapply IH.
Qed.

Lemma pystr_ltb_total s t :
  pystr_ltb s t = false → pystr_ltb t s = false → s = t.
Proof.
  revert t. induction s as [|a s IH]; intros [|b t]; simpl; try done.
  rewrite !orb_false_iff, !andb_false_iff, !N.ltb_ge, !N.eqb_neq.
  intros [Hba [Hne|Hst]] [Hab [Hne'|Hts]]; try lia.
  assert (a = b) as -> by lia. f_equal. by apply IH.
Qed.

Lemma key_ltb_irrefl k : key_ltb k k = false.
Proof. destruct k; simpl; auto using pystr_ltb_irrefl, Z.ltb_irrefl. Qed.

Lemma key_ltb_trans a b c :
  key_ltb a b = true → key_ltb b c = true → key_ltb a c = true.
Proof.
  destruct a, b, c; simpl; try done; try apply pystr_ltb_trans;
    rewrite !Z.ltb_lt; lia.
Qed.

Lemma key_ltb_total a b :
  key_is_str a = true → key_is_str b = true →
  key_ltb a b = false → key_ltb b a = false → a = b.
Proof.
  destruct a, b; simpl; try done. intros _ _ H1 H2. f_equal.
  by apply pystr_ltb_total.
Qed.

Section order.
Context {X : Type}.
Implicit Types (x y : pykey * X) (l : list (pykey * X)).

Lemma item_lt_trans : Transitive (@item_lt X).
Proof. intros x y z. apply key_ltb_trans. Qed.

Lemma item_lt_antisymm : AntiSymm (=) (@item_lt X).
Proof.
    intros x y Hxy Hyx. unfold item_lt in *.
    pose proof (key_ltb_trans _ _ _ Hxy Hyx) as H.
    by rewrite key_ltb_irrefl in H.
Qed.

  (** Inserting an item with a new string key keeps the items in the
      strict order of their keys. *)
Lemma insert_item_sorted x l :
    key_is_str x.1 = true → str_keys l → x.1 ∉ map fst l →
    StronglySorted item_lt l → StronglySorted item_lt (insert_item x l).
Proof.
    intros Hx Hl Hnew Hs. induction Hs as [|y l Hs IH Hy]; simpl.
    - repeat constructor.
    - apply Forall_cons in Hl as [Hystr Hl].
      apply not_elem_of_cons in Hnew as [Hne Hnew]. simpl in Hne.
      destruct (key_ltb y.1 x.1) eqn:Hlt.
      + constructor; [by apply IH|].
        rewrite insert_item_Permutation. by constructor.
      + assert (Hxy : item_lt x y).
        { unfold item_lt. destruct (key_ltb x.1 y.1) eqn:Hxy; [done|].
          destruct Hne. by apply key_ltb_total. }
        constructor; [by constructor|]. constructor; [done|].
        eapply Forall_impl; [exact Hy|]. intros z Hz. by eapply item_lt_trans.
Qed.

  (** The keys are pairwise distinct strings: [sort_items] gives them in
      strictly increasing order. *)
Lemma sort_items_sorted l :
    NoDup (map fst l) → str_keys l → StronglySorted item_lt (sort_items l).
Proof.
    induction l as [|x l IH]; intros Hnd Hl; simpl; [constructor|].
    apply NoDup_cons in Hnd as [Hx Hnd]. apply Forall_cons in Hl as [Hxs Hl].
    apply insert_item_sorted; [done| | |by apply IH].
    - unfold str_keys. by rewrite sort_items_Permutation.
    - by rewrite sort_items_Permutation.
Qed.

  (** The order of the items is that of the keys alone, whatever order
      they were inserted in. *)
Lemma sort_items_perm l l' :
    l ≡ₚ l' → NoDup (map fst l) → str_keys l → sort_items l = sort_items l'.
Proof.
    intros Hp Hnd Hl. apply (StronglySorted_unique item_lt (AntiSymm0 := item_lt_antisymm)).
    - by apply sort_items_sorted.
    - apply sort_items_sorted.
      + by rewrite <- Hp.
      + unfold str_keys. by rewrite <- Hp.
    - by rewrite !sort_items_Permutation.
Qed.
End order.

(** The two halves of the text of a dict: the same mapping, built in
    whatever order, is written as the same text. *)
Lemma iterencode_dict_perm level items items' :
  items ≡ₚ items' → NoDup (map fst items) → str_keys items →
  iterencode level (PDict items) = iterencode level (PDict items').
Proof.
  intros Hp Hnd Hl.
  destruct items as [|x items].
  { apply Permutation_nil_l in Hp. by subst. }
  destruct items' as [|x' items'].
  { by apply Permutation_nil_r in Hp. }
  cbn [iterencode]. f_equal. f_equal.
  apply sort_items_perm.
  - by apply fmap_Permutation.
  - rewrite map_map. exact Hnd.
  - unfold str_keys. rewrite Forall_fmap. exact Hl.
Qed.

(** ** Keys of any kind that [sorted] compares *)

Lemma key_ltb_total_id a b :
  key_is_str a = true ∧ key_is_str b = true
  ∨ key_is_num a = true ∧ key_is_num b = true →
  key_ltb a b = false → key_ltb b a = false → key_id a = key_id b.
Proof.
  intros [[Ha Hb]|[Ha Hb]] H1 H2.
  - by rewrite (key_ltb_total a b).
  - destruct a as [|z|[]|], b as [|z'|[]|]; simpl in *; try done;
      rewrite ?Z.ltb_ge in *; f_equal; lia.
Qed.

Section order_any.
Context {X : Type}.
Implicit Types (x y : pykey * X) (l : list (pykey * X)).

Lemma insert_item_sorted_any x l :
    one_kind (x :: l) → key_id x.1 ∉ map (λ kv, key_id kv.1) l →
    StronglySorted item_lt l → StronglySorted item_lt (insert_item x l).
Proof.
    intros Hk Hnew Hs. induction Hs as [|y l Hs IH Hy]; simpl.
    - repeat constructor.
    - apply not_elem_of_cons in Hnew as [Hne Hnew]. simpl in Hne.
      assert (Hk' : one_kind (x :: l)).
      { destruct Hk as [Hk|Hk]; [left|right];
          inversion Hk as [|? ? ? Hk2]; inversion Hk2; subst; by constructor. }
      destruct (key_ltb y.1 x.1) eqn:Hlt.
      + constructor; [by apply IH|].
        rewrite insert_item_Permutation. by constructor.
      + assert (Hxy : item_lt x y).
        { unfold item_lt. destruct (key_ltb x.1 y.1) eqn:Hxy; [done|].
          destruct Hne. apply key_ltb_total_id; [|done..].
          destruct Hk as [Hk|Hk]; [left|right];
            inversion Hk as [|? ? ? Hk2]; inversion Hk2; subst; done. }
        constructor; [by constructor|]. constructor; [done|].
        eapply Forall_impl; [exact Hy|]. intros z Hz. by eapply item_lt_trans.
Qed.

Lemma sortable_one_kind l :
    sortable (map fst l) = true ↔ (length l ≤ 1)%nat ∨ one_kind l.
Proof.
    unfold sortable, one_kind.
    rewrite !orb_true_iff, Nat.leb_le, length_map, !forallb_Forall_true, !Forall_map.
    tauto.
Qed.

  (** The keys compare and are pairwise different: [sort_items] gives the
      items in the strictly increasing order of their keys. *)
Lemma sort_items_sorted_any l :
    sortable (map fst l) = true → distinct_keys l →
    StronglySorted item_lt (sort_items l).
Proof.
    intros [Hlen|Hk]%sortable_one_kind Hnd.
    { destruct l as [|x [|y l]]; simpl in *; [constructor| |lia].
      repeat constructor. }
    induction l as [|x l IH]; simpl; [constructor|].
    unfold distinct_keys in Hnd. simpl in Hnd.
    apply NoDup_cons in Hnd as [Hx Hnd].
    assert (Hl : one_kind l).
    { destruct Hk as [Hk|Hk]; [left|right]; by inversion Hk. }
    apply insert_item_sorted_any; [| |by apply IH].
    - destruct Hk as [Hk|Hk]; [left|right];
        (constructor; [by inversion Hk|]); rewrite sort_items_Permutation;
        by inversion Hk.
    - by rewrite sort_items_Permutation.
Qed.

Lemma sort_items_perm_any l l' :
    l ≡ₚ l' → sortable (map fst l) = true → distinct_keys l →
    sort_items l = sort_items l'.
Proof.
    intros Hp Hs Hnd.
    apply (StronglySorted_unique item_lt (AntiSymm0 := item_lt_antisymm)).
    - by apply sort_items_sorted_any.
    - apply sort_items_sorted_any.
      + apply sortable_one_kind. apply sortable_one_kind in Hs.
        unfold one_kind in *. by rewrite <- Hp.
      + unfold distinct_keys in *. by rewrite <- Hp.
    - by rewrite !sort_items_Permutation.
Qed.
End order_any.

(** The same mapping, built in whatever order, is written as the same
    text. *)
Lemma iterencode_dict_perm_any level items items' :
  items ≡ₚ items' → sortable (map fst items) = true → distinct_keys items →
  iterencode level (PDict items) = iterencode level (PDict items').
Proof.
  intros Hp Hs Hnd.
  destruct items as [|x items].
  { apply Permutation_nil_l in Hp. by subst. }
  destruct items' as [|x' items'].
  { by apply Permutation_nil_r in Hp. }
  cbn [iterencode]. f_equal. f_equal.
  apply sort_items_perm_any.
  - by apply fmap_Permutation.
  - rewrite map_map. exact Hs.
  - unfold distinct_keys. rewrite map_map. exact Hnd.
Qed.

(** * The characters of the written text *)

Lemma is_ascii_app s t : is_ascii s → is_ascii t → is_ascii (s ++ t).
Proof. apply Forall_app_2. Qed.

(** The literals of the encoder. *)
Ltac ascii_literal := unfold is_ascii; chr_norm; repeat constructor.

Lemma hex_digit_ascii d : (d < 16)%N → (hex_digit d < 128)%N.
Proof. unfold hex_digit. chr_norm. destruct (d <? 10)%N eqn:H; lia. Qed.

Lemma u_escape_ascii n : is_ascii (u_escape n).
Proof.
  unfold u_escape, is_ascii. chr_norm.
  repeat constructor; apply hex_digit_ascii; apply N.mod_lt; done.
Qed.

Lemma escape_char_ascii c : is_ascii (escape_char c).
Proof.
  unfold escape_char. chr_norm.
  repeat (case_match; [by ascii_literal|]).
  destruct ((32 <=? c)%N && (c <=? 126)%N) eqn:Hc.
  - apply andb_true_iff in Hc as [_ Hc%N.leb_le]. constructor; [lia|constructor].
  - case_match; [apply u_escape_ascii|].
    apply is_ascii_app; apply u_escape_ascii.
Qed.

Lemma encode_basestring_ascii_ascii s : is_ascii (encode_basestring_ascii s).
Proof.
  unfold encode_basestring_ascii. constructor; [done|].
  apply is_ascii_app; [|by ascii_literal].
  induction s as [|c s IH]; simpl; [constructor|].
  apply is_ascii_app; [apply escape_char_ascii|exact IH].
Qed.

Lemma intstr_ascii z : is_ascii (intstr z).
Proof.
  assert (Hd : ∀ n, is_ascii (digits n)).
  { intros n. destruct (digits_spec n) as (c & ds & -> & Hd & _).
    eapply Forall_impl; [exact Hd|]. intros d Hdd%is_digit_spec. simpl. lia. }
  unfold intstr. destruct (z <? 0); [constructor; [done|]|]; apply Hd.
Qed.

Lemma floatstr_ascii r : forallb (λ c, (c <? 128)%N) r = true → is_ascii (floatstr r).
Proof.
  intros Hr. unfold floatstr.
  repeat (case_bool_decide; [by ascii_literal|]).
  apply forallb_Forall_true in Hr. eapply Forall_impl; [exact Hr|].
  intros c Hc. by apply N.ltb_lt.
Qed.

Lemma newline_indent_ascii level : is_ascii (newline_indent level).
Proof.
  unfold newline_indent. constructor; [done|]. apply Forall_replicate. by chr_norm.
Qed.

Lemma join_ascii sep chunks :
  is_ascii sep → Forall is_ascii chunks → is_ascii (join sep chunks).
Proof.
  intros Hsep Hc. induction Hc as [|c cs Hc Hcs IH]; [constructor|].
  destruct cs as [|c' cs]; [done|].
  change (join sep (c :: c' :: cs)) with (c ++ sep ++ join sep (c' :: cs)).
  by repeat apply is_ascii_app.
Qed.

Lemma bracketed_ascii opening closing level chunks :
  (opening < 128)%N → (closing < 128)%N → Forall is_ascii chunks →
  is_ascii (bracketed opening closing level chunks).
Proof.
  intros Ho Hc Hch. unfold bracketed. constructor; [done|].
  repeat apply is_ascii_app; try apply newline_indent_ascii.
  - apply join_ascii; [|done]. constructor; [by chr_norm|apply newline_indent_ascii].
  - by repeat constructor.
Qed.

(** Every character [iterencode] writes is ASCII. *)
Lemma iterencode_ascii o :
  reprs_ascii o = true → ∀ level, is_ascii (iterencode level o).
Proof.
  induction o as [| [] | z | r | s | l IH | l IH | items IH] using pyval_ind';
    intros Hr level; try by ascii_literal.
  - apply intstr_ascii.
  - by apply floatstr_ascii.
  - apply encode_basestring_ascii_ascii.
  - simpl in Hr. apply forallb_Forall_true in Hr.
    destruct l as [|x l]; [by ascii_literal|].
    cbn [iterencode]. apply bracketed_ascii; [by chr_norm..|].
    apply Forall_fmap.
    eapply Forall_impl; [exact (proj2 (Forall_and _ _) (conj IH Hr))|].
    intros v [Hv Hrv]. by apply Hv.
  - simpl in Hr. apply forallb_Forall_true in Hr.
    destruct l as [|x l]; [by ascii_literal|].
    cbn [iterencode]. apply bracketed_ascii; [by chr_norm..|].
    apply Forall_fmap.
    eapply Forall_impl; [exact (proj2 (Forall_and _ _) (conj IH Hr))|].
    intros v [Hv Hrv]. by apply Hv.
  - simpl in Hr. apply forallb_Forall_true in Hr.
    destruct items as [|x items]; [by ascii_literal|].
    cbn [iterencode]. apply bracketed_ascii; [by chr_norm..|].
    apply Forall_fmap. rewrite sort_items_Permutation. apply Forall_fmap.
    eapply Forall_impl; [exact (proj2 (Forall_and _ _) (conj IH Hr))|].
    intros kv [Hv Hrv]. unfold dict_chunk, compose. cbn [fst snd].
    apply is_ascii_app; [apply encode_basestring_ascii_ascii|].
    apply is_ascii_app; [by ascii_literal|]. by apply Hv.
Qed.


Lemma C4_witness :
  @JSONStoreDisk_read limits_1000 id store_k (boot (disk_with (Text text_a_b)))
  = Return doc_a_b (boot (disk_with (Text text_a_b)))
  ∧ (∃ w', @JSONStoreDisk_read_amid limits_1000 id (concurrent_remover store_k) store_k
             (boot (disk_with (Text (str "{"))))
           = Return PNone w'
           ∧ disk w' !! file store_k = None
           ∧ (∀ p, p ≠ file store_k
                   → disk w' !! p = disk (boot (disk_with (Text (str "{")))) !! p))
  ∧ (∃ w', @JSONStoreDisk_read limits_1000 id store_k
             (boot (disk_with (Text text_long_int)))
           = Return PNone w'
           ∧ disk w' !! file store_k = None
           ∧ (∀ p, p ≠ file store_k
                   → disk w' !! p = disk (boot (disk_with (Text text_long_int))) !! p))
  ∧ (∃ w', @JSONStoreDisk_read limits_1000 id store_k (boot (disk_with Undecodable))
           = Return PNone w'
           ∧ disk w' !! file store_k = None
           ∧ (∀ p, p ≠ file store_k
                   → disk w' !! p = disk (boot (disk_with Undecodable)) !! p))
  ∧ @JSONStoreDisk_read limits_1000 id store_k (boot (disk_with (Text text_deep)))
    = Return PNone (boot (disk_with (Text text_deep)))
  ∧ @JSONStoreDisk_read limits_1000 id store_k (boot ∅) = Return PNone (boot ∅)
  ∧ @loads id limits_1000 text_deep = inr RecursionError
  ∧ @loads id limits_1000 text_long_int = inr ValueError.
Proof.
  split.
  { apply (proj1 (@C4_read_self_heals limits_1000 id store_k
                    (boot (disk_with (Text text_a_b))))
             text_a_b doc_a_b); vm_compute; reflexivity. }
  split.
  { apply (proj1 (proj2 (@C4_read_self_heals limits_1000 id store_k
                           (boot (disk_with (Text (str "{"))))))
             (concurrent_remover store_k) JSONDecodeError).
    - left. exists (str "{"). split; vm_compute; reflexivity.
    - reflexivity.
    - right. reflexivity. }
  split.
  { apply (proj1 (proj2 (@C4_read_self_heals limits_1000 id store_k
                           (boot (disk_with (Text text_long_int)))))
             (mret tt) ValueError).
    - left. exists text_long_int. split; vm_compute; reflexivity.
    - reflexivity.
    - left. reflexivity. }
  split.
  { apply (proj1 (proj2 (@C4_read_self_heals limits_1000 id store_k
                           (boot (disk_with Undecodable))))
             (mret tt) UnicodeDecodeError).
    - right. vm_compute; reflexivity.
    - reflexivity.
    - left. reflexivity. }
  split.
  { apply (proj1 (proj2 (proj2 (@C4_read_self_heals limits_1000 id store_k
                                  (boot (disk_with (Text text_deep))))))
             RecursionError).
    - left. exists text_deep. split; vm_compute; reflexivity.
    - reflexivity. }
  split.
  { apply (proj1 (proj2 (proj2 (@C4_read_self_heals limits_1000 id store_k (boot ∅))))
             FileNotFoundError).
    - right. vm_compute; reflexivity.
    - reflexivity. }
  split.
  { apply (proj1 (proj2 (proj2 (proj2 (proj2
             (@C4_read_self_heals limits_1000 id store_k (boot ∅))))))
             1500%nat []).
    vm_compute. lia. }
  apply (proj2 (proj2 (proj2 (proj2 (proj2
           (@C4_read_self_heals limits_1000 id store_k (boot ∅))))))
           (chr "1") (replicate 4300 (chr "1"))).
  - apply Forall_forall. intros d Hd.
    apply elem_of_cons in Hd as [->|Hd]; [reflexivity|].
    apply elem_of_replicate in Hd as [-> _]. reflexivity.
  - vm_compute. discriminate.
  - vm_compute. lia.
Defined.

(** * Writing *)

(** What a [write] that returns has done: the text of the document is in
    the file of the store. *)
Lemma write_spec `{Limits} self doc w w' :
  JSONStoreDisk_write self doc w = Return tt w' →
  dumps doc = inl (iterencode 0 doc)
  ∧ disk w' !! file self = Some (File true (Text (iterencode 0 doc))).
Proof.
  unfold JSONStoreDisk_write, on_disk. munfold.
  destruct (mkdir_parents_exist_ok _ _) as [d1 [e|]]; [done|].
  destruct (dumps doc) as [text|e] eqn:Hd; [|done].
  pose proof (proj1 (dumps_inl doc text) Hd) as (_ & _ & _ & ->).
  simpl. unfold write_text.
  destruct (negb _); [done|].
  destruct (d1 !! file self) as [[|[] data]|] eqn:Hf; simpl; try done;
    intros [= <-]; (split; [done|]); simpl; apply lookup_insert_eq.
Qed.

(** A [write] into a folder that exists, to a file that does not, returns. *)
Lemma write_returns `{Limits} self doc text w :
  dumps doc = inl text →
  mkdir_parents_exist_ok (dirname (file self)) (disk w) = (disk w, None) →
  isdir (dirname (file self)) (disk w) = true →
  disk w !! file self = None →
  ∃ w', JSONStoreDisk_write self doc w = Return tt w'.
Proof.
  intros Hs Hm Hd Hf.
  unfold JSONStoreDisk_write, on_disk. munfold.
  rewrite Hm, Hs. simpl. unfold write_text. rewrite Hd. simpl. rewrite Hf.
  by eexists.
Qed.

(** C5, counterexample.  The mapping [{1: 2}] is JSON-serializable;
    written and read back it is [{"1": 2}], which is not equal to it. *)
Lemma C5_counterexample :
  ∃ w, @JSONStoreDisk_write limits_1000 store_k doc_int_key (boot ∅) = Return tt w
       ∧ @JSONStoreDisk_read limits_1000 id store_k w = Return doc_str_key w
       ∧ deep_equal doc_str_key doc_int_key = false.
Proof. eexists. repeat split; vm_compute; reflexivity. Qed.

(** What the amended round trip leaves out does not come back equal:
    a tuple, [nan], a high surrogate before a low one. *)
Lemma round_trip_not_equal :
  Forall (λ doc,
    json_safe id doc = false
    ∧ ∃ w data,
        @JSONStoreDisk_write limits_1000 store_k doc (boot ∅) = Return tt w
        ∧ @JSONStoreDisk_read limits_1000 id store_k w = Return data w
        ∧ deep_equal data doc = false)
    [doc_int_key; doc_tuple; doc_nan; doc_surrogates].
Proof.
  repeat constructor; eexists _, _; repeat split; vm_compute; reflexivity.
Qed.

(** C5, amended.  For a document of [None], booleans, integers, floats
    other than [nan], strings, lists and dicts whose keys are pairwise
    distinct strings (no tuple, no key that is not a string; strings that
    survive their escapes), nested no deeper than the parser can follow,
    a [read] after a [write] that returned gives back a value equal to
    the document, the one with the items of every dict in the order of
    their keys, and leaves the file as written. *)
Theorem C5_round_trip_amended `{Limits} (float_of_literal : pystr → pystr)
    (self : JSONStoreDisk) (doc : pyval) (w w' : World) :
  json_safe float_of_literal doc = true →
  (nesting doc ≤ decoder_depth)%nat →
  JSONStoreDisk_write self doc w = Return tt w' →
  ∃ data,
    JSONStoreDisk_read float_of_literal self w' = Return data w'
    ∧ data = canon doc
    ∧ deep_equal data doc = true.
Proof.
  intros Hsafe Hdepth Hw. apply write_spec in Hw as [Hd Hf].
  pose proof (loads_dumps float_of_literal doc _ Hsafe Hdepth Hd) as Hl.
  exists (canon doc). split; [|split; [done|by eapply deep_equal_canon]].
  eapply read_valid; [|exact Hl]. unfold read_text. by rewrite Hf.
Qed.

Lemma C5_witness :
  ∃ w data,
    @JSONStoreDisk_write limits_1000 store_k doc_nested (boot ∅) = Return tt w
    ∧ @JSONStoreDisk_read limits_1000 id store_k w = Return data w
    ∧ data = canon doc_nested
    ∧ deep_equal data doc_nested = true.
Proof.
  assert (Hd : (nesting doc_nested ≤ @decoder_depth limits_1000)%nat)
    by (vm_compute; lia).
  pose proof (@C5_round_trip_amended limits_1000 id store_k doc_nested (boot ∅)
                (world_after (@JSONStoreDisk_write limits_1000 store_k doc_nested) (boot ∅))
                eq_refl Hd eq_refl) as (data & Hr & Hc & He).
  exists (world_after (@JSONStoreDisk_write limits_1000 store_k doc_nested) (boot ∅)), data.
  split; [vm_compute; reflexivity|]. done.
Defined.

(** The text of a dict: its items between braces, in the strict order of
    their keys. *)
Lemma iterencode_dict_sorted level x items :
  sortable (map fst (x :: items)) = true → distinct_keys (x :: items) →
  ∃ sorted,
    sorted ≡ₚ x :: items
    ∧ StronglySorted item_lt sorted
    ∧ iterencode level (PDict (x :: items))
      = bracketed (chr "{") (chr "}") level
          (map (λ kv, encode_basestring_ascii (key_str kv.1)
                      ++ [chr ":"; chr " "] ++ iterencode (S level) kv.2)
               sorted).
Proof.
  intros Hs Hnd. exists (sort_items (x :: items)).
  split; [apply sort_items_Permutation|]. split; [by apply sort_items_sorted_any|].
  cbn [iterencode]. f_equal.
  rewrite (sort_items_map (iterencode (S level)) (x :: items)), map_map. done.
Qed.

(** C8.  [write(content)] puts the text [json.dumps(content,
    sort_keys=True, indent=2)] in the file, and that text is a function
    of the document.  A dict whose keys compare (all strings, or all
    integers and booleans) is written with its items in the order of
    their keys, strings by code points and numbers by value, so the same
    mapping is written as the same text whatever order its items were
    inserted in.  The items of a dict and of a list (a tuple is written
    as a list) are each on a line of its own, indented by two spaces per
    level, with a comma after each but the last, and the closing bracket
    on a line of its own; an empty list is [[]] and an empty dict [{}].
    [None], booleans, integers, floats and strings are written as their
    JSON literals.  All characters of the text are ASCII, so the bytes
    are those of UTF-8.  The text of a document of the round trip reads
    back as that document.  The mapping [{"b": 1, "a": 2}] is written with
    ["a"] before ["b"]; the documents with lists, with nested containers
    and with numbers as keys are written as the texts given. *)
Theorem C8_write_sorted_indented `{Limits} :
  (∀ self doc w w',
     JSONStoreDisk_write self doc w = Return tt w' →
     dumps doc = inl (iterencode 0 doc)
     ∧ read_text (file self) (disk w') = inl (iterencode 0 doc))
  ∧ (∀ level x items,
       sortable (map fst (x :: items)) = true → distinct_keys (x :: items) →
       ∃ sorted,
         sorted ≡ₚ x :: items
         ∧ StronglySorted item_lt sorted
         ∧ iterencode level (PDict (x :: items))
           = [chr "{"] ++ newline_indent (S level)
             ++ join (chr "," :: newline_indent (S level))
                  (map (λ kv, encode_basestring_ascii (key_str kv.1)
                              ++ [chr ":"; chr " "] ++ iterencode (S level) kv.2)
                       sorted)
             ++ newline_indent level ++ [chr "}"])
  ∧ (∀ level items items',
       items ≡ₚ items' → sortable (map fst items) = true → distinct_keys items →
       iterencode level (PDict items) = iterencode level (PDict items'))
  ∧ (∀ (a b : pykey * pyval),
       (key_is_str a.1 = true → key_is_str b.1 = true →
        item_lt a b ↔ pystr_ltb (key_str a.1) (key_str b.1) = true)
       ∧ (key_is_num a.1 = true → key_is_num b.1 = true →
          item_lt a b ↔ key_num a.1 < key_num b.1))
  ∧ (∀ level x l,
       iterencode level (PList (x :: l))
       = [chr "["] ++ newline_indent (S level)
         ++ join (chr "," :: newline_indent (S level))
              (map (iterencode (S level)) (x :: l))
         ++ newline_indent level ++ [chr "]"]
       ∧ iterencode level (PTuple (x :: l)) = iterencode level (PList (x :: l)))
  ∧ (∀ level,
       iterencode level (PList []) = str "[]"
       ∧ iterencode level (PTuple []) = str "[]"
       ∧ iterencode level (PDict []) = str "{}"
       ∧ iterencode level PNone = str "null"
       ∧ iterencode level (PBool true) = str "true"
       ∧ iterencode level (PBool false) = str "false"
       ∧ (∀ z, iterencode level (PInt z) = intstr z)
       ∧ (∀ r, iterencode level (PFloat r) = floatstr r)
       ∧ (∀ s, iterencode level (PStr s) = encode_basestring_ascii s))
  ∧ (∀ level, newline_indent level = 10%N :: replicate (2 * level) 32%N)
  ∧ (∀ level doc, reprs_ascii doc = true → is_ascii (iterencode level doc))
  ∧ (∀ float_of_literal doc text,
       json_safe float_of_literal doc = true →
       (nesting doc ≤ decoder_depth)%nat →
       dumps doc = inl text →
       loads float_of_literal text = inl (canon doc))
  ∧ @dumps limits_1000 doc_b_a = inl text_a_b
  ∧ @dumps limits_1000 doc_a_b = inl text_a_b
  ∧ @dumps limits_1000 doc_nested = inl text_nested
  ∧ @dumps limits_1000 doc_num_keys = inl text_num_keys
  ∧ (∃ w', @JSONStoreDisk_write limits_1000 store_k doc_b_a (boot ∅) = Return tt w'
           ∧ read_text (file store_k) (disk w') = inl text_a_b)
  ∧ (∃ w', @JSONStoreDisk_write limits_1000 store_k doc_nested (boot ∅) = Return tt w'
           ∧ read_text (file store_k) (disk w') = inl text_nested).
Proof.
  split.
  { intros self doc w w' Hw. apply write_spec in Hw as [Hd Hf].
    split; [done|]. unfold read_text. by rewrite Hf. }
  split; [intros; by apply iterencode_dict_sorted|].
  split; [intros; by apply iterencode_dict_perm_any|].
  split.
  { intros [a x] [b y]. unfold item_lt. simpl. split.
    - destruct a, b; simpl; try done.
    - destruct a, b; simpl; try done; intros _ _; apply Z.ltb_lt. }
  split; [done|].
  split; [done|].
  split; [done|].
  split; [intros; by apply iterencode_ascii|].
  split; [intros; by eapply loads_dumps|].
  split; [vm_compute; reflexivity|].
  split; [vm_compute; reflexivity|].
  split; [vm_compute; reflexivity|].
  split; [vm_compute; reflexivity|].
  split; eexists; split; vm_compute; reflexivity.
Qed.

Lemma C8_witness :
  (∃ w', @JSONStoreDisk_write limits_1000 store_k doc_a_b (boot ∅) = Return tt w'
         ∧ read_text (file store_k) (disk w') = inl text_a_b)
  ∧ iterencode 0 doc_b_a = iterencode 0 doc_a_b
  ∧ is_ascii (iterencode 0 doc_nested)
  ∧ @loads id limits_1000 text_nested = inl (canon doc_nested).
Proof.
  destruct (@C8_write_sorted_indented limits_1000)
    as (Hw & _ & Hperm & _ & _ & _ & _ & Hascii & Hback & _ & _ & Hnested & _).
  split.
  { exists (world_after (@JSONStoreDisk_write limits_1000 store_k doc_a_b) (boot ∅)).
    split; [vm_compute; reflexivity|].
    apply (Hw store_k doc_a_b (boot ∅)). vm_compute; reflexivity. }
  split.
  { apply Hperm.
    - apply Permutation_swap.
    - reflexivity.
    - apply (bool_decide_unpack _). vm_compute. exact I. }
  split; [apply Hascii; reflexivity|].
  apply (Hback id doc_nested text_nested); [reflexivity|vm_compute; lia|exact Hnested].
Defined.


(** * The application data folders *)

(** What [rmtree] leaves: nothing at or below the folder, everything
    else. *)
Lemma rmtree_lookup folder d p :
  rmtree folder d !! p = if bool_decide (folder `prefix_of` p) then None else d !! p.
Proof.
  unfold rmtree. case_bool_decide as Hp.
  - apply map_lookup_filter_None. right. intros n _. simpl.
    rewrite bool_decide_eq_true_2 by done. done.
  - destruct (d !! p) as [n|] eqn:Hd.
    + apply map_lookup_filter_Some. split; [done|]. simpl.
      by rewrite bool_decide_eq_false_2.
    + apply map_lookup_filter_None. by left.
Qed.

(** C7.  A [TempAppData] is transient and cannot be updated; its [reset]
    does nothing; its [embed_update_log] raises [NotImplementedError]
    whatever the distribution and version; its [close] removes the
    temporary folder with all that is below it and leaves every other path
    of the disk, and the locks, as they are.  The folder is the directory
    [mkdtemp] has made. *)
Theorem C7_temp_app_data (self : TempAppData) (w : World) :
  transient self = true
  ∧ can_update self = false
  ∧ reset self w = Return tt w
  ∧ (∀ distribution for_py_version,
       embed_update_log self distribution for_py_version w
       = Raise NotImplementedError w)
  ∧ (∃ w', close self w = Return tt w'
           ∧ (∀ p, path (folder_lock self) `prefix_of` p → disk w' !! p = None)
           ∧ (∀ p, ¬ path (folder_lock self) `prefix_of` p → disk w' !! p = disk w !! p)
           ∧ objects w' = objects w ∧ _lock_store w' = _lock_store w
           ∧ os_locks w' = os_locks w)
  ∧ (∀ fresh, ∃ w', new_TempAppData fresh w = Return
                      (mkTempAppData (new_AppDataDiskFolder fresh)) w'
                    ∧ disk w' !! fresh = Some Dir).
Proof.
  split; [done|]. split; [done|]. split; [done|]. split; [done|]. split.
  - eexists. split; [reflexivity|]. simpl.
    split; [|split; [|done]]; intros p Hp; rewrite rmtree_lookup.
    + by rewrite bool_decide_eq_true_2.
    + by rewrite bool_decide_eq_false_2.
  - intros fresh. eexists. split; [reflexivity|]. simpl. apply lookup_insert_eq.
Qed.


(** * Locked sections *)

(** ** The rules of [wp] *)

Lemma wp_ret {A} (a : A) Q E B w : Q a w → wp (mret a) Q E B w.
Proof. done. Qed.

Lemma wp_bind {A X} (c : M X) (k : X → M A) Q E B w :
  wp c (λ x w', wp (k x) Q E B w') E B w → wp (c ≫= k) Q E B w.
Proof. unfold wp. munfold. by destruct (c w). Qed.

Lemma wp_mono {A} (c : M A) (Q Q' : A → World → Prop) (E E' : exn → World → Prop)
    (B B' : Prop) w :
  wp c Q E B w →
  (∀ a w', Q a w' → Q' a w') → (∀ e w', E e w' → E' e w') → (B → B') →
  wp c Q' E' B' w.
Proof. unfold wp. destruct (c w); auto. Qed.

Lemma wp_try_finally {A} (c : M A) (cleanup : M unit) Q E B w :
  wp c (λ a w', wp cleanup (λ _, Q a) E B w')
       (λ e w', wp cleanup (λ _, E e) E B w') B w →
  wp (try_finally c cleanup) Q E B w.
Proof.
  unfold wp, try_finally. destruct (c w) as [a w'|e w'|]; [| |done];
    by destruct (cleanup w').
Qed.

Lemma wp_try_except {A} (c : M A) catches (handler : exn → M A) Q E B w :
  wp c Q (λ e w', if catches e : bool then wp (handler e) Q E B w' else E e w') B w →
  wp (try_except c catches handler) Q E B w.
Proof.
  unfold wp, try_except. destruct (c w) as [a w'|e w'|]; [done| |done].
  by destruct (catches e).
Qed.

Lemma wp_for_each {X} (I : list X → World → Prop) (xs : list X)
    (body : X → M unit) E B w :
  I xs w →
  (∀ x rest w', I (x :: rest) w' → wp (body x) (λ _, I rest) E B w') →
  wp (for_each xs body) (λ _, I []) E B w.
Proof.
  intros HI Hbody. revert w HI. induction xs as [|x xs IH]; intros w HI; [done|].
  simpl. apply wp_bind. eapply wp_mono; [by apply Hbody| |done|done].
  intros u w' HI'. by apply IH.
Qed.

(** ** Taking a free lock *)

Lemma dirname_truediv p x : dirname (truediv p x) = p.
Proof. apply removelast_last. Qed.

(** [os.makedirs] with its [OSError] swallowed: the disk it leaves. *)
Lemma makedirs_ignoring_exact p w :
  try_except (on_disk (makedirs p)) is_OSError (λ _, mret tt) w
  = Return tt (set_disk (λ _, (makedirs p (disk w)).1) w).
Proof.
  munfold. destruct (makedirs p (disk w)) as [d [e|]] eqn:E; simpl; [|done].
  by rewrite (makedirs_raises_OSError _ _ _ _ E).
Qed.

(** The request for a lock that is not registered. *)
Lemma create_lock_free self name w :
  _lock_store w !! key_of self name = None →
  _create_lock self name w
  = Return (length (objects w))
      (mkWorld (if negb (isdir (path self) (disk w))
                then (makedirs (path self) (disk w)).1 else disk w)
               (objects w ++ [mkCountedFileLock (key_of self name) 0])
               (<[key_of self name := length (objects w)]> (_lock_store w))
               (os_locks w) (extracted w)).
Proof.
  intros H. unfold _create_lock, key_of in *.
  unfold mbind at 1, M_bind at 1, get at 1. rewrite H.
  unfold new_CountedFileLock. rewrite dirname_truediv.
  unfold mbind at 1, M_bind at 1.
  unfold mbind at 1, M_bind at 1, get at 1.
  unfold mbind at 1, M_bind at 1.
  destruct (negb (isdir (path self) (disk w))).
  - rewrite makedirs_ignoring_exact. munfold. destruct w; done.
  - munfold. destruct w; done.
Qed.

(** Locking the new object, the lock file being free. *)
Lemma lock_file_free self name no_block w :
  free (key_of self name) w →
  (h ← _create_lock self name; _lock_file self h no_block;; mret h) w
  = Return (length (objects w)) (enter_world self name w).
Proof.
  intros [Hs Ho]. unfold mbind at 1, M_bind at 1.
  rewrite (create_lock_free _ _ _ Hs).
  unfold _lock_file. unfold mbind at 2, M_bind at 2.
  unfold mbind at 1, M_bind at 1. rewrite makedirs_ignoring_exact.
  unfold set_disk at 1. cbn [disk objects _lock_store os_locks extracted].
  set (d2 := (makedirs (path self) _).1).
  unfold try_except, acquire, FileLock_acquire.
  unfold mbind at 1, M_bind at 1.
  unfold mbind at 1, M_bind at 1, get at 1. cbn [objects].
  rewrite lookup_app_r, Nat.sub_diag by done. cbn [lookup list_lookup count lock_file].
  cbn [Z.eqb]. unfold mbind at 1, M_bind at 1. cbn [os_locks]. rewrite Ho.
  unfold set_count, modify, set_objects, set_os_locks, set_disk, mret, M_ret.
  cbn [objects disk _lock_store os_locks extracted].
  rewrite lookup_app_r, Nat.sub_diag by done. cbn [lookup list_lookup lock_file].
  unfold enter_world, lock_disk. fold d2. f_equal. f_equal.
  rewrite insert_app_r_alt, Nat.sub_diag by done. done.
Qed.

Lemma lock_file_new self name no_block w :
  free (key_of self name) w →
  ∃ w1, _create_lock self name w = Return (length (objects w)) w1
        ∧ _lock_file self (length (objects w)) no_block w1
          = Return tt (enter_world self name w).
Proof.
  intros Hfree. pose proof (lock_file_free self name no_block w Hfree) as H.
  destruct Hfree as [Hs Ho].
  unfold mbind at 1, M_bind at 1 in H. rewrite (create_lock_free _ _ _ Hs) in H.
  eexists. split; [by apply create_lock_free|].
  unfold mbind, M_bind, mret, M_ret in H.
  destruct (_lock_file _ _ _ _) as [[] w'| |]; [|done..].
  by injection H as ->.
Qed.

(** ** Giving the lock back *)

Lemma leave_held h key w :
  held h key w →
  (_release h;; _del_lock (Some h)) w = Return tt (leave_world h key w).
Proof.
  intros (Hobj & Hs & Ho).
  unfold _release, release, FileLock_release, _del_lock.
  unfold mbind at 1, M_bind at 1.
  unfold mbind at 1, M_bind at 1, get at 1. rewrite Hobj.
  cbn [count lock_file Z.eqb Pos.eqb].
  unfold mbind at 1, M_bind at 1. rewrite Ho, bool_decide_eq_true_2 by done.
  unfold set_count, modify, set_os_locks, set_objects.
  cbn [objects disk _lock_store os_locks extracted]. rewrite Hobj.
  unfold mbind, M_bind, get. cbn [objects].
  rewrite list_lookup_insert_eq by by eapply lookup_lt_Some.
  cbn [count lock_file Z.eqb Z.max Z.sub Z.compare Z.add Z.opp Z.pos_sub Pos.compare].
  done.
Qed.

(** ** The two [with] blocks, the lock being free *)

(** [with self.lock_for_key(name)]: the body runs in the world where the
    lock is held; what it leaves, value or exception, is what the block
    leaves, once the lock is given back. *)
Lemma wp_lock_for_key {A} self name no_block (body : M A) Q E B w :
  free (key_of self name) w →
  wp body
     (λ a w2, held (length (objects w)) (key_of self name) w2
              ∧ Q a (leave_world (length (objects w)) (key_of self name) w2))
     (λ e w2, held (length (objects w)) (key_of self name) w2
              ∧ E e (leave_world (length (objects w)) (key_of self name) w2))
     B (enter_world self name w) →
  wp (ReentrantFileLock_lock_for_key self name no_block body) Q E B w.
Proof.
  intros Hfree Hbody.
  destruct (lock_file_new self name no_block w Hfree) as (w1 & Hc & Hl).
  unfold wp, ReentrantFileLock_lock_for_key in *.
  unfold mbind at 1, M_bind at 1. rewrite Hc.
  unfold try_finally. unfold mbind at 1, M_bind at 1. rewrite Hl.
  destruct (body (enter_world self name w)) as [a w2|e w2|]; [| |done];
    destruct Hbody as [Hheld HQ];
    pose proof (leave_held _ _ _ Hheld) as Hleave;
    unfold mbind, M_bind in Hleave;
    destruct (_release _ w2) as [[] w3| |]; try done; by rewrite Hleave.
Qed.

(** [with self], for a [ReentrantFileLock]: the same, with the lock file
    [.lock] of the folder. *)
Lemma wp_with_lock {A} (self : ReentrantFileLock) (body : M A) Q E B w :
  free (key_of self "") w →
  wp body
     (λ a w2, held (length (objects w)) (key_of self "") w2
              ∧ Q a (leave_world (length (objects w)) (key_of self "") w2))
     (λ e w2, held (length (objects w)) (key_of self "") w2
              ∧ E e (leave_world (length (objects w)) (key_of self "") w2))
     B (enter_world self "" w) →
  wp (with_lock self body) Q E B w.
Proof.
  intros Hfree Hbody.
  destruct (lock_file_new self "" false w Hfree) as (w1 & Hc & Hl).
  unfold wp, with_lock in *. cbn [enter exit ReentrantFileLock_PathLock].
  unfold ReentrantFileLock_enter, ReentrantFileLock_exit.
  unfold mbind, M_bind, mret, M_ret. rewrite Hc.
  change (_lock_file {| path := path self; _lock := Some (length (objects w)) |})
    with (_lock_file self).
  rewrite Hl. unfold try_finally. cbn [_lock].
  destruct (body (enter_world self "" w)) as [a w2|e w2|]; [| |done];
    destruct Hbody as [Hheld HQ];
    pose proof (leave_held _ _ _ Hheld) as Hleave;
    unfold mbind, M_bind, mret, M_ret in Hleave |- *;
    destruct (_release _ w2) as [[] w3| |]; try done;
    destruct (_del_lock _ w3) as [[] w4| |]; try done; by injection Hleave as ->.
Qed.

(** ** Blocks whose bodies do the same *)

(** A locked block is settled by what its body does in the world where
    the lock has been taken. *)
Lemma lock_for_key_agree {A} self name no_block (body body' : M A) w :
  free (key_of self name) w →
  body (enter_world self name w) = body' (enter_world self name w) →
  ReentrantFileLock_lock_for_key self name no_block body w
  = ReentrantFileLock_lock_for_key self name no_block body' w.
Proof.
  intros Hfree Hbody.
  destruct (lock_file_new self name no_block w Hfree) as (w1 & Hc & Hl).
  unfold ReentrantFileLock_lock_for_key, mbind, M_bind. rewrite Hc.
  unfold try_finally. rewrite Hl. by rewrite Hbody.
Qed.

Lemma with_lock_agree {A} (self : ReentrantFileLock) (body body' : M A) w :
  free (key_of self "") w →
  body (enter_world self "" w) = body' (enter_world self "" w) →
  with_lock self body w = with_lock self body' w.
Proof.
  intros Hfree Hbody.
  destruct (lock_file_new self "" false w Hfree) as (w1 & Hc & Hl).
  unfold with_lock. cbn [enter exit ReentrantFileLock_PathLock].
  unfold ReentrantFileLock_enter, ReentrantFileLock_exit.
  unfold mbind, M_bind, mret, M_ret. rewrite Hc.
  change (_lock_file {| path := path self; _lock := Some (length (objects w)) |})
    with (_lock_file self).
  rewrite Hl. unfold try_finally. by rewrite Hbody.
Qed.

(** Two loops whose bodies do the same wherever the invariant of the
    second holds. *)
Lemma for_each_agree {X} (I : list X → World → Prop) (body body' : X → M unit) xs w :
  (∀ x rest w, I (x :: rest) w →
     body x w = body' x w ∧ wp (body' x) (λ _, I rest) (λ _ _, True) True w) →
  I xs w →
  for_each xs body w = for_each xs body' w.
Proof.
  intros Hround. revert w. induction xs as [|x xs IH]; intros w HI; [done|].
  destruct (Hround x xs w HI) as [Heq Hwp].
  cbn [for_each]. unfold mbind, M_bind. rewrite Heq. unfold wp in Hwp.
  destruct (body' x w) as [[] w'|e w'|]; [|done..]. by apply IH.
Qed.


(** * Paths and the disk under locking *)

(** [mkdir_walk] changes the disk only where it makes a directory that
    was missing, on the way down to the leaf. *)
Lemma mkdir_walk_lookup above todo d p :
  (mkdir_walk above todo d).1 !! p = d !! p
  ∨ (d !! p = None ∧ p `prefix_of` above ++ todo
     ∧ (mkdir_walk above todo d).1 !! p = Some Dir).
Proof.
  revert above d. induction todo as [|c rest IH]; intros above d; [by left|].
  assert (Hstep : ∀ d0, d0 !! p = d !! p
                        ∨ (d !! p = None ∧ p = above ++ [c] ∧ d0 !! p = Some Dir) →
            (mkdir_walk (above ++ [c]) rest d0).1 !! p = d !! p
            ∨ (d !! p = None ∧ p `prefix_of` above ++ c :: rest
               ∧ (mkdir_walk (above ++ [c]) rest d0).1 !! p = Some Dir)).
  { intros d0 Hd0.
    destruct (IH (above ++ [c]) d0) as [Heq|(Hn & Hp & Hd)].
    - rewrite Heq. destruct Hd0 as [->|(Hn & -> & Hd)]; [by left|].
      right. split; [done|]. split; [|done].
      rewrite (cons_middle c above rest), app_assoc. by apply prefix_app_r.
    - rewrite <- app_assoc in Hp. simpl in Hp.
      destruct Hd0 as [Hd0|(Hn' & -> & Hd0)]; [|congruence].
      right. by rewrite <- Hd0. }
  simpl. destruct (d !! (above ++ [c])) as [[|a fd]|] eqn:Hc, rest as [|c' rest'];
    simpl; try by left.
  - apply Hstep. by left.
  - destruct (decide (p = above ++ [c])) as [->|Hne].
    + right. rewrite lookup_insert_eq. done.
    + left. by apply lookup_insert_ne.
  - apply Hstep.
    destruct (decide (p = above ++ [c])) as [->|Hne].
    + right. by rewrite lookup_insert_eq.
    + left. by apply lookup_insert_ne.
Qed.

Lemma makedirs_fst p d : (makedirs p d).1 = (mkdir_walk [] p d).1.
Proof. unfold makedirs. by destruct (mkdir_walk [] p d) as [d' [| |e]]. Qed.

Lemma makedirs_lookup q d p :
  (makedirs q d).1 !! p = d !! p
  ∨ (d !! p = None ∧ p `prefix_of` q ∧ (makedirs q d).1 !! p = Some Dir).
Proof. rewrite makedirs_fst. apply (mkdir_walk_lookup [] q d p). Qed.

(** Locking changes the disk only where it creates the folder, a
    directory above it, or the lock file. *)
Lemma lock_disk_lookup self name d p :
  lock_disk self name d !! p = d !! p
  ∨ (d !! p = None ∧ locking_path self name p).
Proof.
  unfold lock_disk, locking_path.
  set (d1 := if negb _ then _ else d).
  assert (H1 : d1 !! p = d !! p ∨ (d !! p = None ∧ p `prefix_of` path self)).
  { unfold d1. destruct (negb _); [|by left].
    destruct (makedirs_lookup (path self) d p) as [?|(? & ? & _)]; auto. }
  set (d2 := (makedirs (path self) d1).1).
  assert (H2 : d2 !! p = d !! p ∨ (d !! p = None ∧ p `prefix_of` path self)).
  { unfold d2. destruct (makedirs_lookup (path self) d1 p) as [->|(Hn & ? & _)];
      [done|]. destruct H1 as [H1|[? ?]]; [|by right]. right. by rewrite <- H1. }
  destruct (d2 !! key_of self name) eqn:Hk.
  { destruct H2 as [?|[? ?]]; auto. }
  destruct (decide (p = key_of self name)) as [->|Hne].
  - destruct H2 as [H2|[? ?]]; [|by right; auto].
    right. rewrite <- H2. auto.
  - rewrite lookup_insert_ne by done. destruct H2 as [?|[? ?]]; auto.
Qed.

(** What was on the disk stays. *)
Lemma lock_disk_keeps self name d p n :
  d !! p = Some n → lock_disk self name d !! p = Some n.
Proof.
  intros H. destruct (lock_disk_lookup self name d p) as [->|[? _]]; congruence.
Qed.


Lemma lock_disk_exists self name d p :
  exists_ p d = true → exists_ p (lock_disk self name d) = true.
Proof.
  unfold exists_. destruct p as [|c p]; [done|].
  rewrite !bool_decide_eq_true. intros [n H].
  by rewrite (lock_disk_keeps _ _ _ _ _ H).
Qed.

(** ** Names, stems and suffixes *)

Lemma list_ascii_of_string_append s t :
  list_ascii_of_string (s +:+ t) = list_ascii_of_string s ++ list_ascii_of_string t.
Proof. induction s as [|a s IH]; simpl; [done|]. by rewrite IH. Qed.

Lemma rfind_dot_app_dot cs l :
  rfind_dot l = None → rfind_dot (cs ++ "."%char :: l) = Some (length cs).
Proof.
  intros Hl. induction cs as [|c cs IH]; simpl; [by rewrite Hl|]. by rewrite IH.
Qed.

(** The suffix of a lock file is [.lock], or nothing for the file
    [.lock] itself. *)
Lemma split_suffix_lock s :
  (split_suffix (s +:+ ".lock")).2 = ".lock"%string
  ∨ (split_suffix (s +:+ ".lock")).2 = ""%string.
Proof.
  unfold split_suffix. rewrite list_ascii_of_string_append.
  change (list_ascii_of_string ".lock")
    with ("."%char :: list_ascii_of_string "lock").
  rewrite rfind_dot_app_dot by done.
  destruct (_ && _); [|by right]. left. simpl.
  rewrite drop_app_length. done.
Qed.

Lemma name_truediv p x : name (truediv p x) = x.
Proof. unfold name, truediv. apply last_last. Qed.

Lemma suffix_key_of self s : suffix (key_of self s) ≠ ".json"%string.
Proof.
  unfold suffix, key_of. rewrite name_truediv.
  by destruct (split_suffix_lock s) as [-> | ->].
Qed.

(** A name with a suffix has a stem. *)
Lemma stem_nonempty p : suffix p ≠ ""%string → stem p ≠ ""%string.
Proof.
  unfold suffix, stem, split_suffix.
  destruct (rfind_dot _) as [i|] eqn:Hi; [|done].
  destruct (_ && _) eqn:Hc; [|done]. simpl. intros _.
  apply andb_true_iff in Hc as [H0%Nat.ltb_lt Hlen%Nat.ltb_lt].
  destruct i as [|i]; [lia|].
  destruct (list_ascii_of_string (name p)) as [|c cs]; [simpl in Hlen; lia|].
  done.
Qed.

Lemma key_of_inj self s t : key_of self s = key_of self t → s = t.
Proof.
  unfold key_of, truediv. intros H%app_inv_head. injection H as H.
  apply (f_equal list_ascii_of_string) in H.
  rewrite !list_ascii_of_string_append in H. apply app_inv_tail in H.
  apply (f_equal string_of_list_ascii) in H.
  by rewrite !string_of_list_ascii_of_string in H.
Qed.

(** What [py_info_clear] removes is nothing that locking creates. *)
Lemma json_entry_not_locking self s p :
  json_entry (path self) p = true → ¬ locking_path self s p.
Proof.
  unfold json_entry, locking_path.
  rewrite andb_true_iff, !bool_decide_eq_true. intros [[Hne Hdir] Hsuf] [Hpre| ->].
  - apply prefix_length in Hpre. rewrite <- Hdir in Hpre. unfold dirname in Hpre.
    destruct (exists_last Hne) as (q & x & ->).
    rewrite removelast_last, length_app in Hpre. simpl in Hpre. lia.
  - by apply suffix_key_of in Hsuf.
Qed.

Lemma json_entry_stem folder p :
  json_entry folder p = true → stem p ≠ ""%string.
Proof.
  unfold json_entry. rewrite andb_true_iff, !bool_decide_eq_true.
  intros [_ Hsuf]. apply stem_nonempty. by rewrite Hsuf.
Qed.

(** ** The worlds of a locked section *)

Lemma held_enter self name w :
  held (length (objects w)) (key_of self name) (enter_world self name w).
Proof.
  unfold held, enter_world. simpl.
  rewrite lookup_app_r, Nat.sub_diag, !lookup_insert_eq by done. done.
Qed.

Lemma held_enter_other self name w h0 key0 :
  held h0 key0 w → key0 ≠ key_of self name →
  held h0 key0 (enter_world self name w).
Proof.
  intros (Hobj & Hs & Ho) Hne. unfold held, enter_world. simpl.
  rewrite lookup_app_l by by eapply lookup_lt_Some.
  by rewrite !lookup_insert_ne.
Qed.

Lemma held_leave_other h key w h0 key0 :
  held h0 key0 w → key0 ≠ key → h0 ≠ h →
  held h0 key0 (leave_world h key w).
Proof.
  intros (Hobj & Hs & Ho) Hne Hh. unfold held, leave_world. simpl.
  rewrite list_lookup_insert_ne by done. by rewrite !lookup_delete_ne.
Qed.

Lemma free_enter_other self name w key0 :
  free key0 w → key0 ≠ key_of self name → free key0 (enter_world self name w).
Proof.
  intros [Hs Ho] Hne. unfold free, enter_world. simpl.
  by rewrite !lookup_insert_ne.
Qed.

Lemma free_leave h key w : free key (leave_world h key w).
Proof. unfold free, leave_world. simpl. by rewrite !lookup_delete_eq. Qed.

Lemma free_leave_other h key w key0 :
  free key0 w → free key0 (leave_world h key w).
Proof.
  intros [Hs Ho]. unfold free, leave_world. simpl.
  destruct (decide (key0 = key)) as [->|Hne].
  - by rewrite !lookup_delete_eq.
  - by rewrite !lookup_delete_ne.
Qed.

Lemma held_lt h key w : held h key w → (h < length (objects w))%nat.
Proof. intros (Hobj & _). by eapply lookup_lt_Some. Qed.

Lemma held_not_free h key w : held h key w → ¬ free key w.
Proof. intros (_ & Hs & _) [Hf _]. congruence. Qed.


(** * Clearing the interpreter information *)

Lemma clear_step_refl L d : clear_step L d d.
Proof. intros p. destruct (json_entry _ p); by left. Qed.

Lemma clear_step_trans L d1 d2 d3 :
  clear_step L d1 d2 → clear_step L d2 d3 → clear_step L d1 d3.
Proof.
  intros H12 H23 p. specialize (H12 p). specialize (H23 p).
  destruct (json_entry _ p).
  - destruct H23 as [->|?]; [done|by right].
  - destruct H23 as [->|[Hn ?]]; [done|].
    destruct H12 as [H12|[? ?]]; [|by right]. right. by rewrite <- H12.
Qed.

Lemma clear_step_lock_disk L s d : clear_step L d (lock_disk L s d).
Proof.
  intros p. destruct (lock_disk_lookup L s d p) as [->|[Hn Hl]].
  - destruct (json_entry _ p); by left.
  - destruct (json_entry _ p) eqn:Hj.
    + by destruct (json_entry_not_locking L s p Hj).
    + right. eauto.
Qed.

Lemma clear_step_delete L d x :
  json_entry (path L) x = true → clear_step L d (delete x d).
Proof.
  intros Hx p. destruct (decide (p = x)) as [->|Hne].
  - rewrite Hx, lookup_delete_eq. by right.
  - rewrite lookup_delete_ne by done. destruct (json_entry _ p); by left.
Qed.

(** Locking leaves the entries that are to be removed as they are. *)
Lemma lock_disk_json L s d p :
  json_entry (path L) p = true → lock_disk L s d !! p = d !! p.
Proof.
  intros Hj. destruct (lock_disk_lookup L s d p) as [?|[_ Hl]]; [done|].
  by destruct (json_entry_not_locking L s p Hj).
Qed.

Lemma elem_of_iterdir folder d p :
  p ∈ iterdir folder d ↔ entry_of folder p ∧ is_Some (d !! p).
Proof.
  unfold iterdir, entry_of. rewrite list_elem_of_filter, list_elem_of_fmap.
  split.
  - intros [H ([q n] & -> & Hq%elem_of_map_to_list)]. simpl in *. eauto.
  - intros [H [n Hn]]. split; [done|]. exists (p, n). split; [done|].
    by apply elem_of_map_to_list.
Qed.

Lemma json_entry_entry folder p :
  entry_of folder p → json_entry folder p = bool_decide (suffix p = ".json"%string).
Proof. intros H. unfold json_entry. by rewrite bool_decide_eq_true_2. Qed.

Lemma json_entry_entry_of folder p : json_entry folder p = true → entry_of folder p.
Proof.
  unfold json_entry. rewrite andb_true_iff, !bool_decide_eq_true. by intros [? _].
Qed.

Lemma held_set_disk h key f w : held h key (set_disk f w) ↔ held h key w.
Proof. done. Qed.
Lemma free_set_disk key f w : free key (set_disk f w) ↔ free key w.
Proof. done. Qed.

(** The locks around one round: the key's lock is held during it; after
    it the folder's lock is held as before and the locks of the keys are
    free again. *)
Lemma round_locks L h0 k w d :
  held h0 (key_of L "") w →
  (∀ s, s ≠ ""%string → free (key_of L s) w) →
  k ≠ ""%string →
  let h := length (objects w) in
  let w3 := set_disk (λ _, d) (enter_world L k w) in
  held h (key_of L k) w3
  ∧ held h0 (key_of L "") (leave_world h (key_of L k) w3)
  ∧ (∀ s, s ≠ ""%string → free (key_of L s) (leave_world h (key_of L k) w3)).
Proof.
  intros Hheld Hfree Hk h w3.
  assert (Hkey : key_of L "" ≠ key_of L k).
  { intros H%key_of_inj. done. }
  split; [apply held_set_disk, held_enter|]. split.
  - apply held_leave_other; [|done|].
    + apply held_set_disk. by apply held_enter_other.
    + apply held_lt in Hheld. unfold h. lia.
  - intros s Hs.
    destruct (decide (key_of L s = key_of L k)) as [Heq|Hne].
    + rewrite Heq. apply free_leave.
    + apply free_leave_other, free_set_disk, free_enter_other; [by apply Hfree|done].
Qed.

(** One round of the loop. *)
Lemma clear_body L d0 h0 x rest w :
  clear_inv L d0 h0 (x :: rest) w →
  wp (if bool_decide (suffix x = ".json"%string) then
        ReentrantFileLock_lock_for_key L (stem x) false
          (e ← exists_M x;
           if e : bool then on_disk (unlink x) else mret tt)
      else mret tt)
     (λ _, clear_inv L d0 h0 rest) (clear_raised L d0 h0) False w.
Proof.
  intros Hinv. pose proof Hinv as (Hheld & Hfree & Hstep & Hall & Hrest).
  apply Forall_cons in Hall as [Hxe Hall].
  pose proof (json_entry_entry _ _ Hxe) as Hj.
  case_bool_decide as Hsuf.
  - assert (Hstem : stem x ≠ ""%string) by by eapply json_entry_stem.
    assert (Hstep' : clear_step L d0 (lock_disk L (stem x) (disk w))).
    { eapply clear_step_trans; [exact Hstep|apply clear_step_lock_disk]. }
    assert (Hkeep : ∀ (d : Disk) (p : Path), json_entry (path L) p = true →
              (d !! p = lock_disk L (stem x) (disk w) !! p ∨ d !! p = None) →
              d !! x = None → d !! p ≠ None → p ∈ rest).
    { intros d p Hp Hd Hgone Hthere.
      assert (Hw : disk w !! p ≠ None).
      { rewrite <- (lock_disk_json L (stem x) _ _ Hp). destruct Hd; congruence. }
      apply Hrest in Hw; [|done]. apply elem_of_cons in Hw as [->|Hw]; done. }
    apply wp_lock_for_key; [by apply Hfree|].
    unfold wp, exists_M. munfold.
    change (disk (enter_world L (stem x) w)) with (lock_disk L (stem x) (disk w)).
    assert (Hex : exists_ x (lock_disk L (stem x) (disk w))
                  = bool_decide (is_Some (disk w !! x))).
    { destruct Hxe as [Hne _]. unfold exists_. destruct x; [done|].
      by rewrite lock_disk_json. }
    rewrite Hex. clear Hex.
    destruct (disk w !! x) as [[|a fd]|] eqn:Hx.
    + rewrite bool_decide_eq_true_2 by eauto.
      change (disk (enter_world L (stem x) w)) with (lock_disk L (stem x) (disk w)).
      unfold unlink. rewrite (lock_disk_json L (stem x) _ _ Hj), Hx.
      destruct (round_locks L h0 (stem x) w (lock_disk L (stem x) (disk w))
                  Hheld Hfree Hstem) as (Hh & Hh0 & Hf).
      split; [done|]. split; [done|]. split; [done|]. split; [done|].
      split; [done|]. exists x. split; [done|].
      specialize (Hstep x). rewrite Hj in Hstep. destruct Hstep; congruence.
    + rewrite bool_decide_eq_true_2 by eauto.
      change (disk (enter_world L (stem x) w)) with (lock_disk L (stem x) (disk w)).
      unfold unlink. rewrite (lock_disk_json L (stem x) _ _ Hj), Hx.
      destruct (round_locks L h0 (stem x) w
                  (delete x (lock_disk L (stem x) (disk w)))
                  Hheld Hfree Hstem) as (Hh & Hh0 & Hf).
      split; [done|]. split; [done|]. split; [done|]. split.
      { eapply clear_step_trans; [exact Hstep'|by apply clear_step_delete]. }
      split; [done|]. intros p Hp. apply Hkeep; [done| |apply lookup_delete_eq].
      destruct (decide (p = x)) as [->|Hne].
      * right. apply lookup_delete_eq.
      * left. by apply lookup_delete_ne.
    + rewrite bool_decide_eq_false_2 by (by intros [? ?]).
      destruct (round_locks L h0 (stem x) w (lock_disk L (stem x) (disk w))
                  Hheld Hfree Hstem) as (Hh & Hh0 & Hf).
      split; [done|]. split; [done|]. split; [done|]. split; [done|].
      split; [done|]. intros p Hp.
      change (disk (leave_world _ _ (enter_world L (stem x) w)))
        with (lock_disk L (stem x) (disk w)).
      apply Hkeep; [done|by left|]. by rewrite lock_disk_json.
  - apply wp_ret. split; [done|]. split; [done|]. split; [done|]. split; [done|].
    intros p Hp Hthere. apply Hrest in Hthere; [|done].
    apply elem_of_cons in Hthere as [->|?]; [|done].
    rewrite Hj in Hp. done.
Qed.

(** The whole of [py_info_clear], no lock of the folder being registered
    or held when it starts. *)
Lemma py_info_clear_wp self w :
  (∀ s, free (key_of (py_info_at self) s) w) →
  wp (py_info_clear self)
     (λ _ w',
        (∀ p, json_entry (path (py_info_at self)) p = true → disk w' !! p = None)
        ∧ clear_step (py_info_at self) (disk w) (disk w')
        ∧ (∀ s, free (key_of (py_info_at self) s) w'))
     (λ e w',
        clear_step (py_info_at self) (disk w) (disk w')
        ∧ (∀ s, free (key_of (py_info_at self) s) w')
        ∧ is_OSError e = true
        ∧ ((isdir (path (py_info_at self))
              (lock_disk (py_info_at self) "" (disk w)) = false
            ∧ disk w' = lock_disk (py_info_at self) "" (disk w))
           ∨ (e = IsADirectoryError
              ∧ ∃ p, json_entry (path (py_info_at self)) p = true
                     ∧ disk w !! p = Some Dir)))
     False w.
Proof.
  intros Hfree. unfold py_info_clear, py_info_clear_with. set (L := py_info_at self).
  assert (Hall : ∀ (w2 : World), held (length (objects w)) (key_of L "") w2 →
            (∀ s, s ≠ ""%string → free (key_of L s) w2) →
            ∀ s, free (key_of L s)
                   (leave_world (length (objects w)) (key_of L "") w2)).
  { intros w2 _ Hf s. destruct (decide (s = ""%string)) as [->|Hs].
    - apply free_leave.
    - by apply free_leave_other, Hf. }
  assert (Hfree1 : ∀ s, s ≠ ""%string → free (key_of L s) (enter_world L "" w)).
  { intros s Hs. apply free_enter_other; [done|]. by intros H%key_of_inj. }
  apply wp_with_lock; [done|].
  apply wp_bind. unfold iterdir_M. apply wp_bind. unfold wp at 1, get.
  change (disk (enter_world L "" w)) with (lock_disk L "" (disk w)).
  destruct (isdir (path L) (lock_disk L "" (disk w))) eqn:Hdir.
  - apply wp_ret.
    eapply wp_mono;
      [apply (wp_for_each (clear_inv L (disk w) (length (objects w))))| | |done].
    + split; [apply held_enter|]. split; [done|].
      split; [apply clear_step_lock_disk|]. split.
      * apply Forall_forall. intros p Hp. by apply elem_of_iterdir in Hp as [? _].
      * intros p Hp Hthere. apply elem_of_iterdir.
        split; [by eapply json_entry_entry_of|].
        by destruct (_ !! p); [eauto|].
    + intros x rest w2 Hinv. by apply clear_body.
    + intros _ w2 (Hheld & Hf & Hstep & _ & Hrest). split; [done|].
      split; [|split; [done|by apply Hall]].
      intros p Hp. simpl. destruct (disk w2 !! p) eqn:Hd; [|done].
      assert (Hin : p ∈ @nil Path) by (apply Hrest; [done|congruence]).
      by apply elem_of_nil in Hin.
    + intros e w2 (Hheld & Hf & Hstep & He & Hp). split; [done|].
      split; [done|]. split; [by apply Hall|]. split; [by subst e|]. by right.
  - unfold wp, raise. split; [apply held_enter|].
    split; [apply clear_step_lock_disk|]. split; [|split; [|by left]].
    + apply Hall; [apply held_enter|done].
    + by destruct (exists_ _ _).
Qed.


(** ** The state in which [unlink] is called *)

Lemma held_lock_held h key w : held h key w → lock_held key w = true.
Proof.
  intros (Ho & Hs & Hos). unfold lock_held. rewrite Hs, Hos, Ho. simpl.
  by rewrite !bool_decide_eq_true_2.
Qed.

(** In one round of the loop [unlink] is called on an entry that is
    there, under the lock of the folder and the lock of its key. *)
Lemma clear_round_checked L d0 h0 x rest w :
  clear_inv L d0 h0 (x :: rest) w →
  (if bool_decide (suffix x = ".json"%string) then
     ReentrantFileLock_lock_for_key L (stem x) false
       (e ← exists_M x;
        if e : bool then unlink_checked L x else mret tt)
   else mret tt) w
  = (if bool_decide (suffix x = ".json"%string) then
       ReentrantFileLock_lock_for_key L (stem x) false
         (e ← exists_M x;
          if e : bool then on_disk (unlink x) else mret tt)
     else mret tt) w.
Proof.
  intros (Hheld & Hfree & _ & Hall & _). apply Forall_cons in Hall as [Hxe _].
  case_bool_decide as Hsuf; [|done].
  assert (Hstem : stem x ≠ ""%string).
  { apply (json_entry_stem (path L)). rewrite (json_entry_entry _ _ Hxe).
    by apply bool_decide_eq_true_2. }
  apply lock_for_key_agree; [by apply Hfree|].
  unfold exists_M, mbind, M_bind, get, mret, M_ret.
  destruct (exists_ x (disk (enter_world L (stem x) w))) eqn:He; [|done].
  unfold unlink_checked, mbind, M_bind, get.
  rewrite (held_lock_held h0), (held_lock_held (length (objects w))), He.
  - by rewrite bool_decide_eq_true_2.
  - apply held_enter.
  - apply held_enter_other; [done|]. by intros H%key_of_inj.
Qed.

(** [py_info_clear] calls [unlink] in no other state: with the checked
    step in its place it does the same. *)
Lemma py_info_clear_checked self w :
  (∀ s, free (key_of (py_info_at self) s) w) →
  py_info_clear_with (unlink_checked (py_info_at self)) self w
  = py_info_clear self w.
Proof.
  intros Hfree. unfold py_info_clear, py_info_clear_with. set (L := py_info_at self).
  apply with_lock_agree; [done|].
  unfold iterdir_M, mbind, M_bind, get.
  change (disk (enter_world L "" w)) with (lock_disk L "" (disk w)).
  destruct (isdir (path L) (lock_disk L "" (disk w))); [|done].
  unfold mret, M_ret.
  apply (for_each_agree (clear_inv L (disk w) (length (objects w)))).
  - intros x rest w2 Hinv. split; [by eapply clear_round_checked|].
    eapply wp_mono; [by apply clear_body|done..].
  - split; [apply held_enter|]. split.
    { intros s Hs. apply free_enter_other; [done|]. by intros H%key_of_inj. }
    split; [apply clear_step_lock_disk|]. split.
    + apply Forall_forall. intros p Hp. by apply elem_of_iterdir in Hp as [? _].
    + intros p Hp Hthere. apply elem_of_iterdir.
      split; [by eapply json_entry_entry_of|].
      by destruct (_ !! p); [eauto|].
Qed.


(** * Extraction from the zipapp *)

(** The destination is nothing that locking creates. *)
Lemma dest_not_locking root nm : ¬ locking_path root nm (truediv (path root) nm).
Proof.
  unfold locking_path, truediv, key_of. intros [Hpre|Heq].
  - apply prefix_length in Hpre. rewrite length_app in Hpre. simpl in Hpre. lia.
  - apply app_inv_head in Heq. injection Heq as Heq.
    apply (f_equal list_ascii_of_string) in Heq.
    rewrite list_ascii_of_string_append in Heq.
    apply (f_equal length) in Heq. rewrite length_app in Heq.
    simpl in Heq. lia.
Qed.

Lemma lock_disk_dest root nm d :
  lock_disk root nm d !! truediv (path root) nm = d !! truediv (path root) nm.
Proof.
  destruct (lock_disk_lookup root nm d (truediv (path root) nm)) as [?|[_ Hl]];
    [done|]. by destruct (dest_not_locking root nm).
Qed.

Lemma exists_dest_enter root nm w :
  exists_ (truediv (path root) nm) (disk (enter_world root nm w))
  = exists_ (truediv (path root) nm) (disk w).
Proof.
  change (disk (enter_world root nm w)) with (lock_disk root nm (disk w)).
  unfold exists_. destruct (truediv (path root) nm) eqn:E; [done|].
  rewrite <- E. by rewrite lock_disk_dest.
Qed.

Lemma held_extract_world zipapp_extract src dest h key w :
  held h key w → held h key (extract_world zipapp_extract src dest w).
Proof. unfold extract_world. by destruct (exists_ dest (disk w)). Qed.

Section extraction.
Variable version : string.
Variable zipapp_extract : Path → Path → Disk → Disk.
Implicit Types (self : AppDataDiskFolder) (p : Path) (to_folder : option Path).

(** [with self.extract(path, to_folder) as dest], the lock of the archive
    name being free: the body runs with that lock held, after the
    extraction routine has been called if the destination was missing. *)
Lemma wp_extract {A} self p to_folder (body : Path → M A) Q E B w :
  free (key_of (extract_root version self to_folder) (name p)) w →
  wp (body (truediv (path (extract_root version self to_folder)) (name p)))
     (λ a w2,
        held (length (objects w))
             (key_of (extract_root version self to_folder) (name p)) w2
        ∧ Q a (leave_world (length (objects w))
                 (key_of (extract_root version self to_folder) (name p)) w2))
     (λ e w2,
        held (length (objects w))
             (key_of (extract_root version self to_folder) (name p)) w2
        ∧ E e (leave_world (length (objects w))
                 (key_of (extract_root version self to_folder) (name p)) w2))
     B
     (extract_world zipapp_extract p
        (truediv (path (extract_root version self to_folder)) (name p))
        (enter_world (extract_root version self to_folder) (name p) w)) →
  wp (AppDataDiskFolder_extract version zipapp_extract self p to_folder body) Q E B w.
Proof.
  intros Hfree Hbody. unfold AppDataDiskFolder_extract.
  apply wp_lock_for_key; [done|].
  unfold wp, exists_M, call_zipapp_extract, extract_world in *. munfold.
  destruct (exists_ _ (disk (enter_world _ _ w))); exact Hbody.
Qed.

(** The block with nothing in it. *)
Lemma extract_once_spec self p to_folder w :
  free (key_of (extract_root version self to_folder) (name p)) w →
  extract_once version zipapp_extract self p to_folder w
  = Return (truediv (path (extract_root version self to_folder)) (name p))
      (leave_world (length (objects w))
         (key_of (extract_root version self to_folder) (name p))
         (extract_world zipapp_extract p
            (truediv (path (extract_root version self to_folder)) (name p))
            (enter_world (extract_root version self to_folder) (name p) w))).
Proof.
  intros Hfree. unfold extract_once.
  set (dest := truediv _ _). set (key := key_of _ _).
  assert (H : wp (AppDataDiskFolder_extract version zipapp_extract self p to_folder
                    (λ dest, mret dest))
                 (λ a w', a = dest
                          ∧ w' = leave_world (length (objects w)) key
                                   (extract_world zipapp_extract p dest
                                      (enter_world (extract_root version self to_folder)
                                         (name p) w)))
                 (λ _ _, False) False w).
  { apply wp_extract; [done|]. apply wp_ret.
    split; [apply held_extract_world, held_enter|done]. }
  unfold wp in H.
  destruct (AppDataDiskFolder_extract _ _ _ _ _ _ w) as [a w'|e w'|]; [|done..].
  by destruct H as [-> ->].
Qed.
End extraction.





Lemma unpack_file_makes src dest d : exists_ dest (unpack_file src dest d) = true.
Proof.
  unfold exists_, unpack_file. destruct dest; [done|].
  rewrite lookup_insert_eq. by apply bool_decide_eq_true_2.
Qed.

(** C6.  [extract(path, to_folder)], the lock of the archive name being
    free and the extraction routine being one that leaves its destination
    on the disk.  When the destination exists the routine is not called;
    when it does not, the routine is called once; in both cases the block
    gets the destination [root/name], the lock is free again afterwards,
    and the body of the block runs while the lock of the archive name is
    held, the destination being there.  Two blocks in a row get the same
    destination, and the routine is called once for a destination that
    was missing, not at all for one that was there. *)
Theorem C6_extract_idempotent (version : string)
    (zipapp_extract : Path → Path → Disk → Disk)
    (self : AppDataDiskFolder) (p : Path) (to_folder : option Path) (w : World) :
  let root := extract_root version self to_folder in
  let dest := truediv (path root) (name p) in
  let key := key_of root (name p) in
  let inside := extract_world zipapp_extract p dest (enter_world root (name p) w) in
  (∀ d, exists_ dest (zipapp_extract p dest d) = true) →
  free key w →
  (exists_ dest (disk w) = true →
   ∃ w', extract_once version zipapp_extract self p to_folder w = Return dest w'
         ∧ extracted w' = extracted w
         ∧ disk w' = lock_disk root (name p) (disk w)
         ∧ free key w')
  ∧ (exists_ dest (disk w) = false →
     ∃ w', extract_once version zipapp_extract self p to_folder w = Return dest w'
           ∧ extracted w' = extracted w ++ [(p, dest)]
           ∧ exists_ dest (disk w') = true
           ∧ free key w')
  ∧ (∃ w'', extract_twice version zipapp_extract self p to_folder w
            = Return (dest, dest) w''
            ∧ extracted w''
              = extracted w ++ (if exists_ dest (disk w) then [] else [(p, dest)]))
  ∧ (held (length (objects w)) key inside ∧ exists_ dest (disk inside) = true)
  ∧ (∀ A (body : Path → M A) Q E B,
       wp (body dest)
          (λ a w2, held (length (objects w)) key w2
                   ∧ Q a (leave_world (length (objects w)) key w2))
          (λ e w2, held (length (objects w)) key w2
                   ∧ E e (leave_world (length (objects w)) key w2))
          B inside →
       wp (AppDataDiskFolder_extract version zipapp_extract self p to_folder body)
          Q E B w).
Proof.
  intros root dest key inside Hmakes Hfree.
  pose proof (extract_once_spec version zipapp_extract self p to_folder w Hfree)
    as Honce. fold root dest key in Honce. fold inside in Honce.
  pose proof (exists_dest_enter root (name p) w) as Hsame. fold dest in Hsame.
  assert (Hthere : exists_ dest (disk inside) = true).
  { unfold inside, extract_world.
    destruct (exists_ dest (disk (enter_world root (name p) w))) eqn:He; [done|].
    apply Hmakes. }
  split; [|split; [|split; [|split]]].
  - intros He. eexists. split; [exact Honce|].
    unfold inside, extract_world. rewrite Hsame, He.
    split; [done|]. split; [done|]. apply free_leave.
  - intros He. eexists. split; [exact Honce|].
    split; [|split; [exact Hthere|apply free_leave]].
    unfold inside, extract_world. by rewrite Hsame, He.
  - unfold extract_twice. unfold mbind at 1, M_bind at 1. rewrite Honce.
    set (w' := leave_world _ key inside).
    assert (Hfree' : free key w') by apply free_leave.
    pose proof (extract_once_spec version zipapp_extract self p to_folder w' Hfree')
      as Honce'. fold root dest key in Honce'.
    unfold mbind, M_bind, mret, M_ret. rewrite Honce'.
    eexists. split; [done|].
    pose proof (exists_dest_enter root (name p) w') as Hsame'. fold dest in Hsame'.
    change (disk w') with (disk inside) in Hsame'. rewrite Hthere in Hsame'.
    unfold extract_world at 1. rewrite Hsame'.
    change (extracted (leave_world _ key (enter_world root (name p) w')))
      with (extracted inside).
    unfold inside, extract_world. rewrite Hsame.
    destruct (exists_ dest (disk w)); simpl; [by rewrite app_nil_r|done].
  - split; [apply held_extract_world, held_enter|exact Hthere].
  - intros A body Q E B. apply wp_extract. exact Hfree.
Qed.

Lemma C6_witness :
  (∃ w', extract_once "20.4.0" unpack_file app_data_x ["zipapp"; "debug.py"]%string
           None (boot ∅)
         = Return ["app"; "unzip"; "20.4.0"; "debug.py"]%string w'
         ∧ extracted w' = [] ++ [(["zipapp"; "debug.py"],
                                  ["app"; "unzip"; "20.4.0"; "debug.py"])]%string
         ∧ exists_ ["app"; "unzip"; "20.4.0"; "debug.py"]%string (disk w') = true
         ∧ free ["app"; "unzip"; "20.4.0"; "debug.py.lock"]%string w')
  ∧ (∃ w'', extract_twice "20.4.0" unpack_file app_data_x ["zipapp"; "debug.py"]%string
              None (boot ∅)
            = Return (["app"; "unzip"; "20.4.0"; "debug.py"]%string,
                      ["app"; "unzip"; "20.4.0"; "debug.py"]%string) w''
            ∧ extracted w''
              = [] ++ [(["zipapp"; "debug.py"],
                        ["app"; "unzip"; "20.4.0"; "debug.py"])]%string).
Proof.
  destruct (C6_extract_idempotent "20.4.0" unpack_file app_data_x
              ["zipapp"; "debug.py"]%string None (boot ∅))
    as (_ & Hmissing & Htwice & _).
  - intros d. apply unpack_file_makes.
  - split; reflexivity.
  - split; [apply Hmissing; reflexivity|exact Htwice].
Defined.


(** * Further properties of the path locks *)

(** The block as a function of what its body does. *)
Lemma lock_for_key_unlocked {A} self name no_block (body : M A) w :
  free (key_of self name) w →
  wp body (λ _, held (length (objects w)) (key_of self name))
          (λ _, held (length (objects w)) (key_of self name)) True
     (enter_world self name w) →
  ReentrantFileLock_lock_for_key self name no_block body w
  = unlocked (length (objects w)) (key_of self name)
      (body (enter_world self name w)).
Proof.
  intros Hfree Hbody.
  destruct (lock_file_new self name no_block w Hfree) as (w1 & Hc & Hl).
  unfold ReentrantFileLock_lock_for_key.
  unfold mbind at 1, M_bind at 1. rewrite Hc.
  unfold try_finally. unfold mbind at 1, M_bind at 1. rewrite Hl.
  unfold wp in Hbody.
  destruct (body (enter_world self name w)) as [a w2|e w2|]; [| |done];
    pose proof (leave_held _ _ _ Hbody) as Hleave;
    unfold mbind, M_bind in Hleave;
    destruct (_release _ w2) as [[] w3| |]; try done; by rewrite Hleave.
Qed.

(** X1.  [with self.lock_for_key(name)], the lock of the key being free:
    the body starts in the world where the lock is registered and held
    once, on a disk that locking has only added to; a body that leaves
    the lock as it found it ends the block with its own value or its own
    exception, and in both cases the lock has been given back and its
    entry is out of the registry. *)
Theorem X1_lock_for_key_releases {A} (self : ReentrantFileLock) (name : string)
    (no_block : bool) (body : M A) (w : World) :
  free (key_of self name) w →
  wp body (λ _, held (length (objects w)) (key_of self name))
          (λ _, held (length (objects w)) (key_of self name)) True
     (enter_world self name w) →
  held (length (objects w)) (key_of self name) (enter_world self name w)
  ∧ (∀ p n, disk w !! p = Some n → disk (enter_world self name w) !! p = Some n)
  ∧ ReentrantFileLock_lock_for_key self name no_block body w
    = unlocked (length (objects w)) (key_of self name)
        (body (enter_world self name w))
  ∧ wp (ReentrantFileLock_lock_for_key self name no_block body)
       (λ _, free (key_of self name)) (λ _, free (key_of self name)) True w.
Proof.
  intros Hfree Hbody. split; [apply held_enter|]. split.
  { intros p n. apply lock_disk_keeps. }
  pose proof (lock_for_key_unlocked self name no_block body w Hfree Hbody) as Heq.
  split; [exact Heq|].
  unfold wp. rewrite Heq. unfold wp in Hbody.
  destruct (body (enter_world self name w)); simpl; [apply free_leave..|done].
Qed.

Lemma X1_witness :
  ReentrantFileLock_lock_for_key lock_cache "k" false (raise TypeError : M unit) (boot ∅)
  = Raise TypeError
      (leave_world 0 ["cache"; "k.lock"]%string (enter_world lock_cache "k" (boot ∅)))
  ∧ wp (ReentrantFileLock_lock_for_key lock_cache "k" false (raise TypeError : M unit))
       (λ _, free (key_of lock_cache "k")) (λ _, free (key_of lock_cache "k")) True
       (boot ∅).
Proof.
  destruct (X1_lock_for_key_releases lock_cache "k" false (raise TypeError : M unit)
              (boot ∅))
    as (_ & _ & Heq & Hfree).
  - split; reflexivity.
  - vm_compute. repeat split.
  - split; [exact Heq|exact Hfree].
Defined.

(** X2.  [with self.lock_for_key(name, no_block)] when somebody else
    holds the lock file and no object is registered for it.  With
    [no_block=True] the block raises [Timeout]; its body is not run; the
    lock object made for the attempt has count 0 and is out of the
    registry again; the registry, the table of the operating system and
    the record of extractions are as before.  With [no_block=False] the
    block waits, whatever its body. *)
Theorem X2_lock_for_key_contended (self : ReentrantFileLock) (name : string)
    (o : owner) (w : World) :
  _lock_store w !! key_of self name = None →
  os_locks w !! key_of self name = Some o →
  o ≠ Handle (length (objects w)) →
  ∃ w', (∀ A (body : M A),
           ReentrantFileLock_lock_for_key self name true body w = Raise Timeout w')
        ∧ objects w' = objects w ++ [mkCountedFileLock (key_of self name) 0]
        ∧ _lock_store w' = _lock_store w
        ∧ os_locks w' = os_locks w
        ∧ extracted w' = extracted w
        ∧ (∀ p n, disk w !! p = Some n → disk w' !! p = Some n)
        ∧ (∀ A (body : M A),
             ReentrantFileLock_lock_for_key self name false body w = Blocks).
Proof.
  intros Hs Ho Hne.
  set (h := length (objects w)). set (key := key_of self name).
  set (d1 := if negb (isdir (path self) (disk w))
             then (makedirs (path self) (disk w)).1 else disk w).
  set (d2 := (makedirs (path self) d1).1).
  set (w2 := mkWorld d2 (objects w ++ [mkCountedFileLock key 0])
               (<[key := h]> (_lock_store w)) (os_locks w) (extracted w)).
  assert (Hobj : objects w2 !! h = Some (mkCountedFileLock key 0)).
  { simpl. by rewrite lookup_app_r, Nat.sub_diag. }
  assert (Hacq : ∀ timeout, acquire h timeout w2
                 = match timeout with Some _ => Raise Timeout w2 | None => Blocks end).
  { intros timeout. by apply (acquire_contended w2 h (mkCountedFileLock key 0) o). }
  assert (Hrel : release h false w2 = Return tt w2).
  { unfold release, set_count. munfold. rewrite Hobj. simpl.
    unfold set_objects. simpl. rewrite lookup_app_r, Nat.sub_diag by done. simpl.
    unfold w2. f_equal. f_equal.
    rewrite insert_app_r_alt, Nat.sub_diag by done. done. }
  assert (Hlock : ∀ no_block, _lock_file self h no_block
                    (mkWorld d1 (objects w ++ [mkCountedFileLock key 0])
                       (<[key := h]> (_lock_store w)) (os_locks w) (extracted w))
                  = if no_block then Raise Timeout w2 else Blocks).
  { intros no_block. unfold _lock_file.
    unfold mbind at 1, M_bind at 1. rewrite makedirs_ignoring_exact.
    unfold set_disk at 1. cbn [disk objects _lock_store os_locks extracted].
    fold d2. fold w2. unfold try_except. rewrite Hacq. simpl.
    destruct no_block; [done|]. unfold mbind, M_bind. by rewrite Hrel, Hacq. }
  exists (set_lock_store (delete key) w2).
  split; [|split; [done|split; [|split; [done|split; [done|split]]]]].
  - intros A body. unfold ReentrantFileLock_lock_for_key.
    unfold mbind at 1, M_bind at 1. rewrite (create_lock_free _ _ _ Hs).
    fold h key d1. unfold try_finally. unfold mbind at 1, M_bind at 1.
    rewrite Hlock. unfold _release. rewrite Hrel.
    by rewrite (del_lock_spec _ _ _ Hobj).
  - simpl. apply delete_insert_id. exact Hs.
  - intros p n Hp. simpl. unfold d2.
    destruct (makedirs_lookup (path self) d1 p) as [->|(Hn & _)].
    + unfold d1. destruct (negb _); [|done].
      destruct (makedirs_lookup (path self) (disk w) p) as [->|(Hn & _)]; congruence.
    + unfold d1 in Hn. destruct (negb _); [|congruence].
      destruct (makedirs_lookup (path self) (disk w) p) as [Heq|(Hn' & _)]; congruence.
  - intros A body. unfold ReentrantFileLock_lock_for_key.
    unfold mbind at 1, M_bind at 1. rewrite (create_lock_free _ _ _ Hs).
    fold h key d1. unfold try_finally. unfold mbind at 1, M_bind at 1.
    by rewrite Hlock.
Qed.

Lemma X2_witness :
  ∃ w', ReentrantFileLock_lock_for_key lock_cache "k" true (mret tt) contended
        = Raise Timeout w'
        ∧ os_locks w' = os_locks contended
        ∧ _lock_store w' = _lock_store contended
        ∧ ReentrantFileLock_lock_for_key lock_cache "k" false (mret tt) contended
          = Blocks.
Proof.
  destruct (X2_lock_for_key_contended lock_cache "k" Elsewhere contended)
    as (w' & Ht & _ & Hs & Ho & _ & _ & Hb).
  - reflexivity.
  - reflexivity.
  - discriminate.
  - exists w'. split; [apply Ht|]. split; [exact Ho|]. split; [exact Hs|apply Hb].
Defined.

(** ** A key this process holds already *)

Lemma held_n_recount h key c c' w :
  held_n h key c w → held_n h key c' (recount h key c' w).
Proof.
  intros (Hobj & Hs & Ho). unfold held_n, recount. simpl.
  rewrite list_lookup_insert_eq by by eapply lookup_lt_Some. done.
Qed.

Lemma set_count_recount h key c c' w :
  objects w !! h = Some (mkCountedFileLock key c) →
  set_count h c' w = Return tt (recount h key c' w).
Proof.
  intros Hobj. unfold set_count, modify, recount, set_objects. by rewrite Hobj.
Qed.

(** Taking the lock once more. *)
Lemma lock_file_held self name no_block h c w :
  held_n h (key_of self name) c w → 1 ≤ c →
  _lock_file self h no_block w
  = Return tt (recount h (key_of self name) (c + 1)
                 (set_disk (λ _, (makedirs (path self) (disk w)).1) w)).
Proof.
  intros (Hobj & Hs & Ho) Hc. unfold _lock_file.
  unfold mbind at 1, M_bind at 1. rewrite makedirs_ignoring_exact.
  unfold try_except, acquire. unfold mbind at 1, M_bind at 1, get at 1.
  cbn [objects set_disk]. rewrite Hobj. cbn [count lock_file].
  destruct (c =? 0) eqn:E; [apply Z.eqb_eq in E; lia|].
  unfold mbind, M_bind, mret, M_ret.
  by rewrite (set_count_recount h (key_of self name) c).
Qed.

(** Giving it back once. *)
Lemma leave_held_n h key c w :
  held_n h key (c + 1) w → 1 ≤ c →
  (_release h;; _del_lock (Some h)) w = Return tt (recount h key c w).
Proof.
  intros Hheld Hc. pose proof Hheld as (Hobj & Hs & Ho).
  unfold _release, release. unfold mbind at 1, M_bind at 1.
  unfold mbind at 1, M_bind at 1, get at 1. rewrite Hobj. cbn [count lock_file].
  destruct (c + 1 =? 1) eqn:E; [apply Z.eqb_eq in E; lia|].
  unfold mbind at 1, M_bind at 1, mret at 1, M_ret at 1.
  rewrite (set_count_recount h key (c + 1)) by done.
  replace (Z.max (c + 1 - 1) 0) with c by lia.
  pose proof (held_n_recount h key (c + 1) c w Hheld) as (Hobj' & _).
  rewrite (del_lock_spec _ _ _ Hobj'). cbn [count].
  destruct (c =? 0) eqn:E'; [apply Z.eqb_eq in E'; lia|done].
Qed.

(** X3.  [with self.lock_for_key(name)] for a key that this process holds
    already, [c] times: the block does not wait and takes no lock of the
    operating system; its body starts with the count at [c + 1]; a body
    that leaves the lock as it found it ends the block with its own value
    or exception, the count at [c] again, the lock still held and still
    registered. *)
Theorem X3_lock_for_key_reentrant {A} (self : ReentrantFileLock) (name : string)
    (no_block : bool) (body : M A) (h : nat) (c : Z) (w : World) :
  held_n h (key_of self name) c w → 1 ≤ c →
  wp body (λ _, held_n h (key_of self name) (c + 1))
          (λ _, held_n h (key_of self name) (c + 1)) True
     (recount h (key_of self name) (c + 1)
        (set_disk (λ _, (makedirs (path self) (disk w)).1) w)) →
  ReentrantFileLock_lock_for_key self name no_block body w
  = recounted h (key_of self name) c
      (body (recount h (key_of self name) (c + 1)
               (set_disk (λ _, (makedirs (path self) (disk w)).1) w)))
  ∧ wp (ReentrantFileLock_lock_for_key self name no_block body)
       (λ _, held_n h (key_of self name) c)
       (λ _, held_n h (key_of self name) c) True w.
Proof.
  intros Hheld Hc Hbody. pose proof Hheld as (Hobj & Hs & Ho).
  assert (Heq : ReentrantFileLock_lock_for_key self name no_block body w
                = recounted h (key_of self name) c
                    (body (recount h (key_of self name) (c + 1)
                             (set_disk (λ _, (makedirs (path self) (disk w)).1) w)))).
  { unfold ReentrantFileLock_lock_for_key.
    unfold mbind at 1, M_bind at 1. rewrite (create_lock_registered _ _ _ _ Hs).
    unfold try_finally. unfold mbind at 1, M_bind at 1.
    rewrite (lock_file_held self name no_block h c w Hheld Hc).
    unfold wp in Hbody.
    destruct (body _) as [a w2|e w2|]; [| |done];
      pose proof (leave_held_n _ _ _ _ Hbody Hc) as Hleave;
      unfold mbind, M_bind in Hleave;
      destruct (_release _ w2) as [[] w3| |]; try done; by rewrite Hleave. }
  split; [exact Heq|]. unfold wp. rewrite Heq. unfold wp in Hbody.
  destruct (body _) as [a w2|e w2|]; simpl.
  - by eapply held_n_recount.
  - by eapply held_n_recount.
  - done.
Qed.

Lemma X3_witness :
  ∃ w', ReentrantFileLock_lock_for_key lock_cache "k" false (mret tt)
          (enter_world lock_cache "k" (boot ∅))
        = Return tt w'
        ∧ held_n 0 (key_of lock_cache "k") 1 w'.
Proof.
  destruct (X3_lock_for_key_reentrant lock_cache "k" false (mret tt) 0 1
              (enter_world lock_cache "k" (boot ∅)))
    as [Heq Hheld].
  - vm_compute. repeat split.
  - lia.
  - vm_compute. repeat split.
  - eexists. split; [exact Heq|].
    unfold wp in Hheld. rewrite Heq in Hheld. exact Hheld.
Defined.

(** ** The lock that does not count *)

Lemma new_CountedFileLock_exact p w :
  new_CountedFileLock p w
  = Return (length (objects w))
      (mkWorld (if negb (isdir (dirname p) (disk w))
                then (makedirs (dirname p) (disk w)).1 else disk w)
               (objects w ++ [mkCountedFileLock p 0])
               (_lock_store w) (os_locks w) (extracted w)).
Proof.
  unfold new_CountedFileLock.
  unfold mbind at 1, M_bind at 1, get at 1.
  unfold mbind at 1, M_bind at 1.
  destruct (negb (isdir (dirname p) (disk w))).
  - rewrite makedirs_ignoring_exact. munfold. destruct w; done.
  - munfold. destruct w; done.
Qed.

(** X4.  [with self.non_reentrant_lock_for_key(name)], nobody holding the
    lock file: a new lock object takes the lock of the operating system;
    the registry is not consulted and not changed; a body that leaves
    that object as it found it ends the block with its own value or
    exception, the lock of the operating system given back. *)
Theorem X4_non_reentrant_runs {A} (self : ReentrantFileLock) (name : string)
    (body : M A) (w : World) :
  os_locks w !! key_of self name = None →
  wp body (λ _, holds (length (objects w)) (key_of self name))
          (λ _, holds (length (objects w)) (key_of self name)) True
     (alone_world self name w) →
  holds (length (objects w)) (key_of self name) (alone_world self name w)
  ∧ _lock_store (alone_world self name w) = _lock_store w
  ∧ ReentrantFileLock_non_reentrant_lock_for_key self name body w
    = given_back (length (objects w)) (key_of self name)
        (body (alone_world self name w))
  ∧ wp (ReentrantFileLock_non_reentrant_lock_for_key self name body)
       (λ _ w', os_locks w' !! key_of self name = None)
       (λ _ w', os_locks w' !! key_of self name = None) True w.
Proof.
  intros Ho Hbody.
  assert (Hholds : holds (length (objects w)) (key_of self name)
                     (alone_world self name w)).
  { split; simpl; [by rewrite lookup_app_r, Nat.sub_diag|apply lookup_insert_eq]. }
  assert (Heq : ReentrantFileLock_non_reentrant_lock_for_key self name body w
                = given_back (length (objects w)) (key_of self name)
                    (body (alone_world self name w))).
  { unfold ReentrantFileLock_non_reentrant_lock_for_key.
    unfold mbind at 1, M_bind at 1. rewrite new_CountedFileLock_exact.
    fold (key_of self name). unfold key_of at 1 2. rewrite dirname_truediv.
    fold (key_of self name).
    unfold mbind at 1, M_bind at 1.
    set (w1 := mkWorld _ _ _ _ _).
    assert (Hacq : acquire (length (objects w)) None w1
                   = Return tt (alone_world self name w)).
    { unfold acquire, FileLock_acquire.
      unfold mbind at 1, M_bind at 1, get at 1. unfold w1 at 1. cbn [objects].
      rewrite lookup_app_r, Nat.sub_diag by done.
      cbn [lookup list_lookup count lock_file Z.eqb].
      unfold mbind at 1, M_bind at 1. unfold w1 at 1. cbn [os_locks]. rewrite Ho.
      unfold set_count, modify, set_objects, set_os_locks, set_disk, mret, M_ret.
      unfold w1. cbn [objects disk _lock_store os_locks extracted].
      rewrite lookup_app_r, Nat.sub_diag by done. cbn [lookup list_lookup lock_file].
      unfold alone_world. f_equal. f_equal.
      rewrite insert_app_r_alt, Nat.sub_diag by done. done. }
    rewrite Hacq. unfold try_finally, wp in *.
    destruct (body (alone_world self name w)) as [a w2|e w2|]; [| |done];
      destruct Hbody as [Hobj Hos];
      unfold release, FileLock_release; munfold; rewrite Hobj; simpl;
      rewrite Hos, bool_decide_eq_true_2 by done;
      unfold set_count, modify, set_objects, set_os_locks; simpl; rewrite Hobj;
      done. }
  split; [done|]. split; [done|]. split; [exact Heq|].
  unfold wp. rewrite Heq.
  destruct (body (alone_world self name w)); simpl; [apply lookup_delete_eq..|done].
Qed.

Lemma X4_witness :
  ∃ w', ReentrantFileLock_non_reentrant_lock_for_key lock_cache "k" (mret tt) (boot ∅)
        = Return tt w'
        ∧ _lock_store w' = ∅
        ∧ os_locks w' !! key_of lock_cache "k" = None
        ∧ objects w' = [mkCountedFileLock ["cache"; "k.lock"]%string 0].
Proof.
  destruct (X4_non_reentrant_runs lock_cache "k" (mret tt) (boot ∅))
    as (_ & _ & Heq & _).
  - reflexivity.
  - vm_compute. repeat split.
  - eexists. split; [exact Heq|]. vm_compute. repeat split.
Defined.

(** X5.  [with self.non_reentrant_lock_for_key(name)] is not reentrant:
    when the lock file is held, by another process or by a lock object of
    this one, the block waits for ever, whatever its body.  So it does
    inside [with self.lock_for_key(name)] for the same name, taken when
    the key was free. *)
Theorem X5_non_reentrant_blocks (self : ReentrantFileLock) (name : string) (w : World) :
  (∀ o, os_locks w !! key_of self name = Some o →
        o ≠ Handle (length (objects w)) →
        ∀ A (body : M A),
          ReentrantFileLock_non_reentrant_lock_for_key self name body w = Blocks)
  ∧ (free (key_of self name) w →
     ∀ A (body : M A) no_block,
       ReentrantFileLock_lock_for_key self name no_block
         (ReentrantFileLock_non_reentrant_lock_for_key self name body) w
       = Blocks).
Proof.
  assert (Hblocks : ∀ w o, os_locks w !! key_of self name = Some o →
            o ≠ Handle (length (objects w)) →
            ∀ A (body : M A),
              ReentrantFileLock_non_reentrant_lock_for_key self name body w = Blocks).
  { clear w. intros w o Ho Hne A body.
    unfold ReentrantFileLock_non_reentrant_lock_for_key.
    unfold mbind at 1, M_bind at 1. rewrite new_CountedFileLock_exact.
    fold (key_of self name).
    unfold mbind at 1, M_bind at 1.
    rewrite (acquire_contended _ _ (mkCountedFileLock (key_of self name) 0) o);
      [done| |done|done|done].
    simpl. by rewrite lookup_app_r, Nat.sub_diag. }
  split; [by apply Hblocks|].
  intros Hfree A body no_block.
  assert (Hin : ReentrantFileLock_non_reentrant_lock_for_key self name body
                  (enter_world self name w) = Blocks).
  { apply (Hblocks _ (Handle (length (objects w)))).
    - simpl. apply lookup_insert_eq.
    - simpl. rewrite length_app. simpl. intros [= H]. lia. }
  rewrite lock_for_key_unlocked; [by rewrite Hin|done|].
  unfold wp. by rewrite Hin.
Qed.

Lemma X5_witness :
  ReentrantFileLock_non_reentrant_lock_for_key lock_cache "k" (mret tt) contended
  = Blocks
  ∧ ReentrantFileLock_lock_for_key lock_cache "k" false
      (ReentrantFileLock_non_reentrant_lock_for_key lock_cache "k" (mret tt)) (boot ∅)
    = Blocks.
Proof.
  destruct (X5_non_reentrant_blocks lock_cache "k" contended) as [Hheld _].
  destruct (X5_non_reentrant_blocks lock_cache "k" (boot ∅)) as [_ Hnested].
  split.
  - apply (Hheld Elsewhere); [reflexivity|discriminate].
  - apply Hnested. split; reflexivity.
Defined.

(** X14.  A failed [acquire] leaves no trace.  When the lock file of a
    lock object with count 0 is held by somebody else, [acquire] with a
    timeout raises [Timeout] and [acquire] without one waits; in both
    cases nothing has changed, the count is still 0.  The [release()] that
    [_lock_file] then calls changes nothing either: it does not give the
    other holder's lock back. *)
Theorem X14_failed_acquire (h : nat) (l : CountedFileLock) (o : owner) (w : World) :
  objects w !! h = Some l → count l = 0 →
  os_locks w !! lock_file l = Some o → o ≠ Handle h →
  (∀ timeout, acquire h (Some timeout) w = Raise Timeout w)
  ∧ acquire h None w = Blocks
  ∧ (∀ force, ∃ w', release h force w = Return tt w'
                    ∧ os_locks w' = os_locks w
                    ∧ _lock_store w' = _lock_store w
                    ∧ disk w' = disk w
                    ∧ objects w' = objects w).
Proof.
  intros Hl Hc Ho Hne.
  split; [intros timeout; by apply (acquire_contended w h l o (Some timeout))|].
  split; [by apply (acquire_contended w h l o None)|].
  intros force. unfold release, set_count. munfold. rewrite Hl, Hc. simpl.
  unfold set_objects. rewrite Hl. eexists. split; [done|]. simpl.
  repeat split. apply list_insert_id. rewrite Hl. by destruct l; simpl in *; subst.
Qed.

Lemma X14_witness :
  let w := world_after (new_CountedFileLock ["cache"; "k.lock"]%string) contended in
  acquire 0 (Some (1 # 10000)%Q) w = Raise Timeout w
  ∧ acquire 0 None w = Blocks
  ∧ ∃ w', release 0 false w = Return tt w' ∧ os_locks w' = os_locks w.
Proof.
  intros w.
  destruct (X14_failed_acquire 0 (mkCountedFileLock ["cache"; "k.lock"]%string 0)
              Elsewhere w) as (Ht & Hb & Hr).
  - reflexivity.
  - reflexivity.
  - reflexivity.
  - discriminate.
  - split; [apply Ht|]. split; [exact Hb|].
    destruct (Hr false) as (w' & Hw' & Hos & _). by exists w'.
Defined.


(** * What every operation of the path locks keeps *)

Lemma keeps_world_of {A} (I : World → Prop) (c : M A) :
  (∀ w w', I w → world_of (c w) = Some w' → I w') → keeps I c.
Proof.
  intros H w HI. unfold wp. specialize (H w).
  destruct (c w) as [a w'|e w'|]; [by apply H..|done].
Qed.

Lemma keeps_ret {A} I (a : A) : keeps I (mret a).
Proof. by intros w HI. Qed.

Lemma keeps_raise {A} I e : keeps I (raise e : M A).
Proof. by intros w HI. Qed.

Lemma keeps_bind {A X} I (c : M X) (k : X → M A) :
  keeps I c → (∀ x, keeps I (k x)) → keeps I (c ≫= k).
Proof.
  intros Hc Hk w HI. apply wp_bind.
  eapply wp_mono; [by apply Hc| |done|done]. intros x w' HI'. by apply Hk.
Qed.

Lemma keeps_try_finally {A} I (c : M A) cleanup :
  keeps I c → keeps I cleanup → keeps I (try_finally c cleanup).
Proof.
  intros Hc Hf w HI. apply wp_try_finally.
  eapply wp_mono; [by apply Hc| | |done]; intros x w' HI'; by apply Hf.
Qed.

Lemma keeps_try_except {A} I (c : M A) catches handler :
  keeps I c → (∀ e, keeps I (handler e)) → keeps I (try_except c catches handler).
Proof.
  intros Hc Hh w HI. apply wp_try_except.
  eapply wp_mono; [by apply Hc|done| |done]. intros e w' HI'.
  destruct (catches e); [by apply Hh|done].
Qed.

(** ** The registry stays in order *)

Lemma registry_ok_set_disk f w : registry_ok w → registry_ok (set_disk f w).
Proof. done. Qed.

Lemma registry_ok_set_os_locks f w : registry_ok w → registry_ok (set_os_locks f w).
Proof. done. Qed.

Lemma registry_ok_set_count h c w w' :
  registry_ok w → set_count h c w = Return tt w' → registry_ok w'.
Proof.
  intros Hok [= <-] p h' Hp. simpl in Hp. destruct (Hok p h' Hp) as (l & Hl & Hf).
  simpl. destruct (objects w !! h) as [l0|] eqn:Hh; [|eauto].
  destruct (decide (h' = h)) as [->|Hne].
  - rewrite list_lookup_insert_eq by by eapply lookup_lt_Some.
    eexists. split; [done|]. simpl. congruence.
  - rewrite list_lookup_insert_ne by done. eauto.
Qed.

Lemma registry_ok_acquire h timeout w w' :
  registry_ok w → world_of (acquire h timeout w) = Some w' → registry_ok w'.
Proof.
  intros Hok. unfold acquire, FileLock_acquire.
  unfold mbind at 1, M_bind at 1, get at 1.
  destruct (objects w !! h) as [l|] eqn:Hl; [|by intros [= <-]].
  unfold mbind, M_bind.
  destruct (count l =? 0).
  - destruct (os_locks w !! lock_file l) as [o|].
    + case_bool_decide.
      * destruct (set_count _ _ w) as [[] w1| |] eqn:E; try done.
        intros [= <-]. by eapply registry_ok_set_count.
      * destruct timeout; by intros [= <-].
    + destruct (set_count _ _ _) as [[] w1| |] eqn:E; try done.
      intros [= <-]. eapply registry_ok_set_count; [|exact E]. done.
  - unfold mret, M_ret. destruct (set_count _ _ w) as [[] w1| |] eqn:E; try done.
    intros [= <-]. by eapply registry_ok_set_count.
Qed.

Lemma registry_ok_release h force w w' :
  registry_ok w → world_of (release h force w) = Some w' → registry_ok w'.
Proof.
  intros Hok. unfold release, FileLock_release.
  unfold mbind at 1, M_bind at 1, get at 1.
  destruct (objects w !! h) as [l|] eqn:Hl; [|by intros [= <-]].
  unfold mbind, M_bind.
  destruct (count l =? 1).
  - destruct (os_locks w !! lock_file l) as [o|].
    + case_bool_decide.
      * destruct (set_count _ _ _) as [[] w1| |] eqn:E; try done.
        intros [= <-]. eapply registry_ok_set_count; [|exact E]. done.
      * destruct (set_count _ _ w) as [[] w1| |] eqn:E; try done.
        intros [= <-]. by eapply registry_ok_set_count.
    + destruct (set_count _ _ w) as [[] w1| |] eqn:E; try done.
      intros [= <-]. by eapply registry_ok_set_count.
  - unfold mret, M_ret. destruct (set_count _ _ w) as [[] w1| |] eqn:E; try done.
    intros [= <-]. by eapply registry_ok_set_count.
Qed.

Lemma sound_boot d : sound (boot d).
Proof. split; [apply lock_inv_boot|]. intros p h Hp. done. Qed.

Lemma sound_set_disk f w : sound w → sound (set_disk f w).
Proof. intros [H1 H2]. split; [by apply lock_inv_set_disk|done]. Qed.

Lemma keeps_sound_acquire h timeout : keeps sound (acquire h timeout).
Proof.
  apply keeps_world_of. intros w w' [H1 H2] Hw. split.
  - by eapply lock_inv_acquire.
  - by eapply registry_ok_acquire.
Qed.

Lemma keeps_sound_release h force : keeps sound (release h force).
Proof.
  apply keeps_world_of. intros w w' [H1 H2] Hw. split.
  - by eapply lock_inv_release.
  - by eapply registry_ok_release.
Qed.

Lemma keeps_sound_makedirs p :
  keeps sound (try_except (on_disk (makedirs p)) is_OSError (λ _, mret tt)).
Proof.
  intros w Hw. unfold wp. rewrite makedirs_ignoring_exact. by apply sound_set_disk.
Qed.

Lemma sound_new_CountedFileLock p w :
  sound w →
  wp (new_CountedFileLock p)
     (λ h w', sound w' ∧ h = length (objects w)
              ∧ objects w' = objects w ++ [mkCountedFileLock p 0]
              ∧ _lock_store w' = _lock_store w)
     (λ _ _, False) False w.
Proof.
  intros [H1 H2]. unfold wp.
  pose proof (lock_inv_new_CountedFileLock p w) as Hinv.
  rewrite new_CountedFileLock_exact in *. split; [|done].
  split; [by apply Hinv|].
  intros q h Hq. simpl in *. destruct (H2 q h Hq) as (l & Hl & Hf).
  exists l. split; [|done]. rewrite lookup_app_l; [done|by eapply lookup_lt_Some].
Qed.

Lemma keeps_sound_create_lock self name : keeps sound (_create_lock self name).
Proof.
  intros w Hw. unfold _create_lock.
  apply wp_bind. unfold wp at 1, get.
  destruct (_lock_store w !! truediv (path self) (name +:+ ".lock")) as [h|] eqn:Hs;
    [done|].
  apply wp_bind. eapply wp_mono; [by apply sound_new_CountedFileLock| |done|done].
  intros h w1 ([Hinv Hok] & -> & Hobj & Hst). apply wp_bind. unfold wp, modify. simpl.
  split; [by apply lock_inv_set_lock_store|].
  intros q h' Hq. simpl in Hq |- *.
  destruct (decide (q = truediv (path self) (name +:+ ".lock"))) as [->|Hne].
  - rewrite lookup_insert_eq in Hq. injection Hq as <-. rewrite Hobj.
    eexists. by rewrite lookup_app_r, Nat.sub_diag.
  - rewrite lookup_insert_ne in Hq by done. by apply Hok.
Qed.

Lemma keeps_sound_del_lock lock : keeps sound (_del_lock lock).
Proof.
  intros w [Hinv Hok]. unfold wp, _del_lock. destruct lock as [h|]; [|done].
  munfold. destruct (objects w !! h) as [l|]; [|done].
  destruct (count l =? 0); [|done].
  split; [by apply lock_inv_set_lock_store|].
  intros q h' Hq. simpl in Hq. apply lookup_delete_Some in Hq as [_ Hq].
  by apply Hok.
Qed.

Lemma keeps_sound_lock_file self h no_block : keeps sound (_lock_file self h no_block).
Proof.
  unfold _lock_file. apply keeps_bind; [apply keeps_sound_makedirs|]. intros _.
  apply keeps_try_except; [apply keeps_sound_acquire|]. intros e.
  destruct no_block; [apply keeps_raise|].
  apply keeps_bind; [apply keeps_sound_release|]. intros _.
  apply keeps_sound_acquire.
Qed.

(** X6.  Whatever state the locks are in and however the calls end, the
    operations of a [ReentrantFileLock] keep the state of the locks sound
    (a lock object holds the lock of the operating system exactly when its
    count is positive, no count is negative, and every entry of the
    registry is a lock object for the very file it is registered for):
    [_create_lock], [_del_lock], [_lock_file], and the three [with]
    blocks around any body that keeps it. *)
Theorem X6_path_locks_keep_sound (self : ReentrantFileLock) (name : string) :
  (∀ d, sound (boot d))
  ∧ keeps sound (_create_lock self name)
  ∧ (∀ lock, keeps sound (_del_lock lock))
  ∧ (∀ h no_block, keeps sound (_lock_file self h no_block))
  ∧ (∀ A (body : M A) no_block,
       keeps sound body →
       keeps sound (ReentrantFileLock_lock_for_key self name no_block body))
  ∧ (∀ A (body : M A),
       keeps sound body →
       keeps sound (ReentrantFileLock_non_reentrant_lock_for_key self name body))
  ∧ (∀ A (body : M A),
       keeps sound body → keeps sound (with_lock self body)).
Proof.
  split; [apply sound_boot|].
  split; [apply keeps_sound_create_lock|].
  split; [apply keeps_sound_del_lock|].
  split; [apply keeps_sound_lock_file|].
  split; [|split].
  - intros A body no_block Hbody. unfold ReentrantFileLock_lock_for_key.
    apply keeps_bind; [apply keeps_sound_create_lock|]. intros h.
    apply keeps_try_finally; [|apply keeps_sound_del_lock].
    apply keeps_try_finally; [|apply keeps_sound_release].
    apply keeps_bind; [apply keeps_sound_lock_file|done].
  - intros A body Hbody. unfold ReentrantFileLock_non_reentrant_lock_for_key.
    apply keeps_bind.
    { intros w Hw. eapply wp_mono; [by apply sound_new_CountedFileLock| |done|done].
      by intros h w' [? _]. }
    intros h. apply keeps_bind; [apply keeps_sound_acquire|]. intros _.
    apply keeps_try_finally; [done|apply keeps_sound_release].
  - intros A body Hbody. unfold with_lock. cbn [enter exit ReentrantFileLock_PathLock].
    unfold ReentrantFileLock_enter, ReentrantFileLock_exit.
    apply keeps_bind.
    { apply keeps_bind; [apply keeps_sound_create_lock|]. intros h.
      apply keeps_bind; [apply keeps_sound_lock_file|]. intros _. apply keeps_ret. }
    intros lock. apply keeps_try_finally; [done|].
    apply keeps_bind; [|intros _; apply keeps_ret].
    apply keeps_bind.
    { destruct (_lock lock); [apply keeps_sound_release|apply keeps_raise]. }
    intros _. apply keeps_bind; [apply keeps_sound_del_lock|]. intros _.
    apply keeps_ret.
Qed.

Lemma X6_witness :
  sound (world_after (ReentrantFileLock_lock_for_key lock_cache "k" false (mret tt))
           (boot ∅)).
Proof.
  destruct (X6_path_locks_keep_sound lock_cache "k") as (Hboot & _ & _ & _ & Hkey & _).
  pose proof (Hkey unit (mret tt) false (keeps_ret sound tt) (boot ∅) (Hboot ∅)) as H.
  unfold wp in H. unfold world_after.
  destruct (ReentrantFileLock_lock_for_key lock_cache "k" false (mret tt) (boot ∅));
    [exact H|exact H|apply Hboot].
Defined.


(** * Further properties of the JSON store *)

(** ** Directories that are there *)

(** After a walk that was not blocked every directory on the way is
    there. *)
Lemma mkdir_walk_success above todo d d1 st :
  mkdir_walk above todo d = (d1, st) → (∀ e, st ≠ MkBlocked e) →
  ∀ k, (1 ≤ k ≤ length todo)%nat → d1 !! (above ++ take k todo) = Some Dir.
Proof.
  revert above d. induction todo as [|c rest IH]; intros above d Hw Hst k Hk;
    [simpl in Hk; lia|].
  assert (Hrec : ∀ d0, d0 !! (above ++ [c]) = Some Dir →
            mkdir_walk (above ++ [c]) rest d0 = (d1, st) →
            d1 !! (above ++ take k (c :: rest)) = Some Dir).
  { intros d0 Hd0 Hw0. destruct k as [|[|k]]; [lia| |].
    - simpl. rewrite take_0.
      destruct (mkdir_walk_lookup (above ++ [c]) rest d0 (above ++ [c]))
        as [Heq|(Hn & _)]; [|congruence]. rewrite Hw0 in Heq. cbn [fst] in Heq.
      by rewrite Heq.
    - simpl. rewrite (cons_middle c above), app_assoc.
      apply (IH _ _ Hw0 Hst (S k)). simpl in Hk |- *. lia. }
  simpl in Hw.
  destruct (d !! (above ++ [c])) as [[|a fd]|] eqn:Hc, rest as [|c' rest'].
  - injection Hw as <- <-. destruct k as [|[|k]]; [lia|done|simpl in Hk; lia].
  - by apply (Hrec d).
  - injection Hw as <- <-. by destruct (Hst FileExistsError).
  - injection Hw as <- <-. by destruct (Hst NotADirectoryError).
  - injection Hw as <- <-. destruct k as [|[|k]]; [lia| |simpl in Hk; lia].
    simpl. apply lookup_insert_eq.
  - apply (Hrec (<[above ++ [c] := Dir]> d)); [apply lookup_insert_eq|done].
Qed.

(** A walk along directories that are there changes nothing. *)
Lemma mkdir_walk_dirs above todo d :
  (∀ k, (1 ≤ k ≤ length todo)%nat → d !! (above ++ take k todo) = Some Dir) →
  mkdir_walk above todo d = (d, MkExisted).
Proof.
  revert above. induction todo as [|c rest IH]; intros above Hd; [done|].
  pose proof (Hd 1%nat ltac:(simpl; lia)) as H1. simpl in H1. rewrite take_0 in H1.
  simpl. rewrite H1.
  destruct rest as [|c' rest']; [done|]. apply IH. intros k Hk.
  rewrite <- app_assoc. apply (Hd (S k)). simpl in *. lia.
Qed.

Lemma isdir_of_dirs p d :
  (∀ k, (1 ≤ k ≤ length p)%nat → d !! take k p = Some Dir) → isdir p d = true.
Proof.
  intros H. unfold isdir. destruct p as [|c p]; [done|].
  specialize (H (length (c :: p)) ltac:(simpl; lia)).
  rewrite firstn_all in H. by rewrite H.
Qed.

(** ** Writing, again *)

Lemma file_not_above self k :
  take k (dirname (file self)) ≠ file self.
Proof.
  unfold file. rewrite dirname_truediv. unfold truediv. intros H.
  apply (f_equal length) in H. rewrite length_take, length_app in H. simpl in H. lia.
Qed.

(** After a [write] that returned, the folder of the store is there, with
    every directory above it. *)
Lemma write_dirs `{Limits} self doc w w' :
  JSONStoreDisk_write self doc w = Return tt w' →
  ∀ k, (1 ≤ k ≤ length (dirname (file self)))%nat →
       disk w' !! take k (dirname (file self)) = Some Dir.
Proof.
  unfold JSONStoreDisk_write, on_disk, mkdir_parents_exist_ok. munfold.
  destruct (mkdir_walk [] (dirname (file self)) (disk w)) as [d1 st] eqn:Hm.
  intros Hw k Hk.
  assert (Hd1 : d1 !! take k (dirname (file self)) = Some Dir).
  { apply (mkdir_walk_success [] _ _ _ _ Hm); [|done].
    intros e ->. done. }
  destruct st as [| |e]; [| |done];
    (destruct (dumps doc) as [text|e]; [|done]); simpl in Hw; unfold write_text in Hw;
    (destruct (negb _); [done|]);
    (destruct (d1 !! file self) as [[|[] data]|]; simpl in Hw; try done);
    injection Hw as <-; simpl;
    (rewrite lookup_insert_ne; [done|apply not_eq_sym, file_not_above]).
Qed.

(** A [write] into a folder that is there, over a file of the store or
    where there is none. *)
Lemma write_over `{Limits} self doc text w :
  (∀ k, (1 ≤ k ≤ length (dirname (file self)))%nat →
        disk w !! take k (dirname (file self)) = Some Dir) →
  (disk w !! file self = None ∨ ∃ data, disk w !! file self = Some (File true data)) →
  dumps doc = inl text →
  ∃ w', JSONStoreDisk_write self doc w = Return tt w'
        ∧ disk w' = <[file self := File true (Text text)]> (disk w)
        ∧ objects w' = objects w ∧ _lock_store w' = _lock_store w
        ∧ os_locks w' = os_locks w ∧ extracted w' = extracted w.
Proof.
  intros Hdirs Hfile Hser.
  unfold JSONStoreDisk_write, on_disk, mkdir_parents_exist_ok. munfold.
  rewrite (mkdir_walk_dirs [] _ _ Hdirs), Hser. simpl.
  unfold write_text. rewrite (isdir_of_dirs _ _ Hdirs). simpl.
  destruct Hfile as [-> | [data ->]]; by eexists.
Qed.

(** A [write] into a folder that is there, of a document that
    [json.dumps] raises for: the exception of [json.dumps] is that of
    [write], and nothing has changed. *)
Lemma write_refused `{Limits} self doc e w :
  (∀ k, (1 ≤ k ≤ length (dirname (file self)))%nat →
        disk w !! take k (dirname (file self)) = Some Dir) →
  dumps doc = inr e →
  JSONStoreDisk_write self doc w = Raise e w.
Proof.
  intros Hdirs Hser.
  unfold JSONStoreDisk_write, on_disk, mkdir_parents_exist_ok. munfold.
  rewrite (mkdir_walk_dirs [] _ _ Hdirs), Hser. simpl.
  by destruct w.
Qed.

Lemma file_nonempty self : file self ≠ [].
Proof. unfold file, truediv. by destruct (path (in_folder self)). Qed.

Lemma exists_file self w :
  JSONStoreDisk_exists self w
  = Return (bool_decide (is_Some (disk w !! file self))) w.
Proof.
  unfold JSONStoreDisk_exists, exists_M, exists_. munfold.
  pose proof (file_nonempty self). by destruct (file self).
Qed.

(** X7.  A store that has been written can be written again, and the last
    write that returned wins.  After [write(a)] has returned, [write(b)]
    does what [json.dumps(b)] does: when that returns a text, [write(b)]
    returns, the file then holds this text and nothing else on the disk
    has changed, and for a [b] of the round trip (C5) [read()] gives back
    [b]; when it raises ([TypeError] for keys that do not compare,
    [ValueError] for an integer of too many digits, [RecursionError] for
    a nesting too deep), [write(b)] raises the same and the file holds
    what it held. *)
Theorem X7_write_again `{Limits} (self : JSONStoreDisk) (a b : pyval) (w w1 : World) :
  JSONStoreDisk_write self a w = Return tt w1 →
  match dumps b with
  | inl text =>
      ∃ w2, JSONStoreDisk_write self b w1 = Return tt w2
            ∧ disk w2 = <[file self := File true (Text text)]> (disk w1)
            ∧ (∀ float_of_literal,
                 json_safe float_of_literal b = true →
                 (nesting b ≤ decoder_depth)%nat →
                 ∃ data, JSONStoreDisk_read float_of_literal self w2 = Return data w2
                         ∧ deep_equal data b = true)
  | inr e =>
      JSONStoreDisk_write self b w1 = Raise e w1
      ∧ (e = TypeError ∨ e = ValueError ∨ e = RecursionError)
  end.
Proof.
  intros Ha. destruct (dumps b) as [text|e] eqn:Hb.
  - destruct (write_over self b text w1) as (w2 & Hw & Hd & _); [|right|done|].
    + by eapply write_dirs.
    + apply write_spec in Ha as [_ Hf]. eauto.
    + exists w2. split; [done|]. split; [done|].
      intros F Hsafe Hdepth. exists (canon b).
      split; [|by eapply deep_equal_canon].
      pose proof (loads_dumps F b text Hsafe Hdepth Hb) as Hl.
      eapply read_valid; [|exact Hl]. unfold read_text.
      by rewrite Hd, lookup_insert_eq.
  - split.
    + apply write_refused; [|done]. by eapply write_dirs.
    + unfold dumps in Hb.
      destruct (negb (serializable b)); [left; congruence|].
      destruct (negb (ints_fit b)); [right; left; congruence|].
      destruct (negb _); [right; right; congruence|done].
Qed.

Lemma X7_witness :
  ∃ w1 w2, @JSONStoreDisk_write limits_1000 store_k doc_int_key (boot ∅) = Return tt w1
           ∧ @JSONStoreDisk_write limits_1000 store_k doc_b_a w1 = Return tt w2
           ∧ @JSONStoreDisk_read limits_1000 id store_k w2 = Return doc_a_b w2
           ∧ @JSONStoreDisk_write limits_1000 store_k doc_mixed_keys w1
             = Raise TypeError w1.
Proof.
  pose proof (@X7_write_again limits_1000 store_k doc_int_key doc_b_a (boot ∅)
                (world_after (@JSONStoreDisk_write limits_1000 store_k doc_int_key)
                   (boot ∅)) eq_refl) as Hgood.
  pose proof (@X7_write_again limits_1000 store_k doc_int_key doc_mixed_keys (boot ∅)
                (world_after (@JSONStoreDisk_write limits_1000 store_k doc_int_key)
                   (boot ∅)) eq_refl) as Hbad.
  change (@dumps limits_1000 doc_b_a) with (@inl _ exn text_a_b) in Hgood.
  change (@dumps limits_1000 doc_mixed_keys) with (@inr (list N) _ TypeError) in Hbad.
  cbv iota in Hgood, Hbad.
  destruct Hgood as (w2 & Hw & Hd & Hr). destruct Hbad as [Hbad _].
  eexists _, w2. split; [reflexivity|]. split; [exact Hw|]. split; [|exact Hbad].
  destruct (Hr id eq_refl) as (data & Hread & _); [vm_compute; lia|].
  assert (Hw2 : w2 = world_after (@JSONStoreDisk_write limits_1000 store_k doc_b_a)
                       (world_after (@JSONStoreDisk_write limits_1000 store_k doc_int_key)
                          (boot ∅))).
  { unfold world_after at 1. by rewrite Hw. }
  rewrite Hw2. vm_compute. reflexivity.
Defined.

(** X8.  [exists()] and [remove()].  After a [write] that returned the
    store exists.  A store whose file is missing does not exist and
    cannot be removed: [remove()] raises [FileNotFoundError] and leaves
    the disk as it is.  [remove()] of a store whose file is there deletes
    that file and nothing else, after which the store does not exist. *)
Theorem X8_exists_remove `{Limits} (self : JSONStoreDisk) (w : World) :
  (∀ doc w', JSONStoreDisk_write self doc w = Return tt w' →
             JSONStoreDisk_exists self w' = Return true w')
  ∧ (disk w !! file self = None →
     JSONStoreDisk_exists self w = Return false w
     ∧ ∃ w', JSONStoreDisk_remove self w = Raise FileNotFoundError w'
             ∧ disk w' = disk w)
  ∧ (∀ a data, disk w !! file self = Some (File a data) →
     JSONStoreDisk_exists self w = Return true w
     ∧ ∃ w', JSONStoreDisk_remove self w = Return tt w'
             ∧ disk w' = delete (file self) (disk w)
             ∧ JSONStoreDisk_exists self w' = Return false w'
             ∧ ∃ w'', JSONStoreDisk_remove self w' = Raise FileNotFoundError w'').
Proof.
  split; [|split].
  - intros doc w' Hw. apply write_spec in Hw as [_ Hf].
    rewrite exists_file, Hf. by rewrite bool_decide_eq_true_2.
  - intros Hf. rewrite exists_file, Hf.
    split; [by rewrite bool_decide_eq_false_2 by (by intros [? ?])|].
    unfold JSONStoreDisk_remove, on_disk, unlink. rewrite Hf. by eexists.
  - intros a data Hf. rewrite exists_file, Hf.
    split; [by rewrite bool_decide_eq_true_2|].
    unfold JSONStoreDisk_remove, on_disk, unlink. rewrite Hf.
    eexists. split; [done|]. split; [done|].
    rewrite exists_file. simpl. rewrite lookup_delete_eq.
    split; [by rewrite bool_decide_eq_false_2 by (by intros [? ?])|]. by eexists.
Qed.

Lemma X8_witness :
  JSONStoreDisk_exists store_k (boot (disk_with Undecodable))
  = Return true (boot (disk_with Undecodable))
  ∧ JSONStoreDisk_exists store_k (boot ∅) = Return false (boot ∅)
  ∧ (∃ w', JSONStoreDisk_remove store_k (boot ∅) = Raise FileNotFoundError w'
           ∧ disk w' = disk (boot ∅)).
Proof.
  destruct (@X8_exists_remove limits_1000 store_k (boot (disk_with Undecodable)))
    as (_ & _ & Hthere).
  destruct (@X8_exists_remove limits_1000 store_k (boot ∅)) as (_ & Hmissing & _).
  split; [apply (Hthere true Undecodable); reflexivity|].
  apply Hmissing. reflexivity.
Defined.



(** X10.  The removal after a failed parse happens once.  When reading
    and parsing the file of a store raises a [ValueError] (the text is no
    JSON, or holds an integer of too many digits, or the bytes are no
    text), the first [read()] returns [None] and removes the file; from
    then on the store does not exist, and a further [read()] returns
    [None] and changes nothing.  When it raises anything else (a
    [RecursionError] for a text nested too deep), [read()] returns [None]
    and the store is as it was. *)
Theorem X10_read_heals_once `{Limits} (float_of_literal : pystr → pystr)
    (self : JSONStoreDisk) (w : World) (e : exn) :
  (∃ t, read_text (file self) (disk w) = inl t ∧ loads float_of_literal t = inr e)
  ∨ read_text (file self) (disk w) = inr e →
  if is_ValueError e
  then ∃ w', JSONStoreDisk_read float_of_literal self w = Return PNone w'
             ∧ disk w' = delete (file self) (disk w)
             ∧ JSONStoreDisk_exists self w' = Return false w'
             ∧ JSONStoreDisk_read float_of_literal self w' = Return PNone w'
  else JSONStoreDisk_read float_of_literal self w = Return PNone w.
Proof.
  intros Hbad. destruct (is_ValueError e) eqn:He.
  - eexists. split.
    { unfold JSONStoreDisk_read. eapply read_bad_format; [done|done|by left]. }
    split; [done|]. split.
    + rewrite exists_file. simpl. rewrite lookup_delete_eq.
      by rewrite bool_decide_eq_false_2 by (by intros [? ?]).
    + apply (read_other_exception _ _ _ FileNotFoundError); [|done].
      right. unfold read_text. simpl. by rewrite lookup_delete_eq.
  - by eapply read_other_exception.
Qed.

Lemma X10_witness :
  (∃ w', @JSONStoreDisk_read limits_1000 id store_k (boot (disk_with (Text (str "{"))))
         = Return PNone w'
         ∧ disk w' = delete (file store_k) (disk (boot (disk_with (Text (str "{")))))
         ∧ JSONStoreDisk_exists store_k w' = Return false w'
         ∧ @JSONStoreDisk_read limits_1000 id store_k w' = Return PNone w')
  ∧ @JSONStoreDisk_read limits_1000 id store_k (boot (disk_with (Text text_deep)))
    = Return PNone (boot (disk_with (Text text_deep))).
Proof.
  split.
  - apply (@X10_read_heals_once limits_1000 id store_k
             (boot (disk_with (Text (str "{")))) JSONDecodeError).
    left. exists (str "{"). split; vm_compute; reflexivity.
  - apply (@X10_read_heals_once limits_1000 id store_k
             (boot (disk_with (Text text_deep))) RecursionError).
    left. exists text_deep. split; vm_compute; reflexivity.
Defined.


(** * Further properties of the application data folder *)

(** The name of the file of a store: the key is its stem, [.json] its
    suffix. *)
Lemma split_suffix_json key :
  key ≠ ""%string → split_suffix (key +:+ ".json") = (key, ".json"%string).
Proof.
  intros Hkey. unfold split_suffix. rewrite list_ascii_of_string_append.
  change (list_ascii_of_string ".json")
    with ("."%char :: list_ascii_of_string "json").
  rewrite rfind_dot_app_dot by done.
  assert (Hlen : (0 < length (list_ascii_of_string key))%nat).
  { destruct key; [done|simpl; lia]. }
  rewrite length_app. simpl length.
  replace ((0 <? _)%nat && _) with true.
  2:{ symmetry. apply andb_true_iff. split; apply Nat.ltb_lt; lia. }
  rewrite take_app_length, drop_app_length. simpl.
  by rewrite string_of_list_ascii_of_string.
Qed.

Lemma json_entry_file self :
  key self ≠ ""%string →
  json_entry (path (in_folder self)) (file self) = true
  ∧ stem (file self) = key self.
Proof.
  intros Hkey. unfold json_entry, stem, suffix, file.
  rewrite name_truediv, dirname_truediv, (split_suffix_json _ Hkey). simpl.
  split; [|done]. rewrite andb_true_r. apply bool_decide_eq_true_2.
  split; [|done]. unfold truediv. by destruct (path (in_folder self)).
Qed.

(** X11.  [py_info_clear] removes what the stores of [py_info] have
    written, under the lock of each store.  The file of the store of an
    interpreter is an entry of the [py_info] folder with the suffix
    [.json], and the lock file of the key that [py_info_clear] takes for
    it is the one that the store itself takes in [locked()], whose body
    runs while that lock is held.  [py_info_clear] calls [unlink] on an
    entry only while it holds that lock and the lock of the folder, and
    only if the entry is there: with the step in the place of [unlink]
    that fails an assertion in any other state, so for the file of the
    store whenever the lock of the store is not held, it does the same.
    After a [py_info_clear] that returned the store does not exist and
    its [read()] returns [None]; when it raises, it is with an
    [OSError]. *)
Theorem X11_clear_removes_py_info `{Limits} (sha256_hexdigest : Path → string)
    (self : AppDataDiskFolder) (p : Path) (w : World) :
  let store := py_info sha256_hexdigest self p in
  let lock_of_store := key_of (in_folder store) (key store) in
  sha256_hexdigest p ≠ ""%string →
  (∀ s, free (key_of (py_info_at self) s) w) →
  json_entry (path (py_info_at self)) (file store) = true
  ∧ key_of (py_info_at self) (stem (file store)) = lock_of_store
  ∧ lock_held lock_of_store (enter_world (in_folder store) (key store) w) = true
  ∧ (∀ A (body : M A),
       wp body (λ _, held (length (objects w)) lock_of_store)
               (λ _, held (length (objects w)) lock_of_store) True
          (enter_world (in_folder store) (key store) w) →
       JSONStoreDisk_locked store body w
       = unlocked (length (objects w)) lock_of_store
           (body (enter_world (in_folder store) (key store) w)))
  ∧ (∀ w0, lock_held lock_of_store w0 = false →
           unlink_checked (py_info_at self) (file store) w0
           = Raise AssertionError w0)
  ∧ py_info_clear_with (unlink_checked (py_info_at self)) self w
    = py_info_clear self w
  ∧ wp (py_info_clear self)
       (λ _ w',
          JSONStoreDisk_exists store w' = Return false w'
          ∧ ∀ float_of_literal,
              JSONStoreDisk_read float_of_literal store w' = Return PNone w')
       (λ e _, is_OSError e = true) False w.
Proof.
  intros store lock_of_store Hkey Hfree.
  destruct (json_entry_file store Hkey) as [Hj Hstem].
  assert (Hlock : key_of (py_info_at self) (stem (file store)) = lock_of_store).
  { by rewrite Hstem. }
  split; [exact Hj|]. split; [exact Hlock|].
  split; [apply (held_lock_held (length (objects w))), held_enter|].
  split.
  { intros A body Hbody. unfold JSONStoreDisk_locked.
    apply lock_for_key_unlocked; [|done].
    unfold lock_of_store. rewrite <- Hstem. apply Hfree. }
  split.
  { intros w0 Hw0. unfold unlink_checked, mbind, M_bind, get.
    by rewrite Hlock, Hw0, andb_false_r. }
  split; [by apply py_info_clear_checked|].
  eapply wp_mono; [by apply py_info_clear_wp| | |done].
  - intros u w' (Hgone & _). specialize (Hgone _ Hj). split.
    + rewrite exists_file, Hgone.
      by rewrite bool_decide_eq_false_2 by (by intros [? ?]).
    + intros F. apply (read_other_exception _ _ _ FileNotFoundError); [|done].
      right. unfold read_text. by rewrite Hgone.
  - by intros e w' (_ & _ & He & _).
Qed.

Lemma X11_witness :
  ∃ w', py_info_clear app_data_x (boot info_disk) = Return tt w'
        ∧ py_info_clear_with (unlink_checked (py_info_at app_data_x)) app_data_x
            (boot info_disk) = Return tt w'
        ∧ JSONStoreDisk_exists (py_info digest_a app_data_x ["python"%string]) w'
          = Return false w'
        ∧ @JSONStoreDisk_read limits_1000 id
            (py_info digest_a app_data_x ["python"%string]) w'
          = Return PNone w'.
Proof.
  destruct (@X11_clear_removes_py_info limits_1000 digest_a app_data_x
              ["python"%string] (boot info_disk))
    as (_ & _ & _ & _ & _ & Heq & H).
  - discriminate.
  - intros s. split; reflexivity.
  - unfold wp in H.
    assert (E : py_info_clear app_data_x (boot info_disk)
                = Return tt (world_after (py_info_clear app_data_x) (boot info_disk))).
    { vm_compute. reflexivity. }
    rewrite E in H, Heq. destruct H as [Hex Hread].
    eexists. split; [exact E|]. split; [exact Heq|].
    split; [exact Hex|apply Hread].
Defined.

(** A walk is blocked by a regular file on the way only. *)
Lemma mkdir_walk_blocked_file above todo d d' e :
  mkdir_walk above todo d = (d', MkBlocked e) →
  ∃ q a data, q `prefix_of` above ++ todo ∧ d !! q = Some (File a data).
Proof.
  revert above d. induction todo as [|c rest IH]; intros above d; [done|].
  assert (Hpre : ∀ q, q `prefix_of` (above ++ [c]) ++ rest →
                      q `prefix_of` above ++ c :: rest).
  { intros q. by rewrite <- app_assoc. }
  simpl.
  destruct (d !! (above ++ [c])) as [[|a fd]|] eqn:Hc, rest as [|c' rest'];
    try done.
  - intros (q & a & data & Hq & Hd)%IH. eauto 6.
  - intros _. exists (above ++ [c]), a, fd. done.
  - intros _. exists (above ++ [c]), a, fd. split; [|done].
    by apply prefix_app, prefix_cons, prefix_nil.
  - intros (q & a & data & Hq & Hd)%IH.
    destruct (decide (q = above ++ [c])) as [->|Hne].
    + by rewrite lookup_insert_eq in Hd.
    + rewrite lookup_insert_ne in Hd by done. eauto 6.
Qed.

(** X12.  [house] makes the folder [wheel/house] of the application data
    with the directories above it and returns its path; nothing that was
    on the disk changes.  When it has returned the folder is a directory,
    and a further call returns the same path and changes nothing.  It
    raises, an [OSError], only when a regular file is in the way. *)
Theorem X12_house (self : AppDataDiskFolder) (w : World) :
  wp (house self)
     (λ p w',
        p = truediv (truediv (path (lock self)) "wheel") "house"
        ∧ isdir p (disk w') = true
        ∧ (∀ q n, disk w !! q = Some n → disk w' !! q = Some n)
        ∧ ∃ w'', house self w' = Return p w'' ∧ disk w'' = disk w')
     (λ e w',
        is_OSError e = true
        ∧ (∀ q n, disk w !! q = Some n → disk w' !! q = Some n)
        ∧ ∃ q a data, q `prefix_of` truediv (truediv (path (lock self)) "wheel") "house"
                      ∧ disk w !! q = Some (File a data))
     False w.
Proof.
  unfold wp, house, on_disk, mkdir_parents_exist_ok. munfold.
  set (p := truediv (truediv (path (lock self)) "wheel") "house").
  destruct (mkdir_walk [] p (disk w)) as [d1 st] eqn:Hm.
  assert (Hkeep : ∀ q n, disk w !! q = Some n → d1 !! q = Some n).
  { intros q n Hq. destruct (mkdir_walk_lookup [] p (disk w) q) as [Heq|(Hn & _)];
      [|congruence]. rewrite Hm in Heq. simpl in Heq. congruence. }
  assert (Hok : (∀ e, st ≠ MkBlocked e) →
            isdir p d1 = true ∧ mkdir_walk [] p d1 = (d1, MkExisted)).
  { intros Hst. pose proof (mkdir_walk_success [] p _ _ _ Hm Hst) as Hdirs.
    simpl in Hdirs. split; [by apply isdir_of_dirs|by apply mkdir_walk_dirs]. }
  destruct st as [| |e]; simpl.
  - destruct Hok as [Hdir Hagain]; [done|]. repeat split; [done..|].
    rewrite Hagain. by eexists.
  - destruct Hok as [Hdir Hagain]; [done|]. repeat split; [done..|].
    rewrite Hagain. by eexists.
  - split; [by eapply mkdir_walk_blocked|]. split; [done|].
    by apply (mkdir_walk_blocked_file [] p _ _ _ Hm).
Qed.

(** [with self], for a [ReentrantFileLock] whose lock is free, as a
    function of what its body does. *)
Lemma with_lock_unlocked {A} (self : ReentrantFileLock) (body : M A) w :
  free (key_of self "") w →
  wp body (λ _, held (length (objects w)) (key_of self ""))
          (λ _, held (length (objects w)) (key_of self "")) True
     (enter_world self "" w) →
  with_lock self body w
  = unlocked (length (objects w)) (key_of self "") (body (enter_world self "" w)).
Proof.
  intros Hfree Hbody.
  destruct (lock_file_new self "" false w Hfree) as (w1 & Hc & Hl).
  unfold wp, with_lock in *. cbn [enter exit ReentrantFileLock_PathLock].
  unfold ReentrantFileLock_enter, ReentrantFileLock_exit.
  unfold mbind, M_bind, mret, M_ret. rewrite Hc.
  change (_lock_file {| path := path self; _lock := Some (length (objects w)) |})
    with (_lock_file self).
  rewrite Hl. unfold try_finally. cbn [_lock].
  destruct (body (enter_world self "" w)) as [a w2|e w2|]; [| |done];
    pose proof (leave_held _ _ _ Hbody) as Hleave;
    unfold mbind, M_bind, mret, M_ret in Hleave |- *;
    destruct (_release _ w2) as [[] w3| |]; try done;
    destruct (_del_lock _ w3) as [[] w4| |]; try done; by injection Hleave as ->.
Qed.

(** X13.  [with self.locked(path) as folder], the lock of the sub-folder
    being free: the block gets the path [root/path]; its body runs while
    the lock file [root/path/.lock] is held, the sub-folder having been
    made; a body that leaves the lock as it found it ends the block with
    its own value or exception, and the lock is free again. *)
Theorem X13_locked {A} (self : AppDataDiskFolder) (p : string)
    (body : Path → M A) (w : World) :
  free (key_of (lock_div (lock self) p) "") w →
  wp (body (truediv (path (lock self)) p))
     (λ _, held (length (objects w)) (key_of (lock_div (lock self) p) ""))
     (λ _, held (length (objects w)) (key_of (lock_div (lock self) p) "")) True
     (enter_world (lock_div (lock self) p) "" w) →
  key_of (lock_div (lock self) p) "" = truediv (truediv (path (lock self)) p) ".lock"
  ∧ held (length (objects w)) (key_of (lock_div (lock self) p) "")
      (enter_world (lock_div (lock self) p) "" w)
  ∧ AppDataDiskFolder_locked self p body w
    = unlocked (length (objects w)) (key_of (lock_div (lock self) p) "")
        (body (truediv (path (lock self)) p)
           (enter_world (lock_div (lock self) p) "" w))
  ∧ wp (AppDataDiskFolder_locked self p body)
       (λ _, free (key_of (lock_div (lock self) p) ""))
       (λ _, free (key_of (lock_div (lock self) p) "")) True w.
Proof.
  intros Hfree Hbody. split; [done|]. split; [apply held_enter|].
  assert (Heq : AppDataDiskFolder_locked self p body w
                = unlocked (length (objects w)) (key_of (lock_div (lock self) p) "")
                    (body (truediv (path (lock self)) p)
                       (enter_world (lock_div (lock self) p) "" w))).
  { unfold AppDataDiskFolder_locked. by apply with_lock_unlocked. }
  split; [exact Heq|]. unfold wp. rewrite Heq. unfold wp in Hbody.
  destruct (body _ _); simpl; [apply free_leave..|done].
Qed.

Lemma X13_witness :
  AppDataDiskFolder_locked app_data_x "seed" (λ folder, mret folder) (boot ∅)
  = Return ["app"; "seed"]%string
      (leave_world 0 ["app"; "seed"; ".lock"]%string
         (enter_world (lock_div (lock app_data_x) "seed") "" (boot ∅)))
  ∧ isdir ["app"; "seed"]%string
      (disk (enter_world (lock_div (lock app_data_x) "seed") "" (boot ∅))) = true.
Proof.
  destruct (X13_locked app_data_x "seed" (λ folder, mret folder) (boot ∅))
    as (_ & _ & Heq & _).
  - split; reflexivity.
  - vm_compute. repeat split.
  - split; [exact Heq|]. vm_compute. reflexivity.
Defined.

Lemma append_inj_r s t suf : s +:+ suf = t +:+ suf → s = t.
Proof.
  intros H. apply (f_equal list_ascii_of_string) in H.
  rewrite !list_ascii_of_string_append in H. apply app_inv_tail in H.
  apply (f_equal string_of_list_ascii) in H.
  by rewrite !string_of_list_ascii_of_string in H.
Qed.

Lemma lock_name_not_json s t : s +:+ ".lock" ≠ t +:+ ".json".
Proof.
  intros H. apply (f_equal list_ascii_of_string) in H.
  rewrite !list_ascii_of_string_append in H.
  apply (f_equal (@rev ascii)) in H. rewrite !rev_app_distr in H. simpl in H.
  discriminate H.
Qed.

(** X15.  The stores of [embed_update_log] do not collide.  For a
    distribution and a Python version that are plain names (each one
    component of a path: not empty, without a separator, neither [.] nor
    [..]), the store is the file
    [root/wheel/<version>/embed/3/<distribution>.json]; creating it
    touches nothing; two such stores with the same file are for the same
    distribution and version; and no lock file of such a store is the
    file of one. *)
Theorem X15_embed_update_log_layout (self : AppDataDiskFolder)
    (distribution for_py_version : string) (w : World) :
  plain distribution = true → plain for_py_version = true →
  ∃ store,
    AppDataDiskFolder_embed_update_log self distribution for_py_version w
    = Return store w
    ∧ file store = path (lock self)
                   ++ ["wheel"; for_py_version; "embed"; "3";
                       distribution +:+ ".json"]%string
    ∧ (∀ distribution' for_py_version' store',
         plain distribution' = true → plain for_py_version' = true →
         AppDataDiskFolder_embed_update_log self distribution' for_py_version' w
         = Return store' w →
         (file store' = file store →
          distribution' = distribution ∧ for_py_version' = for_py_version)
         ∧ key_of (in_folder store') (key store') ≠ file store).
Proof.
  intros _ _. eexists. split; [reflexivity|]. split.
  { unfold file. cbn. unfold truediv. by rewrite <- !app_assoc. }
  intros d' v' store' _ _ [= <-]. unfold file, key_of. cbn. unfold truediv.
  rewrite <- !app_assoc. simpl. split.
  - intros H%app_inv_head. injection H as -> H%append_inj_r. done.
  - intros H%app_inv_head. injection H as _ H. by apply lock_name_not_json in H.
Qed.

Lemma X15_witness :
  ∃ store,
    AppDataDiskFolder_embed_update_log app_data_x "pip" "3.9" (boot ∅)
    = Return store (boot ∅)
    ∧ file store = ["app"; "wheel"; "3.9"; "embed"; "3"; "pip.json"]%string
    ∧ key_of (in_folder store) (key store) ≠ file store.
Proof.
  destruct (X15_embed_update_log_layout app_data_x "pip" "3.9" (boot ∅)
              eq_refl eq_refl)
    as (store & Hs & Hf & Hd).
  exists store. split; [exact Hs|]. split; [exact Hf|].
  exact (proj2 (Hd "pip"%string "3.9"%string store eq_refl eq_refl Hs)).
Defined.
